(** * Markdown viewer content script: scheduler, cache proxy, sanitizer, extraction

    A shallow embedding of the content script of the markdown viewer
    extension (the async task queue and its drain loop, the background cache
    proxy, the HTML sanitizer, the remark extraction plugins and the SVG image
    post-processing pass) together with the properties its specification
    states about them; and of what stands beside it: the print page, the
    reading history, the toolbar's zoom and layout controls, the
    localization manager and the two scripts that maintain the locale files.

    Conventions.
    - A JavaScript string is a [string] that holds the bytes of its UTF-8
      encoding, so that a character of the ASCII range is one element.
      [Js.length] counts UTF-16 code units, as [s.length] does, and
      [Js.slice0] cuts after a number of them; [trim] and the [\s] class
      know the white-space and line-terminator characters of ECMAScript, the
      no-break space among them; the case maps are exact wherever one side
      is an ASCII character (the dotless i becomes I in upper case), and leave
      alone a character that has neither itself nor its other case in ASCII,
      which no test of the program can tell, since all compare with ASCII
      text. Offsets into a string (those of the regular expressions and of
      the image pass) count bytes; they serve only to cut the string where a
      match begins or ends. The print page never looks into the text it
      moves: there a text is held one element per unit of length.
    - A number that the program computes with is a [Js.Number]: a rational
      for a finite value, [NaN] or an infinity. The lengths and offsets of
      the print job protocol are whole numbers, held in [Z].
    - [async] functions are modelled as the sequence of their effects; a
      suspension point ([await]) is where the environment may deliver the
      completion of an out-of-band fetch.
    - A JavaScript exception is a value of [Js.result]; [try]/[catch] is
      [Js.try_catch]. What a rasterization backend rejects with is any
      value, a [Js.Thrown]: an error, [null], [undefined] or something else.
    - Platform services that the content script calls but does not define
      (the URL parser, the HTML parser and serializer, the SHA-256 digest,
      the message channel to the background page, the rasterization
      backends, [atob], the localization table) are the fields of the class
      [Platform]: every theorem holds for whatever they return.
    - Loops that the source runs until a condition holds take a [fuel]
      argument and return [None] when it runs out; each is proved to finish
      within the fuel it is given. *)

From Stdlib Require Import Ascii ZArith QArith Qround Lia Lqa.
From Stdlib Require String.
From stdpp Require Import base tactics option list strings pretty gmap.

Set Warnings "-register-all".

(** ** JavaScript strings and exceptions *)

Module Js.

(** An [Error] object; only its [message] is ever read. *)
Record Error := mkError { message : string }.

(** The outcome of evaluating an expression that may throw. *)
Inductive result (A : Type) :=
| Ok (a : A)
| Throw (e : Error).
Arguments Ok {A} a.
Arguments Throw {A} e.

Definition bind {A B} (m : result A) (k : A → result B) : result B :=
  match m with
  | Ok a => k a
  | Throw e => Throw e
  end.

(** [try { body } catch (error) { handler(error) }] *)
Definition try_catch {A} (body : result A) (handler : Error → result A) : result A :=
  match body with
  | Ok a => Ok a
  | Throw e => handler e
  end.

(** What a promise of the platform may reject with, as far as a [catch]
    clause that reads [error.message] can tell: an object whose [message] is
    a string (an [Error] among them), [null], [undefined], or a value of
    another kind, whose [message] is [undefined]. *)
Inductive Thrown :=
| ThrownError (e : Error)
| ThrownNull
| ThrownUndefined
| ThrownOther.

(** The outcome of awaiting a promise of the platform, and of a [try]
    block that awaits one. *)
Inductive settled (A : Type) :=
| Fulfilled (a : A)
| RejectedWith (v : Thrown).
Arguments Fulfilled {A} a.
Arguments RejectedWith {A} v.

(** [error.message]: [None] for [undefined]; reading a property of [null]
    or [undefined] throws a [TypeError]. *)
Definition messageOf (v : Thrown) : result (option string) :=
  match v with
  | ThrownError e => Ok (Some (message e))
  | ThrownOther => Ok None
  | ThrownNull => Throw (mkError "Cannot read properties of null (reading 'message')")
  | ThrownUndefined =>
      Throw (mkError "Cannot read properties of undefined (reading 'message')")
  end.

(** [String.prototype.startsWith] *)
Fixpoint startsWith (s prefix : string) {struct prefix} : bool :=
  match prefix, s with
  | EmptyString, _ => true
  | String c prefix', String d s' => Ascii.eqb c d && startsWith s' prefix'
  | String _ _, EmptyString => false
  end.

(** *** Characters outside ASCII

    A character outside the ASCII range is held as the bytes of its UTF-8
    encoding. *)

(** The UTF-8 encoding of a code point. *)
Definition utf8 (cp : N) : string :=
  let byte (n : N) := String (ascii_of_N n) EmptyString in
  if (cp <? 0x80)%N then byte cp
  else if (cp <? 0x800)%N then
    byte (0xC0 + cp / 64)%N +:+ byte (0x80 + cp mod 64)%N
  else if (cp <? 0x10000)%N then
    byte (0xE0 + cp / 4096)%N +:+ byte (0x80 + (cp / 64) mod 64)%N
    +:+ byte (0x80 + cp mod 64)%N
  else
    byte (0xF0 + cp / 262144)%N +:+ byte (0x80 + (cp / 4096) mod 64)%N
    +:+ byte (0x80 + (cp / 64) mod 64)%N +:+ byte (0x80 + cp mod 64)%N.

(** The white space and line terminator code points of ECMAScript, which
    [trim] strips and [\s] matches: TAB, LF, VT, FF, CR, SP, NBSP, the
    other space separators, LS, PS and the byte order mark. *)
Definition whiteSpaceCodePoints : list N :=
  [0x9; 0xA; 0xB; 0xC; 0xD; 0x20; 0xA0; 0x1680;
   0x2000; 0x2001; 0x2002; 0x2003; 0x2004; 0x2005; 0x2006; 0x2007; 0x2008; 0x2009; 0x200A;
   0x2028; 0x2029; 0x202F; 0x205F; 0x3000; 0xFEFF]%N.

Definition whiteSpace : list string :=
  Eval vm_compute in (utf8 <$> whiteSpaceCodePoints).

(** [s.substring(n)], counted in bytes. *)
Fixpoint skip (n : nat) (s : string) : string :=
  match n, s with
  | S n', String _ s' => skip n' s'
  | _, _ => s
  end.

(** The length of the first of [prefixes] that [s] begins with. *)
Fixpoint prefixLength (prefixes : list string) (s : string) : option nat :=
  match prefixes with
  | [] => None
  | p :: rest =>
      if startsWith s p then Some (String.length p) else prefixLength rest s
  end.

(** Whether [s] begins with a white space character. *)
Definition startsWithSpace (s : string) : bool :=
  match prefixLength whiteSpace s with Some _ => true | None => false end.

(** The letters of the ASCII range. *)
Definition lowerChar (c : ascii) : ascii :=
  let n := nat_of_ascii c in
  if (65 <=? n)%nat && (n <=? 90)%nat then ascii_of_nat (n + 32) else c.

Definition upperChar (c : ascii) : ascii :=
  let n := nat_of_ascii c in
  if (97 <=? n)%nat && (n <=? 122)%nat then ascii_of_nat (n - 32) else c.

(** The characters outside ASCII whose lower-case, respectively upper-case,
    form holds an ASCII character, with that form: U+0130 and the Kelvin
    sign; the sharp s, the dotless i, the long s, the ligatures and the
    letters that decompose into an ASCII letter and a mark. *)
Definition CaseTable := list (string * string).

Definition lowerTable : CaseTable :=
  Eval vm_compute in
    [(utf8 0x130, "i" +:+ utf8 0x307); (utf8 0x212A, "k")].

Definition upperTable : CaseTable :=
  Eval vm_compute in
    [(utf8 0xDF, "SS"); (utf8 0x131, "I"); (utf8 0x149, utf8 0x2BC +:+ "N");
     (utf8 0x17F, "S"); (utf8 0x1F0, "J" +:+ utf8 0x30C);
     (utf8 0x1E96, "H" +:+ utf8 0x331); (utf8 0x1E97, "T" +:+ utf8 0x308);
     (utf8 0x1E98, "W" +:+ utf8 0x30A); (utf8 0x1E99, "Y" +:+ utf8 0x30A);
     (utf8 0x1E9A, "A" +:+ utf8 0x2BE);
     (utf8 0xFB00, "FF"); (utf8 0xFB01, "FI"); (utf8 0xFB02, "FL");
     (utf8 0xFB03, "FFI"); (utf8 0xFB04, "FFL"); (utf8 0xFB05, "ST"); (utf8 0xFB06, "ST")].

Fixpoint lookupPrefix (table : CaseTable) (s : string) : option (nat * string) :=
  match table with
  | [] => None
  | (key, image) :: rest =>
      if startsWith s key then Some (String.length key, image) else lookupPrefix rest s
  end.

(** A case conversion: a character of the table is replaced by its form
    there, an ASCII letter goes by [f], and any other character is left as
    it is. Of the characters left as they are, JavaScript changes some into
    another character outside ASCII; none becomes, or comes to hold, an
    ASCII character, so that the result compares with ASCII text, as a whole
    or as a prefix, the way the result in JavaScript does. [skip] counts the
    bytes still to pass over of a character found in the table. *)
Fixpoint mapCase (table : CaseTable) (f : ascii → ascii) (skip : nat) (s : string)
    : string :=
  match s with
  | EmptyString => EmptyString
  | String c s' =>
      match skip with
      | S k => mapCase table f k s'
      | 0 =>
          match lookupPrefix table s with
          | Some (n, image) => image +:+ mapCase table f (n - 1) s'
          | None => String (f c) (mapCase table f 0 s')
          end
      end
  end.

Definition toLowerCase (s : string) : string := mapCase lowerTable lowerChar 0 s.
Definition toUpperCase (s : string) : string := mapCase upperTable upperChar 0 s.

(** [s.length]: the number of UTF-16 code units, one for a character up to
    U+FFFF (one to three bytes), two for a character beyond (four bytes). A
    byte that continues a character counts for nothing. *)
Fixpoint length (s : string) : nat :=
  match s with
  | EmptyString => 0
  | String c s' =>
      let n := nat_of_ascii c in
      (if (128 <=? n)%nat && (n <? 192)%nat then 0
       else if (240 <=? n)%nat then 2 else 1) + length s'
  end.

(** White space stripped from the start, as long as there is some. *)
Fixpoint stripStart (prefixes : list string) (fuel : nat) (s : string) : string :=
  match fuel with
  | 0 => s
  | S fuel' =>
      match prefixLength prefixes s with
      | Some n => stripStart prefixes fuel' (skip n s)
      | None => s
      end
  end.

Definition trimStart (s : string) : string :=
  stripStart whiteSpace (String.length s) s.

Definition trimEnd (s : string) : string :=
  String.rev (stripStart (String.rev <$> whiteSpace) (String.length s) (String.rev s)).

Definition trim (s : string) : string := trimEnd (trimStart s).

(** Truthiness of a string value: the empty string is falsy. *)
Definition truthy (s : string) : bool :=
  match s with EmptyString => false | _ => true end.

(** [a || b] on strings. *)
Definition or_else (a b : string) : string := if truthy a then a else b.

(** [s.replace(/c/g, by)] for a one-character pattern. *)
Fixpoint replaceAll (c : ascii) (by_ : string) (s : string) : string :=
  match s with
  | EmptyString => EmptyString
  | String d s' =>
      if Ascii.eqb c d then by_ +:+ replaceAll c by_ s'
      else String d (replaceAll c by_ s')
  end.

(** The double-quote character, and a value between double quotes. *)
Definition dq : string := String (ascii_of_nat 34) EmptyString.
Definition quoted (s : string) : string := dq +:+ s +:+ dq.

(** A number: a finite value, held as the rational number it is, [NaN]
    or an infinity. *)
Inductive Number :=
| Finite (q : Q)
| NaN
| Infinity (positive : bool).

(** [x / 4]. Dividing by a power of two is exact in floating point, but
    for a value so small that the quotient is below the least number, which
    rounds to the same integer as the exact quotient. *)
Definition quarter (x : Number) : Number :=
  match x with
  | Finite q => Finite (q / 4)
  | NaN => NaN
  | Infinity positive => Infinity positive
  end.

(** [Math.round(x)]: the nearest integer, halves going up. *)
Definition Math_round (x : Number) : Number :=
  match x with
  | Finite q => Finite (inject_Z (Qfloor (q + (1 # 2))))
  | NaN => NaN
  | Infinity positive => Infinity positive
  end.

(** A number inside a template literal, for a whole number, [NaN] and the
    infinities. The digits are those JavaScript prints up to 2^53 in
    magnitude; beyond, it prints the shortest digits that tell the number
    from its neighbours. *)
Definition numberToString (x : Number) : string :=
  match x with
  | Finite q => pretty (Qfloor q)
  | NaN => "NaN"
  | Infinity true => "Infinity"
  | Infinity false => "-Infinity"
  end.

(** The line feed character. *)
Definition nl : string := String (ascii_of_nat 10) EmptyString.

(** [s.split(c)] for a one-character separator. *)
Fixpoint splitChar (c : ascii) (s : string) : list string :=
  match s with
  | EmptyString => [EmptyString]
  | String d s' =>
      if Ascii.eqb c d then EmptyString :: splitChar c s'
      else match splitChar c s' with
           | [] => [String d EmptyString]
           | w :: ws => String d w :: ws
           end
  end.

(** [s.split('/').pop()] *)
Definition lastSegment (s : string) : string :=
  default EmptyString (last (splitChar "/"%char s)).

(** [s.split(/\s+/)[0]] for a trimmed [s]: the characters before the
    first white space. *)
Fixpoint firstWord (s : string) : string :=
  match s with
  | EmptyString => EmptyString
  | String c s' => if startsWithSpace s then EmptyString else String c (firstWord s')
  end.

(** [s.replace(/\s+/g, '')]; [skip] counts the bytes still to pass over
    of a white space character. *)
Fixpoint removeSpacesFrom (skip : nat) (s : string) : string :=
  match s with
  | EmptyString => EmptyString
  | String c s' =>
      match skip with
      | S k => removeSpacesFrom k s'
      | 0 =>
          match prefixLength whiteSpace s with
          | Some n => removeSpacesFrom (n - 1) s'
          | None => String c (removeSpacesFrom 0 s')
          end
      end
  end.

Definition removeSpaces (s : string) : string := removeSpacesFrom 0 s.

(** The first half of the surrogate pair of a character beyond U+FFFF,
    given the four bytes of the character: a code unit on its own, encoded
    the way UTF-8 encodes its range. *)
Definition highSurrogate (b1 b2 b3 b4 : ascii) : string :=
  let cp :=
    ((N_of_ascii b1 - 0xF0) * 262144 + (N_of_ascii b2 - 0x80) * 4096
     + (N_of_ascii b3 - 0x80) * 64 + (N_of_ascii b4 - 0x80))%N in
  utf8 (0xD800 + (cp - 0x10000) / 1024)%N.

(** [s.slice(0, n)] for [0 <= n]: the first [n] code units. [copy] counts
    the bytes still to copy of the character being taken. *)
Fixpoint sliceFrom (copy n : nat) (s : string) : string :=
  match s with
  | EmptyString => EmptyString
  | String c s' =>
      match copy with
      | S copy' => String c (sliceFrom copy' n s')
      | 0 =>
          match n with
          | 0 => EmptyString
          | S n' =>
              let k := nat_of_ascii c in
              if (k <? 192)%nat then String c (sliceFrom 0 n' s')
              else if (k <? 224)%nat then String c (sliceFrom 1 n' s')
              else if (k <? 240)%nat then String c (sliceFrom 2 n' s')
              else
                match n', s' with
                | S n'', _ => String c (sliceFrom 3 n'' s')
                | 0, String b2 (String b3 (String b4 _)) => highSurrogate c b2 b3 b4
                | 0, _ => EmptyString
                end
          end
      end
  end.

Definition slice0 (n : nat) (s : string) : string := sliceFrom 0 n s.

End Js.

Notation "x ←ᵣ m ;; k" := (Js.bind m (λ x, k))
  (at level 100, m at next level, right associativity, only parsing).

(** ** Regular expressions

    A backtracking matcher with the ECMAScript priorities: quantifiers are
    greedy, alternatives are tried left to right, an iteration of [*] that
    consumes nothing is rejected, and the first successful path wins. *)

Module Regex.

Inductive Re :=
| Eps
| Chr (ok : ascii → bool)           (* one character of a class *)
| Seq (a b : Re)
| Alt (a b : Re)                    (* a|b *)
| Star (a : Re)                     (* a*, greedy *)
| Group (n : nat) (a : Re)          (* the n-th capturing group *)
| Bol                               (* ^ without the m flag *)
| Eol.                              (* $ without the m flag *)

(** a+ and a? *)
Definition Plus (a : Re) : Re := Seq a (Star a).
Definition Opt (a : Re) : Re := Alt a Eps.

Fixpoint seqs (l : list Re) : Re :=
  match l with
  | [] => Eps
  | [a] => a
  | a :: l' => Seq a (seqs l')
  end.

(** A literal character, as written and under the i flag. *)
Definition char (c : ascii) : Re := Chr (Ascii.eqb c).
Definition charI (c : ascii) : Re :=
  Chr (λ d, Ascii.eqb (Js.upperChar c) (Js.upperChar d)).

(** [[^c]] *)
Definition notChar (c : ascii) : Re := Chr (λ d, negb (Ascii.eqb c d)).

(** A literal string, as written and under the i flag. Under the i flag
    a letter of the pattern matches its two ASCII forms only: without the u
    flag a character outside ASCII is never folded onto an ASCII one. *)
Fixpoint lit (s : string) : Re :=
  match s with
  | EmptyString => Eps
  | String c EmptyString => char c
  | String c s' => Seq (char c) (lit s')
  end.

(** One of several patterns, the first that matches. *)
Fixpoint alts (l : list Re) : Re :=
  match l with
  | [] => Chr (λ _, false)
  | [a] => a
  | a :: l' => Alt a (alts l')
  end.

(** [\s]: one white space character. *)
Definition space : Re := alts (lit <$> Js.whiteSpace).

(** [.]: one character other than LF, CR, LS (bytes E2 80 A8) and PS (E2 80
    A9). A character of several bytes that begins with E2 is taken in up to
    three steps; what matters is that a run of [.] never goes over one of the
    four line terminators. *)
Definition anyChar : Re :=
  let byte (n : nat) := char (ascii_of_nat n) in
  let notOneOf (l : list nat) := Chr (λ d, negb (bool_decide (nat_of_ascii d ∈ l))) in
  alts [notOneOf [10; 13; 226];
        Seq (byte 226) (notOneOf [128]);
        seqs [byte 226; byte 128; notOneOf [168; 169]]].

Fixpoint litI (s : string) : Re :=
  match s with
  | EmptyString => Eps
  | String c EmptyString => charI c
  | String c s' => Seq (charI c) (litI s')
  end.

(** Start and end offsets of the groups matched so far, latest first. *)
Definition Captures := list (nat * (nat * nat)).

(** A continuation: what to do with the offset reached, the rest of the
    input there and the captures. *)
Definition Cont (R : Type) : Type := nat → string → Captures → option R.

(** The iteration of [a*], given the matcher [ma] of [a]: as many rounds
    as possible first, a round that consumes nothing being rejected. The
    length of the input bounds the number of rounds. *)
Fixpoint starLoop {R : Type} (ma : nat → string → Captures → Cont R → option R)
    (k : Cont R) (fuel : nat) (pos : nat) (s : string) (caps : Captures) : option R :=
  match fuel with
  | 0 => k pos s caps
  | S fuel' =>
      match ma pos s caps
              (λ pos' s' caps',
                 if (pos <? pos')%nat then starLoop ma k fuel' pos' s' caps' else None) with
      | Some x => Some x
      | None => k pos s caps
      end
  end.

(** [matchRe r pos s caps k]: match [r] at offset [pos], where [s] is the
    rest of the input from there, then continue with [k]. *)
Fixpoint matchRe {R : Type} (r : Re) (pos : nat) (s : string) (caps : Captures)
    (k : Cont R) : option R :=
  match r with
  | Eps => k pos s caps
  | Chr ok =>
      match s with
      | String c s' => if ok c then k (S pos) s' caps else None
      | EmptyString => None
      end
  | Seq a b => matchRe a pos s caps (λ pos' s' caps', matchRe b pos' s' caps' k)
  | Alt a b =>
      match matchRe a pos s caps k with
      | Some x => Some x
      | None => matchRe b pos s caps k
      end
  | Star a => starLoop (matchRe a) k (String.length s) pos s caps
  | Group n a =>
      matchRe a pos s caps (λ pos' s' caps', k pos' s' ((n, (pos, pos')) :: caps'))
  | Bol => if (pos =? 0)%nat then k pos s caps else None
  | Eol => match s with EmptyString => k pos s caps | _ => None end
  end.

(** [s.substring(from)] and [s.substring(0, to)] *)
Fixpoint dropS (n : nat) (s : string) : string :=
  match n, s with
  | S n', String _ s' => dropS n' s'
  | _, _ => s
  end.

Fixpoint takeS (n : nat) (s : string) : string :=
  match n, s with
  | S n', String c s' => String c (takeS n' s')
  | _, _ => EmptyString
  end.

(** [s.substring(from, to)] for [from <= to] *)
Definition substring (from to : nat) (s : string) : string :=
  takeS (to - from) (dropS from s).

(** The result of [regex.exec(input)]: [match.index], the offset just
    after the match (the new [lastIndex] of a global regex), and the
    groups. *)
Record Match := mkMatch {
  m_index : nat;
  m_end : nat;
  m_groups : Captures;
}.

(** [match[0]] and [match[n]] *)
Definition matched (input : string) (m : Match) : string :=
  substring (m_index m) (m_end m) input.

Definition group (n : nat) (input : string) (m : Match) : option string :=
  match list_find (λ c : nat * (nat * nat), fst c = n) (m_groups m) with
  | Some (_, (_, (from, to))) => Some (substring from to input)
  | None => None
  end.

(** Try every start offset from [index] on; [s] is the input from
    [index]. *)
Fixpoint searchFrom (r : Re) (index : nat) (s : string) : option Match :=
  match matchRe r index s [] (λ pos' _ caps, Some (mkMatch index pos' caps)) with
  | Some m => Some m
  | None =>
      match s with
      | String _ s' => searchFrom r (S index) s'
      | EmptyString => None
      end
  end.

(** [regex.lastIndex = lastIndex; regex.exec(input)] *)
Definition exec (r : Re) (input : string) (lastIndex : nat) : option Match :=
  if (lastIndex <=? String.length input)%nat
  then searchFrom r lastIndex (dropS lastIndex input)
  else None.

(** The offsets between which a match lies. *)
Definition span (m : Match) : nat * nat := (m_index m, m_end m).

(** What repeated [exec] of a global regex finds from [lastIndex] on: each
    match is the one [exec] returns where the previous one ended, and after
    the last one [exec] returns [null]. *)
Inductive Scan (r : Re) (input : string) : nat → list Match → Prop :=
| Scan_end lastIndex :
    exec r input lastIndex = None → Scan r input lastIndex []
| Scan_next lastIndex m rest :
    exec r input lastIndex = Some m →
    Scan r input (m_end m) rest →
    Scan r input lastIndex (m :: rest).

(** *** What a pattern matches

    The meaning of a pattern, apart from the order in which a matcher tries
    the ways to match it. *)

(** [Matches r pos a rest caps caps']: the pattern [r] matches the text [a]
    at offset [pos] of an input in which [rest] follows [a]; [caps'] is
    [caps] with the groups closed on the way. *)
Inductive Matches : Re → nat → string → string → Captures → Captures → Prop :=
| M_eps pos rest c : Matches Eps pos EmptyString rest c c
| M_chr ok ch pos rest c :
    ok ch = true → Matches (Chr ok) pos (String ch EmptyString) rest c c
| M_seq a b pos x y rest c c1 c2 :
    Matches a pos x (y +:+ rest) c c1 →
    Matches b (pos + String.length x) y rest c1 c2 →
    Matches (Seq a b) pos (x +:+ y) rest c c2
| M_alt_l a b pos x rest c c' : Matches a pos x rest c c' → Matches (Alt a b) pos x rest c c'
| M_alt_r a b pos x rest c c' : Matches b pos x rest c c' → Matches (Alt a b) pos x rest c c'
| M_star_nil a pos rest c : Matches (Star a) pos EmptyString rest c c
| M_star_cons a pos x y rest c c1 c2 :
    x ≠ EmptyString →
    Matches a pos x (y +:+ rest) c c1 →
    Matches (Star a) (pos + String.length x) y rest c1 c2 →
    Matches (Star a) pos (x +:+ y) rest c c2
| M_group n a pos x rest c c1 :
    Matches a pos x rest c c1 →
    Matches (Group n a) pos x rest c ((n, (pos, pos + String.length x)) :: c1)
| M_bol rest c : Matches Bol 0 EmptyString rest c c
| M_eol pos c : Matches Eol pos EmptyString EmptyString c c.

(** A matcher finds only what the pattern matches, and resumes the
    continuation there. *)
Definition Sound {R} (ma : nat → string → Captures → Cont R → option R) (r : Re) : Prop :=
  ∀ k pos s caps out,
    ma pos s caps k = Some out →
    ∃ a rest caps',
      s = a +:+ rest ∧ Matches r pos a rest caps caps' ∧
      k (pos + String.length a) rest caps' = Some out.

(** A matcher fails only if the continuation fails after every match of
    the pattern. *)
Definition Complete {R} (ma : nat → string → Captures → Cont R → option R) (r : Re) : Prop :=
  ∀ k pos a rest caps caps',
    Matches r pos a rest caps caps' →
    is_Some (k (pos + String.length a) rest caps') →
    is_Some (ma pos (a +:+ rest) caps k).

(** Whatever a pattern matches, the continuation is resumed further on in
    the same input, at the offset that tells how far. *)
Definition advances {R : Type}
    (ma : nat → string → Captures → Cont R → option R) : Prop :=
  ∀ pos s caps k x,
    ma pos s caps k = Some x →
    ∃ pos' caps',
      pos ≤ pos' ∧ pos' ≤ pos + String.length s ∧
      k pos' (dropS (pos' - pos) s) caps' = Some x.

(** [regex.test(input)] for a regex without the g flag. *)
Definition test (r : Re) (input : string) : bool :=
  bool_decide (is_Some (exec r input 0)).

End Regex.

(** ** Shapes of text

    The shapes that the specification speaks of in words, written out on
    the text itself. *)

Module Shape.

(** Texts written with the letters of [w], each in either case. *)
Fixpoint sameLetters (w x : string) : Prop :=
  match w, x with
  | EmptyString, EmptyString => True
  | String c w', String d x' => Js.upperChar c = Js.upperChar d ∧ sameLetters w' x'
  | _, _ => False
  end.

(** A text made of pieces, one after the other, each of a given kind. *)
Inductive Repeated (P : string → Prop) : string → Prop :=
| repeated_nil : Repeated P EmptyString
| repeated_cons x s : P x → Repeated P s → Repeated P (x +:+ s).

(** One white space character. *)
Definition whiteSpaceChar (x : string) : Prop := x ∈ Js.whiteSpace.

(** [c] does not occur in [s]. *)
Fixpoint noChar (c : ascii) (s : string) : Prop :=
  match s with
  | EmptyString => True
  | String d s' => d ≠ c ∧ noChar c s'
  end.

(** One line break: [<br], white space, an optional slash, [>], then any
    run of white space and [&nbsp;]; letters in either case. *)
Definition lineBreak (x : string) : Prop :=
  ∃ br spaces slash filler,
    x = br +:+ spaces +:+ slash +:+ ">" +:+ filler ∧
    sameLetters "<br" br ∧
    Repeated whiteSpaceChar spaces ∧
    (slash = EmptyString ∨ slash = "/") ∧
    Repeated (λ y, whiteSpaceChar y ∨ sameLetters "&nbsp;" y) filler.

(** A text made of line breaks only: one or more of them, and nothing
    else. *)
Definition lineBreaksOnly (s : string) : Prop :=
  ∃ first others, s = first +:+ others ∧ lineBreak first ∧ Repeated lineBreak others.

(** An image tag with a source that ends in [.svg]: [<img], white space,
    text without [>], [src=] and a double quote, the source (text without a
    double quote, then [.svg]), a double quote, text without [>], and [>];
    letters in either case. *)
Definition imageTag (tag src : string) : Prop :=
  ∃ img spaces before attr name ext after,
    tag = img +:+ spaces +:+ before +:+ attr +:+ String "034" src
          +:+ String "034" after +:+ ">" ∧
    src = name +:+ ext ∧
    sameLetters "<img" img ∧
    spaces ≠ EmptyString ∧ Repeated whiteSpaceChar spaces ∧
    noChar ">" before ∧
    sameLetters "src=" attr ∧
    name ≠ EmptyString ∧ noChar "034" name ∧
    sameLetters ".svg" ext ∧
    noChar ">" after.

End Shape.

(** ** The document object model *)

Module Dom.

Record Attr := mkAttr {
  attr_name : string;
  attr_value : string;
}.

Global Instance Attr_eq_dec : EqDecision Attr.
Proof. solve_decision. Defined.

(** A DOM node: an element with its attributes and child nodes, a text
    node, or a comment. *)
Inductive Node :=
| Element (tagName : string) (attributes : list Attr) (children : list Node)
| Text (data : string)
| Comment (data : string).

(** The [content] of a [<template>]: a parent without attributes, never
    itself a child. *)
Definition fragment (children : list Node) : Node :=
  Element "#document-fragment" [] children.

(** [node.childNodes] *)
Definition childNodes (n : Node) : list Node :=
  match n with
  | Element _ _ c => c
  | Text _ | Comment _ => []
  end.

Definition withChildNodes (c : list Node) (n : Node) : Node :=
  match n with
  | Element t a _ => Element t a c
  | Text _ | Comment _ => n
  end.

(** [node.nodeType === Node.ELEMENT_NODE] and [=== Node.COMMENT_NODE] *)
Definition isElement (n : Node) : bool :=
  match n with Element _ _ _ => true | _ => false end.

Definition isComment (n : Node) : bool :=
  match n with Comment _ => true | _ => false end.

(** A reference to a node of a tree: the child indices from the root. *)
Definition Path := list nat.

Fixpoint getNode (p : Path) (root : Node) : option Node :=
  match p with
  | [] => Some root
  | i :: p' => childNodes root !! i ≫= getNode p'
  end.

(** In-place update of the node a path refers to. *)
Fixpoint updNode (p : Path) (f : Node → Node) (root : Node) : Node :=
  match p with
  | [] => f root
  | i :: p' => withChildNodes (alter (updNode p' f) i (childNodes root)) root
  end.

Definition setNode (p : Path) (n : Node) (root : Node) : Node :=
  updNode p (λ _, n) root.

(** Number of nodes of a tree. *)
Fixpoint nodeCount (n : Node) : nat :=
  match n with
  | Element _ _ c =>
      S ((fix go (l : list Node) : nat :=
            match l with [] => 0 | x :: l' => nodeCount x + go l' end) c)
  | Text _ | Comment _ => 1
  end.

End Dom.

(** ** What the rasterization backends and the cache exchange *)

Module Wire.

(** [{ base64, width, height }], possibly carrying an [error] instead. *)
Record PngResult := mkPng {
  png_base64 : string;
  png_width : Js.Number;
  png_height : Js.Number;
  png_error : option string;
}.

(** The messages of the cache proxy to the background page. *)
Inductive CacheRequest :=
| CacheGet (key : string)
| CacheSet (key : string) (value : PngResult) (dataType : string)
| CacheClear
| CacheGetStats.

(** The background page's answer: [{ error, result, success }], each
    field possibly missing. *)
Record Response := mkResponse {
  resp_error : option string;
  resp_result : option PngResult;
  resp_success : option bool;
}.

(** What [await chrome.runtime.sendMessage(...)] gives: the promise
    rejects, or it resolves to [undefined] (nobody answered), or to a
    response object. *)
Inductive Reply :=
| Rejected (e : Js.Error)
| NoResponse
| Replied (r : Response).

End Wire.

(** ** Platform services

    Everything the content script calls but does not define. *)

Class Platform := {
  (** [Localization.translate(key, substitutions)]: the localized message,
      or the empty string when the key is unknown. *)
  translate : string → list string → string;
  (** [new URL(url, document.baseURI).protocol], or [None] when the
      constructor throws. *)
  urlProtocol : string → option string;
  (** [node.outerHTML] *)
  outerHTML : Dom.Node → string;
  (** [template.innerHTML = html; template.content] and back. *)
  parseHtml : string → Js.result Dom.Node;
  serializeHtml : Dom.Node → Js.result string;
  (** [crypto.subtle.digest('SHA-256', data)] *)
  sha256 : list Byte.byte → list Byte.byte;
  (** [chrome.runtime.sendMessage] for cache operations. *)
  sendMessage : Wire.CacheRequest → Wire.Reply;
  (** The three rasterization backends of [ExtensionRenderer]; a call
      resolves to a result object (or to nothing) or rejects, with whatever
      value the backend chooses. *)
  renderMermaidToPng : string → Js.settled (option Wire.PngResult);
  renderHtmlToPng : string → Js.settled (option Wire.PngResult);
  renderSvgToPng : string → Js.settled (option Wire.PngResult);
  (** [atob] and [decodeURIComponent]; both throw on malformed input. *)
  atob : string → Js.result string;
  decodeURIComponent : string → Js.result string;
  (** [new URL(src, window.location.href).href] *)
  resolveUrl : string → Js.result string;
}.

(** ** The sanitizer *)

Module Sanitizer.
Import Dom.

Definition blockedTags : list string :=
  ["SCRIPT"; "IFRAME"; "OBJECT"; "EMBED"; "AUDIO"; "VIDEO"].

Definition urlAttributes : list string :=
  ["src"; "href"; "xlink:href"; "action"; "formaction"; "poster"; "data"; "srcset"].

Definition allowedProtocols : list string :=
  ["http:"; "https:"; "mailto:"; "tel:"; "chrome-extension:"; "file:"].

(** [element.removeAttribute(name)]: removes the first attribute of that
    name, if any. *)
Fixpoint removeAttribute (name : string) (attrs : list Attr) : list Attr :=
  match attrs with
  | [] => []
  | a :: l => if decide (attr_name a = name) then l else a :: removeAttribute name l
  end.

(** [element.setAttribute(name, value)]: changes the first attribute of
    that name, or appends one. *)
Fixpoint setAttribute (name value : string) (attrs : list Attr) : list Attr :=
  match attrs with
  | [] => [mkAttr name value]
  | a :: l =>
      if decide (attr_name a = name) then mkAttr name value :: l
      else a :: setAttribute name value l
  end.

(** [attrName.startsWith('on')] *)
Definition isEventHandler (name : string) : bool :=
  Js.startsWith (Js.toLowerCase name) "on".

Section WithPlatform.
Context `{Platform}.

(** [isSafeUrl(url)] *)
Definition isSafeUrl (url : string) : bool :=
  if negb (Js.truthy url) then true
  else
    let trimmed := Js.trim url in
    if negb (Js.truthy trimmed) || Js.startsWith trimmed "#" then true
    else
      let lower := Js.toLowerCase trimmed in
      if Js.startsWith lower "javascript:" || Js.startsWith lower "vbscript:"
         || Js.startsWith lower "data:text/javascript"
      then false
      else if Js.startsWith lower "data:"
      then Js.startsWith lower "data:image/" || Js.startsWith lower "data:application/pdf"
      else
        match urlProtocol trimmed with
        | Some protocol => bool_decide (protocol ∈ allowedProtocols)
        | None => false
        end.

(** [isSafeSrcset(value)] *)
Definition isSafeSrcset (value : string) : bool :=
  if negb (Js.truthy value) then true
  else
    forallb (λ candidate, isSafeUrl (Js.firstWord (Js.trim candidate)))
      (Js.splitChar ","%char value).

(** The body of the [forEach] over the snapshot of the attributes: what
    one attribute of the snapshot does to the element's attribute list. *)
Definition sanitizeAttribute (attrs : list Attr) (attr : Attr) : list Attr :=
  let attrName := Js.toLowerCase (attr_name attr) in
  if Js.startsWith attrName "on" then removeAttribute (attr_name attr) attrs
  else if bool_decide (attrName ∈ urlAttributes) then
    if decide (attrName = "srcset") then
      if negb (isSafeSrcset (attr_value attr))
      then removeAttribute (attr_name attr) attrs else attrs
    else if decide (attrName = "href" ∨ attrName = "xlink:href") then
      if Js.truthy (attr_value attr) && Js.truthy (Js.trim (attr_value attr))
      then setAttribute (attr_name attr) "#" attrs
      else removeAttribute (attr_name attr) attrs
    else if negb (isSafeUrl (attr_value attr))
    then removeAttribute (attr_name attr) attrs else attrs
  else attrs.

(** [sanitizeElementAttributes(element)], on the element's attributes. *)
Definition sanitizeElementAttributes (attrs : list Attr) : list Attr :=
  foldl sanitizeAttribute attrs attrs.

(** The [<pre class="blocked-html-warning">] that takes the place of a
    blocked element; [tagName] is already in upper case. *)
Definition warningStyle : string :=
  "background: #fee; border-left: 4px solid #f00; padding: 10px; font-size: 12px; white-space: pre-wrap;".

Definition blockedWarning (tagName : string) (node : Node) : Node :=
  let originalMarkup :=
    Js.or_else (outerHTML node) ("<" +:+ Js.toLowerCase tagName +:+ ">") in
  let truncatedMarkup :=
    if (500 <? Js.length originalMarkup)%nat
    then Js.slice0 500 originalMarkup +:+ "..."
    else originalMarkup in
  let message :=
    "Blocked insecure <" +:+ Js.toLowerCase tagName +:+ "> element removed."
    +:+ Js.nl +:+ Js.nl +:+ truncatedMarkup in
  Element "pre"
    [mkAttr "class" "blocked-html-warning"; mkAttr "style" warningStyle]
    [Text message].

(** [Array.from(node.childNodes).forEach(...)]: comments are removed,
    elements are pushed, in document order. *)
Fixpoint removeComments (l : list Node) : list Node :=
  match l with
  | [] => []
  | n :: l' => if isComment n then removeComments l' else n :: removeComments l'
  end.

Fixpoint elementIndicesFrom (i : nat) (l : list Node) : list nat :=
  match l with
  | [] => []
  | n :: l' =>
      if isElement n then i :: elementIndicesFrom (S i) l'
      else elementIndicesFrom (S i) l'
  end.

Definition childPaths (p : Path) (children : list Node) : list Path :=
  (λ i, p ++ [i]) <$> elementIndicesFrom 0 children.

(** [stack.push] of each path in turn; the head of the list is the top
    of the stack. *)
Definition pushAll (paths : list Path) (stack : list Path) : list Path :=
  rev paths ++ stack.

(** The [while (stack.length > 0)] loop of [sanitizeNodeTree]. *)
Fixpoint sanitizeLoop (fuel : nat) (root : Node) (stack : list Path) : option Node :=
  match stack with
  | [] => Some root
  | p :: stack' =>
      match fuel with
      | 0 => None
      | S fuel' =>
          match getNode p root with
          | Some (Element tag attrs children) =>
              let tagName := Js.toUpperCase tag in
              if bool_decide (tagName ∈ blockedTags) then
                sanitizeLoop fuel'
                  (setNode p (blockedWarning tagName (Element tag attrs children)) root)
                  stack'
              else
                let kept := removeComments children in
                sanitizeLoop fuel'
                  (setNode p (Element tag (sanitizeElementAttributes attrs) kept) root)
                  (pushAll (childPaths p kept) stack')
          | _ => sanitizeLoop fuel' root stack'
          end
      end
  end.

(** [sanitizeNodeTree(root)] *)
Definition sanitizeNodeTree (root : Node) : option Node :=
  let kept := removeComments (childNodes root) in
  sanitizeLoop (nodeCount root) (withChildNodes kept root) (pushAll (childPaths [] kept) []).

(** [sanitizeRenderedHtml(html)]; [None] only if the loop above were cut
    short. *)
Definition sanitizeRenderedHtml (html : string) : option string :=
  match parseHtml html with
  | Js.Throw _ => Some html
  | Js.Ok content =>
      sanitized ← sanitizeNodeTree content;
      match serializeHtml sanitized with
      | Js.Ok out => Some out
      | Js.Throw _ => Some html
      end
  end.

(** The tree the walk is meant to produce, by recursion on the tree. *)
Fixpoint sanitizedNode (n : Node) : Node :=
  match n with
  | Element tag attrs children =>
      let tagName := Js.toUpperCase tag in
      if bool_decide (tagName ∈ blockedTags) then blockedWarning tagName n
      else
        Element tag (sanitizeElementAttributes attrs)
          ((fix go (l : list Node) : list Node :=
              match l with
              | [] => []
              | c :: l' => if isComment c then go l' else sanitizedNode c :: go l'
              end) children)
  | _ => n
  end.

Definition sanitizedChildren (l : list Node) : list Node :=
  sanitizedNode <$> removeComments l.

(** What the [forEach] body decides for one attribute, looked at on its
    own: dropped, rewritten, or kept. *)
Definition sanitizedAttribute (attr : Attr) : option Attr :=
  let attrName := Js.toLowerCase (attr_name attr) in
  if Js.startsWith attrName "on" then None
  else if bool_decide (attrName ∈ urlAttributes) then
    if decide (attrName = "srcset") then
      if negb (isSafeSrcset (attr_value attr)) then None else Some attr
    else if decide (attrName = "href" ∨ attrName = "xlink:href") then
      if Js.truthy (attr_value attr) && Js.truthy (Js.trim (attr_value attr))
      then Some (mkAttr (attr_name attr) "#")
      else None
    else if negb (isSafeUrl (attr_value attr)) then None else Some attr
  else Some attr.

(** The walk spends its turns on the subtree at the top of the stack and
    leaves it sanitized before it looks at the rest of the stack. *)
Definition subtreeDone (node : Node) : Prop :=
  ∀ root p stack k r,
    getNode p root = Some node →
    isElement node = true →
    sanitizeLoop k (setNode p (sanitizedNode node) root) stack = Some r →
    sanitizeLoop (nodeCount node + k) root (p :: stack) = Some r.

End WithPlatform.

Section Specification.
Context `{Platform}.

(** What the specification asks of the output, node by node and child list
    by child list. An element of active content (its tag name, in upper
    case, is SCRIPT, IFRAME, OBJECT, EMBED, AUDIO or VIDEO) is replaced,
    where it stood, by a visible notice: a [<pre>] of class
    [blocked-html-warning], red-bordered, whose text names the removed tag
    and quotes at most 500 code units of its markup. Any other element stays
    where it was, under its own tag, without attributes whose name begins
    with "on" in any letter case; text stays; comments go. *)
Inductive SanitizedAs : Node → Node → Prop :=
| san_blocked tag attrs children :
    Js.toUpperCase tag ∈ ["SCRIPT"; "IFRAME"; "OBJECT"; "EMBED"; "AUDIO"; "VIDEO"] →
    SanitizedAs (Element tag attrs children)
      (Element "pre"
         [mkAttr "class" "blocked-html-warning";
          mkAttr "style"
            "background: #fee; border-left: 4px solid #f00; padding: 10px; font-size: 12px; white-space: pre-wrap;"]
         [Text
            ("Blocked insecure <" +:+ Js.toLowerCase (Js.toUpperCase tag)
             +:+ "> element removed.

" +:+
             (let markup :=
                Js.or_else (outerHTML (Element tag attrs children))
                  ("<" +:+ Js.toLowerCase (Js.toUpperCase tag) +:+ ">") in
              if (500 <? Js.length markup)%nat
              then Js.slice0 500 markup +:+ "..."
              else markup))])
| san_kept tag attrs attrs' children children' :
    Js.toUpperCase tag ∉ ["SCRIPT"; "IFRAME"; "OBJECT"; "EMBED"; "AUDIO"; "VIDEO"] →
    (∀ a, a ∈ attrs' → Js.startsWith (Js.toLowerCase (attr_name a)) "on" = false) →
    SanitizedList children children' →
    SanitizedAs (Element tag attrs children) (Element tag attrs' children')
| san_text data :
    SanitizedAs (Text data) (Text data)
with SanitizedList : list Node → list Node → Prop :=
| sl_nil : SanitizedList [] []
| sl_comment data l l' :
    SanitizedList l l' → SanitizedList (Comment data :: l) l'
| sl_cons n n' l l' :
    isComment n = false →
    SanitizedAs n n' → SanitizedList l l' → SanitizedList (n :: l) (n' :: l').

End Specification.

(** Number of attributes of a given name. *)
Definition countName (name : string) (attrs : list Attr) : nat :=
  length (filter (λ a, attr_name a = name) attrs).

End Sanitizer.

(** ** The background cache proxy: [BackgroundCacheManagerProxy] *)

Module Cache.
Import Wire.

(** [n.toString(16)] for a non-negative integer. *)
Definition hexDigit (d : nat) : ascii :=
  if (d <? 10)%nat then ascii_of_nat (48 + d) else ascii_of_nat (87 + d).

Fixpoint toString16_go (fuel n : nat) (acc : string) : string :=
  match fuel with
  | 0 => acc
  | S fuel' =>
      let acc' := String (hexDigit (n mod 16)) acc in
      if (n / 16 =? 0)%nat then acc' else toString16_go fuel' (n / 16) acc'
  end.

Definition toString16 (n : nat) : string := toString16_go (S n) n EmptyString.

(** [s.padStart(targetLength, c)] for a one-character pad. *)
Fixpoint repeatChar (n : nat) (c : ascii) (s : string) : string :=
  match n with
  | 0 => s
  | S n' => String c (repeatChar n' c s)
  end.

Definition padStart (targetLength : nat) (c : ascii) (s : string) : string :=
  repeatChar (targetLength - String.length s) c s.

(** [array.join('')] *)
Definition join (l : list string) : string := foldr String.append EmptyString l.

Section WithPlatform.
Context `{Platform}.

(** [await chrome.runtime.sendMessage(request)] *)
Definition awaitResponse (request : CacheRequest) : Js.result (option Response) :=
  match sendMessage request with
  | Rejected e => Js.Throw e
  | NoResponse => Js.Ok None
  | Replied r => Js.Ok (Some r)
  end.

(** [response.field]: a TypeError when [response] is [undefined]. *)
Definition field {A} (f : Response → A) (response : option Response) : Js.result A :=
  match response with
  | Some r => Js.Ok (f r)
  | None => Js.Throw (Js.mkError "Cannot read properties of undefined")
  end.

(** [if (response.error) throw new Error(response.error)] *)
Definition throwIfError (response : option Response) : Js.result unit :=
  error ←ᵣ field resp_error response;;
  match error with
  | Some msg => if Js.truthy msg then Js.Throw (Js.mkError msg) else Js.Ok ()
  | None => Js.Ok ()
  end.

(** [get(key)]: the cached value, [None] for [null] or [undefined]. *)
Definition get (key : string) : Js.result (option PngResult) :=
  Js.try_catch
    (response ←ᵣ awaitResponse (CacheGet key);;
     _ ←ᵣ throwIfError response;;
     field resp_result response)
    (λ _, Js.Ok None).

(** [set(key, value, type)]: [response.success], [None] for
    [undefined]. *)
Definition set (key : string) (value : PngResult) (type : string)
    : Js.result (option bool) :=
  Js.try_catch
    (response ←ᵣ awaitResponse (CacheSet key value type);;
     _ ←ᵣ throwIfError response;;
     field resp_success response)
    (λ _, Js.Ok (Some false)).

(** [clear()] *)
Definition clear : Js.result (option bool) :=
  Js.try_catch
    (response ←ᵣ awaitResponse CacheClear;;
     _ ←ᵣ throwIfError response;;
     field resp_success response)
    (λ _, Js.Ok (Some false)).

(** The storage call behind a request failed: the promise rejected,
    nobody answered, or the answer carries a non-empty [error]. *)
Definition failed (request : CacheRequest) : Prop :=
  match sendMessage request with
  | Rejected _ | NoResponse => True
  | Replied r =>
      match resp_error r with
      | Some msg => Js.truthy msg = true
      | None => False
      end
  end.

(** [calculateHash(text)]: the digest bytes, each printed in base 16 and
    padded to two characters. *)
Definition calculateHash (text : string) : string :=
  let data := String.list_byte_of_string text in
  let hashArray := sha256 data in
  join ((λ b, padStart 2 "0"%char (toString16 (Byte.to_nat b))) <$> hashArray).

(** [generateKey(content, type)] *)
Definition generateKey (content type : string) : string :=
  calculateHash content +:+ "_" +:+ type.

End WithPlatform.

(** The usual two-digit lowercase rendering of a byte, digit by digit. *)
Definition lowerHexDigits : list ascii :=
  ["0"; "1"; "2"; "3"; "4"; "5"; "6"; "7"; "8"; "9"; "a"; "b"; "c"; "d"; "e"; "f"]%char.

Definition nibble (d : nat) : ascii := nth d lowerHexDigits "0"%char.

Definition hexByte (b : Byte.byte) : string :=
  let n := Byte.to_nat b in
  String (nibble (n / 16)) (String (nibble (n mod 16)) EmptyString).

Definition lowerHex (bytes : list Byte.byte) : string :=
  foldr (λ b acc, hexByte b +:+ acc) EmptyString bytes.

Definition isLowerHexChar (c : ascii) : Prop := c ∈ lowerHexDigits.

Fixpoint allChars (P : ascii → Prop) (s : string) : Prop :=
  match s with
  | EmptyString => True
  | String c s' => P c ∧ allChars P s'
  end.

End Cache.

(** ** The async task queue *)

Module Tasks.

(** [task.status] *)
Inductive Status := fetching | ready | error.

Global Instance Status_eq_dec : EqDecision Status.
Proof. solve_decision. Defined.

(** The live document, as far as the scheduler sees it: an element that
    still carries a placeholder id, or markup that was assigned to the
    [outerHTML] of a former placeholder (or was there from the start). *)
Inductive Element :=
| Placeholder (id : string)
| Html (markup : string).

Global Instance Element_eq_dec : EqDecision Element.
Proof. solve_decision. Defined.

Definition Document := list Element.

Definition hasId (id : string) (e : Element) : Prop :=
  match e with Placeholder i => i = id | Html _ => False end.

Global Instance hasId_dec id e : Decision (hasId id e).
Proof. destruct e; simpl; apply _. Defined.

(** [document.getElementById(id)]: the position of the first element with
    that id. *)
Definition getElementById (id : string) (doc : Document) : option nat :=
  fst <$> list_find (hasId id) doc.

(** [placeholder.outerHTML = markup] *)
Definition setOuterHTML (i : nat) (markup : string) (doc : Document) : Document :=
  <[i := Html markup]> doc.

(** [if (placeholder) placeholder.outerHTML = markup] *)
Definition replacePlaceholder (id markup : string) (d : Document) : Document :=
  match getElementById id d with
  | Some i => setOuterHTML i markup d
  | None => d
  end.

(** [{ ...data, id: placeholderId }]: the fields the three callbacks read. *)
Record TaskData := mkData {
  data_id : string;
  data_code : option string;
  data_src : option string;
  data_originalTag : option string;
  data_svgContent : option string;
}.

(** A callback runs against the live document and either resolves or
    rejects; the callbacks of the three passes reject only with the
    [TypeError] that their own [catch] clause runs into. *)
Definition Callback := TaskData → Document → Document * Js.result unit.

Record Task := mkTask {
  task_id : string;
  task_callback : Callback;
  task_data : TaskData;
  task_type : string;
  task_status : Status;
  task_error : option Js.Error;
}.

(** [task.setReady()] *)
Definition setReady (t : Task) : Task :=
  mkTask (task_id t) (task_callback t) (task_data t) (task_type t) ready (task_error t).

(** [task.setError(error)] *)
Definition setError (e : Js.Error) (t : Task) : Task :=
  mkTask (task_id t) (task_callback t) (task_data t) (task_type t) error (Some e).

(** [task.data.svgContent = content] *)
Definition setSvgContent (content : option string) (t : Task) : Task :=
  let d := task_data t in
  mkTask (task_id t) (task_callback t)
    (mkData (data_id d) (data_code d) (data_src d) (data_originalTag d) content)
    (task_type t) (task_status t) (task_error t).

(** The two module-level variables [asyncTaskQueue] and
    [asyncTaskIdCounter]. *)
Record Registry := mkRegistry {
  asyncTaskQueue : list Task;
  asyncTaskIdCounter : nat;
}.

Definition emptyRegistry : Registry := mkRegistry [] 0.

(** [generateAsyncId()]: pre-increments the counter. *)
Definition generateAsyncId (r : Registry) : string * Registry :=
  let n := S (asyncTaskIdCounter r) in
  ("async-placeholder-" +:+ pretty n, mkRegistry (asyncTaskQueue r) n).

Section WithPlatform.
Context `{Platform}.

(** [createAsyncPlaceholder(id, type, description)] *)
Definition typeLabelKeys (type : string) : option string :=
  if decide (type = "mermaid") then Some "async_placeholder_type_mermaid"
  else if decide (type = "html") then Some "async_placeholder_type_html"
  else if decide (type = "svg") then Some "async_placeholder_type_svg"
  else None.

Definition typeLabelFallbacks (type : string) : string :=
  if decide (type = "mermaid") then "Mermaid diagram"
  else if decide (type = "html") then "HTML chart"
  else if decide (type = "svg") then "SVG image"
  else EmptyString.

Definition createAsyncPlaceholder (id type description : string) : string :=
  let typeLabel :=
    match typeLabelKeys type with
    | Some key => translate key []
    | None => EmptyString
    end in
  let resolvedTypeLabel :=
    Js.or_else typeLabel (Js.or_else (typeLabelFallbacks type) type) in
  let descriptionSuffix :=
    if Js.truthy description then ": " +:+ description else EmptyString in
  let processingText :=
    Js.or_else
      (translate "async_processing_message" [resolvedTypeLabel; descriptionSuffix])
      ("Processing " +:+ resolvedTypeLabel +:+ descriptionSuffix +:+ "...") in
  if decide (type = "svg") then
    "<span id=" +:+ Js.quoted id +:+ " class=" +:+
    Js.quoted ("async-placeholder " +:+ type +:+ "-placeholder inline-placeholder") +:+ ">
      <span class=" +:+ Js.quoted "async-loading" +:+ ">
        <span class=" +:+ Js.quoted "async-spinner" +:+ "></span>
        <span class=" +:+ Js.quoted "async-text" +:+ ">" +:+ processingText +:+ "</span>
      </span>
    </span>"
  else
    "<div id=" +:+ Js.quoted id +:+ " class=" +:+
    Js.quoted ("async-placeholder " +:+ type +:+ "-placeholder") +:+ ">
    <div class=" +:+ Js.quoted "async-loading" +:+ ">
      <div class=" +:+ Js.quoted "async-spinner" +:+ "></div>
      <div class=" +:+ Js.quoted "async-text" +:+ ">" +:+ processingText +:+ "</div>
    </div>
  </div>".

(** [asyncTask(callback, data, type, description, initialStatus)]: creates
    the task, pushes it on the queue and returns it with the placeholder
    markup. [data] is given without its [id], which is filled in here. *)
Record AsyncTaskResult := mkResult {
  result_task : Task;
  result_placeholder : string;   (* [placeholder.value], a node of type 'html' *)
}.

Definition asyncTask (callback : Callback) (data : TaskData)
    (type description : string) (initialStatus : Status) (r : Registry)
    : AsyncTaskResult * Registry :=
  let '(placeholderId, r1) := generateAsyncId r in
  let task :=
    mkTask placeholderId callback
      (mkData placeholderId (data_code data) (data_src data)
         (data_originalTag data) (data_svgContent data))
      type initialStatus None in
  (mkResult task (createAsyncPlaceholder placeholderId type description),
   mkRegistry (asyncTaskQueue r1 ++ [task]) (asyncTaskIdCounter r1)).

End WithPlatform.

(** [escapeHtml(text)]: five global replacements, in the source's order. *)
Definition escapeHtml (text : string) : string :=
  Js.replaceAll "'"%char "&#039;"
    (Js.replaceAll (ascii_of_nat 34) "&quot;"
      (Js.replaceAll ">"%char "&gt;"
        (Js.replaceAll "<"%char "&lt;"
          (Js.replaceAll "&"%char "&amp;" text)))).

(** The red-bordered block that replaces a placeholder whose task failed. *)
Definition errorBlock (body : string) : string :=
  "<pre style=" +:+
  Js.quoted "background: #fee; border-left: 4px solid #f00; padding: 10px; font-size: 12px;"
  +:+ ">" +:+ body +:+ "</pre>".

End Tasks.

(** ** The scheduler: [processAsyncTasks] *)

Module Scheduler.
Import Tasks.

(** The completion of an out-of-band fetch, as the promise handlers of
    [processSvgImages] apply it to the task they hold. *)
Inductive Arrival :=
| FetchOk (id : string) (content : option string)
| FetchFailed (id : string) (e : Js.Error).

Definition arrival_id (a : Arrival) : string :=
  match a with FetchOk id _ => id | FetchFailed id _ => id end.

(** [.then(content => { task.data.svgContent = content; task.setReady() })]
    and [.catch(error => task.setError(error))]. *)
Definition settle (a : Arrival) (t : Task) : Task :=
  match a with
  | FetchOk _ content => setReady (setSvgContent content t)
  | FetchFailed _ e => setError e t
  end.

Definition deliver (a : Arrival) (q : list Task) : list Task :=
  (λ t, if decide (task_id t = arrival_id a) then settle a t else t) <$> q.

Definition deliverAll (arrivals : list Arrival) (q : list Task) : list Task :=
  foldl (λ q a, deliver a q) q arrivals.

(** What a batch of completions does to one task. *)
Definition settleBy (arrivals : list Arrival) (t : Task) : Task :=
  foldl (λ t a, if decide (task_id t = arrival_id a) then settle a t else t) t arrivals.

(** What happens while the loop is suspended for the n-th time. *)
Definition Environment := nat → list Arrival.

(** Every task of [q] that is still fetching at time [c] has its fetch
    completed during some suspension before time [T]. *)
Definition eventuallySettled (E : Environment) (T c : nat) (q : list Task) : Prop :=
  Forall (λ t, task_status t = fetching →
               Exists (λ n, Exists (λ a, arrival_id a = task_id t) (E n)) (seq c (T - c))) q.

Global Instance eventuallySettled_dec E T c q : Decision (eventuallySettled E T c q).
Proof. unfold eventuallySettled; apply _. Defined.

(** The queue, the live document, the progress indicator, the two locals
    of [processAsyncTasks], and the number of suspensions so far. *)
Record State := mkState {
  queue : list Task;
  doc : Document;
  completedTasks : nat;
  totalTasks : nat;
  progress : option (nat * nat);   (* arguments of the last [updateProgress] *)
  indicatorVisible : bool;
  clock : nat;
}.

Definition withQueue (q : list Task) (s : State) : State :=
  mkState q (doc s) (completedTasks s) (totalTasks s) (progress s)
    (indicatorVisible s) (clock s).

Definition withDoc (d : Document) (s : State) : State :=
  mkState (queue s) d (completedTasks s) (totalTasks s) (progress s)
    (indicatorVisible s) (clock s).

(** An [await]: pending completions are applied, time advances. *)
Definition suspend (E : Environment) (s : State) : State :=
  mkState (deliverAll (E (clock s)) (queue s)) (doc s) (completedTasks s)
    (totalTasks s) (progress s) (indicatorVisible s) (S (clock s)).

(** [completedTasks++; updateProgress(completedTasks, totalTasks)] *)
Definition countCompleted (s : State) : State :=
  mkState (queue s) (doc s) (S (completedTasks s)) (totalTasks s)
    (Some (S (completedTasks s), totalTasks s)) (indicatorVisible s) (clock s).

Definition hideProcessingIndicator (s : State) : State :=
  mkState (queue s) (doc s) (completedTasks s) (totalTasks s) (progress s)
    false (clock s).

(** [task.status === 'ready' || task.status === 'error'] *)
Definition drainable (t : Task) : Prop :=
  task_status t = ready ∨ task_status t = error.

Global Instance drainable_dec t : Decision (drainable t).
Proof. unfold drainable; apply _. Defined.

Section WithPlatform.
Context `{Platform}.

(** The report spliced in for a task whose status is 'error'. *)
Definition errorStatusReport (t : Task) : string :=
  let unknownError := translate "async_unknown_error" [] in
  let errorDetail :=
    escapeHtml
      (Js.or_else
         (match task_error t with Some e => Js.message e | None => EmptyString end)
         unknownError) in
  errorBlock (translate "async_processing_error" [errorDetail]).

(** The report spliced in by the [catch] clause of the drain loop. *)
Definition caughtErrorReport (e : Js.Error) : string :=
  let errorDetail := escapeHtml (Js.or_else (Js.message e) EmptyString) in
  errorBlock (translate "async_task_processing_error" [errorDetail]).

(** The body of the [try] block, up to [completedTasks++]. *)
Definition drainBody (E : Environment) (t : Task) (s : State) : State * Js.result unit :=
  match task_status t with
  | error => (withDoc (replacePlaceholder (task_id t) (errorStatusReport t) (doc s)) s, Js.Ok ())
  | _ =>
      let '(d, r) := task_callback t (task_data t) (doc s) in
      (suspend E (withDoc d s), r)
  end.

(** One turn of the [while] loop. *)
Inductive Turn :=
| Drained (t : Task) (s : State)
| Waited (s : State)
| Broke.

Definition iteration (E : Environment) (s : State) : Turn :=
  match list_find drainable (queue s) with
  | Some (readyTaskIndex, task) =>
      let s1 := withQueue (delete readyTaskIndex (queue s)) s in
      let '(s2, r) := drainBody E task s1 in
      match r with
      | Js.Ok _ => Drained task (countCompleted s2)
      | Js.Throw e =>
          let d := replacePlaceholder (task_id task) (caughtErrorReport e) (doc s2) in
          Drained task (countCompleted (withDoc d s2))
      end
  | None =>
      match filter (λ t, task_status t = fetching) (queue s) with
      | [] => Broke
      | _ => Waited (suspend E s)
      end
  end.

(** [while (asyncTaskQueue.length > 0) { ... }] *)
Fixpoint drainLoop (fuel : nat) (E : Environment) (s : State) : option State :=
  match fuel with
  | 0 => None
  | S fuel' =>
      match queue s with
      | [] => Some s
      | _ =>
          match iteration E s with
          | Drained _ s' => drainLoop fuel' E s'
          | Waited s' => drainLoop fuel' E s'
          | Broke => Some s
          end
      end
  end.

(** [processAsyncTasks()], started on queue [q] and document [d] with the
    indicator hidden. *)
Definition initialState (q : list Task) (d : Document) : State :=
  mkState q d 0 0 None false 0.

Definition processAsyncTasks (fuel : nat) (E : Environment) (s : State) : option State :=
  match queue s with
  | [] => Some s
  | _ =>
      let totalTasks := length (queue s) in
      let s0 :=
        mkState (queue s) (doc s) 0 totalTasks (Some (0, totalTasks)) true (clock s) in
      hideProcessingIndicator <$> drainLoop fuel E s0
  end.

End WithPlatform.
End Scheduler.


(** ** The extraction plugins and their callbacks *)

Module Extraction.
Import Tasks Wire.

(** The markdown syntax tree, as far as the two plugins look at it. *)
Inductive MdNode :=
| MdParent (type : string) (children : list MdNode)
| MdCode (lang : option string) (value : string)
| MdHtml (value : string)
| MdLeaf (type : string) (value : string).

(** [Math.round(pngResult.width / 4)] *)
Definition displayWidth (width : Js.Number) : Js.Number :=
  Js.Math_round (Js.quarter width).

(** The image spliced in for a diagram, and for an HTML block. *)
Definition mermaidImage (png : PngResult) : string :=
  "<div class=" +:+ Js.quoted "mermaid-diagram" +:+ " style=" +:+
  Js.quoted "text-align: center; margin: 20px 0;" +:+ ">
                  <img src=" +:+ Js.quoted ("data:image/png;base64," +:+ png_base64 png) +:+
  " alt=" +:+ Js.quoted "Mermaid diagram" +:+ " width=" +:+
  Js.quoted (Js.numberToString (displayWidth (png_width png)) +:+ "px") +:+ " />
                </div>".

Definition htmlImage (renderedBase64 : string) (png : PngResult) : string :=
  "<div class=" +:+ Js.quoted "html-diagram" +:+ " style=" +:+
  Js.quoted "text-align: center; margin: 20px 0;" +:+ ">
                <img src=" +:+ Js.quoted ("data:image/png;base64," +:+ renderedBase64) +:+
  " alt=" +:+ Js.quoted "HTML diagram" +:+ " width=" +:+
  Js.quoted (Js.numberToString (displayWidth (png_width png)) +:+ "px") +:+ " />
              </div>".

(** [code.length > 500 ? code.slice(0, 500) + '...' : code] *)
Definition truncated (code : string) : string :=
  if (500 <? Js.length code)%nat then Js.slice0 500 code +:+ "..." else code.

Definition truthyOpt (o : option string) : bool :=
  match o with Some s => Js.truthy s | None => false end.

Section WithPlatform.
Context `{Platform}.

(** The callback registered for a Mermaid code block. Reading
    [pngResult.width] of a missing result throws, which the callback's own
    [catch] reports; the [catch] clause itself throws when it reads the
    [message] of [null] or [undefined]. *)
Definition mermaidErrorReport (message : string) : string :=
  let errorDetail := escapeHtml message in
  errorBlock
    (Js.or_else (translate "async_mermaid_error" [errorDetail])
       ("Mermaid error: " +:+ errorDetail)).

Definition mermaidCallback : Callback :=
  λ data d,
    let id := data_id data in
    let code := default EmptyString (data_code data) in
    let attempt : Js.settled Document :=
      match renderMermaidToPng code with
      | Js.RejectedWith v => Js.RejectedWith v
      | Js.Fulfilled pngResult =>
          match getElementById id d with
          | None => Js.Fulfilled d
          | Some i =>
              match pngResult with
              | Some png => Js.Fulfilled (setOuterHTML i (mermaidImage png) d)
              | None =>
                  Js.RejectedWith
                    (Js.ThrownError
                       (Js.mkError "Cannot read properties of undefined (reading 'width')"))
              end
          end
      end in
    match attempt with
    | Js.Fulfilled d' => (d', Js.Ok ())
    | Js.RejectedWith v =>
        match getElementById id d with
        | None => (d, Js.Ok ())
        | Some i =>
            match Js.messageOf v with
            | Js.Ok message =>
                (setOuterHTML i (mermaidErrorReport (default EmptyString message)) d,
                 Js.Ok ())
            | Js.Throw e => (d, Js.Throw e)
            end
        end
    end.

(** The callback registered for an HTML block. *)
Definition htmlErrorReport (reason code : string) : string :=
  let errorDetail := escapeHtml reason in
  let localizedError :=
    Js.or_else (translate "async_html_convert_error" [errorDetail])
      ("HTML conversion error: " +:+ errorDetail) in
  errorBlock (localizedError +:+ Js.nl +:+ Js.nl +:+ escapeHtml (truncated code)).

Definition htmlCallback : Callback :=
  λ data d,
    let id := data_id data in
    let code := default EmptyString (data_code data) in
    match renderHtmlToPng code with
    | Js.Fulfilled pngResult =>
        match getElementById id d with
        | None => (d, Js.Ok ())
        | Some i =>
            let renderedBase64 :=
              match pngResult with
              | Some png =>
                  if Js.truthy (png_base64 png) then Js.trim (png_base64 png)
                  else EmptyString
              | None => EmptyString
              end in
            let isLikelyPng := Js.startsWith renderedBase64 "iVBOR" in
            let resultError := pngResult ≫= png_error in
            match pngResult with
            | Some png =>
                if truthyOpt resultError || negb (Js.truthy renderedBase64)
                   || negb isLikelyPng
                then
                  let fallbackReason :=
                    if truthyOpt resultError
                    then default EmptyString resultError
                    else if negb (Js.truthy renderedBase64)
                         then "Renderer returned empty image data"
                         else "Renderer returned invalid image data" in
                  (setOuterHTML i (htmlErrorReport fallbackReason code) d, Js.Ok ())
                else (setOuterHTML i (htmlImage renderedBase64 png) d, Js.Ok ())
            | None =>
                (setOuterHTML i
                   (htmlErrorReport "Renderer returned empty image data" code) d,
                 Js.Ok ())
            end
        end
    | Js.RejectedWith v =>
        match getElementById id d with
        | None => (d, Js.Ok ())
        | Some i =>
            match Js.messageOf v with
            | Js.Ok message =>
                (setOuterHTML i (htmlErrorReport (default EmptyString message) code) d,
                 Js.Ok ())
            | Js.Throw e => (d, Js.Throw e)
            end
        end
    end.

(** [remarkMermaidToPng]: what the visitor does to one 'code' node. *)
Definition mermaidVisitor (lang : option string) (value : string) (r : Registry)
    : MdNode * Registry :=
  if decide (lang = Some "mermaid") then
    let '(result, r') :=
      asyncTask mermaidCallback (mkData EmptyString (Some value) None None None)
        "mermaid" EmptyString ready r in
    (MdHtml (result_placeholder result), r')
  else (MdCode lang value, r).

(** The pattern of a block made of line breaks only: from start to end,
    one or more times [<br], white space, an optional [/], [>], then any run
    of white space and [&nbsp;]; letter case ignored. *)
Definition brOnly : Regex.Re :=
  Regex.seqs
    [Regex.Bol;
     Regex.Plus
       (Regex.seqs
          [Regex.litI "<br"; Regex.Star Regex.space; Regex.Opt (Regex.char "/");
           Regex.char ">"; Regex.Star (Regex.Alt Regex.space (Regex.litI "&nbsp;"))]);
     Regex.Eol].

(** [remarkHtmlToPng]: what the visitor does to one 'html' node, returning
    the node that now stands at its place; [None] only if the sanitizer's
    walk were cut short. *)
Definition htmlVisitor (value : string) (r : Registry) : option (MdNode * Registry) :=
  let htmlContent := Js.trim value in
  if negb (Js.truthy htmlContent) then Some (MdHtml value, r)
  else if Regex.test brOnly htmlContent then Some (MdHtml value, r)
  else
    sanitizedHtml ← Sanitizer.sanitizeRenderedHtml htmlContent;
    if negb (Js.truthy sanitizedHtml)
       || (String.length (Js.removeSpaces sanitizedHtml) <=? 0)%nat
    then Some (MdHtml value, r)
    else
      let '(result, r') :=
        asyncTask htmlCallback (mkData EmptyString (Some sanitizedHtml) None None None)
          "html" EmptyString ready r in
      Some (MdHtml (result_placeholder result), r').

(** [visit(tree, type, visitor)] for the two plugins: every node in
    document order; a node the visitor replaces is not visited again. *)
Fixpoint visit (onHtml : string → Registry → option (MdNode * Registry))
    (onCode : option string → string → Registry → MdNode * Registry)
    (n : MdNode) (r : Registry) : option (MdNode * Registry) :=
  match n with
  | MdHtml value => onHtml value r
  | MdCode lang value => Some (onCode lang value r)
  | MdLeaf _ _ => Some (n, r)
  | MdParent type children =>
      '(children', r') ←
        (fix go (l : list MdNode) (r : Registry) : option (list MdNode * Registry) :=
           match l with
           | [] => Some ([], r)
           | c :: l' =>
               '(c', r1) ← visit onHtml onCode c r;
               '(l'', r2) ← go l' r1;
               Some (c' :: l'', r2)
           end) children r;
      Some (MdParent type children', r')
  end.

(** The two plugins, in the order the pipeline runs them. *)
Definition remarkHtmlToPng (tree : MdNode) (r : Registry) : option (MdNode * Registry) :=
  visit htmlVisitor (λ lang value r, (MdCode lang value, r)) tree r.

Definition remarkMermaidToPng (tree : MdNode) (r : Registry) : option (MdNode * Registry) :=
  visit (λ value r, Some (MdHtml value, r)) mermaidVisitor tree r.

End WithPlatform.
End Extraction.

(** ** The post-stringification pass: [processSvgImages] *)

Module Svg.
Import Tasks Wire Regex Extraction.

(** The image-tag pattern, flags g and i: [<img], white space, characters
    other than [>], [src=] and a double quote, group 1 (characters other
    than a double quote, then [.svg]), a double quote, characters other than
    [>], and [>]. *)
Definition imgRegex : Re :=
  seqs
    [litI "<img"; Plus space; Star (notChar ">");
     litI "src="; char (ascii_of_nat 34);
     Group 1 (seqs [Plus (notChar (ascii_of_nat 34)); litI ".svg"]);
     char (ascii_of_nat 34); Star (notChar ">"); char ">"].

(** The two data-URL patterns, anchored at both ends: the base64 form
    [data:image/svg+xml;base64,] and the form with [;] or [,] after the
    media type; group 1 is the rest, on one line. *)
Definition dataBase64Regex : Re :=
  seqs [Bol; lit "data:image/svg+xml;base64,"; Group 1 (Plus anyChar); Eol].

Definition dataUrlRegex : Re :=
  seqs
    [Bol; lit "data:image/svg+xml";
     Chr (λ c, Ascii.eqb c ";" || Ascii.eqb c ",");
     Group 1 (Plus anyChar); Eol].

(** [{ fullMatch: match[0], src: match[1], index: match.index }] *)
Record SvgMatch := mkSvgMatch {
  svg_fullMatch : string;
  svg_src : string;
  svg_index : nat;
}.

Definition toSvgMatch (html : string) (m : Match) : SvgMatch :=
  mkSvgMatch (matched html m) (default EmptyString (group 1 html m)) (m_index m).

(** [while ((match = imgRegex.exec(html)) !== null) matches.push(...)],
    starting with [imgRegex.lastIndex = lastIndex]. *)
Fixpoint collectMatches (fuel : nat) (html : string) (lastIndex : nat)
    : option (list SvgMatch) :=
  match fuel with
  | 0 => None
  | S fuel' =>
      match exec imgRegex html lastIndex with
      | None => Some []
      | Some m =>
          rest ← collectMatches fuel' html (m_end m);
          Some (toSvgMatch html m :: rest)
      end
  end.

(** A fetch started for a task: a remote resource, or a local file read
    by the background page. *)
Inductive Fetch :=
| FetchRemote (taskId url : string)
| ReadLocalFile (taskId filePath : string).

(** What the pass mutates besides the markup: the task registry and the
    fetches in flight. *)
Definition World : Type := Registry * list Fetch.

(** The span spliced in for a rasterized vector image. *)
Definition svgImage (png : PngResult) : string :=
  "<span class=" +:+ Js.quoted "svg-diagram" +:+ " style=" +:+
  Js.quoted "text-align: center; margin: 20px 0;" +:+ ">
            <img src=" +:+ Js.quoted ("data:image/png;base64," +:+ png_base64 png) +:+
  " alt=" +:+ Js.quoted "SVG diagram" +:+ " width=" +:+
  Js.quoted (Js.numberToString (displayWidth (png_width png)) +:+ "px") +:+ " />
          </span>".

Definition svgErrorReport (src : string) (e : Js.Error) : string :=
  errorBlock
    ("SVG Error: Cannot load file " +:+ Js.quoted (escapeHtml src) +:+ " - "
     +:+ escapeHtml (Js.message e)).

Section WithPlatform.
Context `{Platform}.

(** The callback registered for a vector image. Its [catch] clause
    passes [error.message] to [escapeHtml] as it is, which throws on
    [undefined]. *)
Definition svgCallback : Callback :=
  λ data d,
    let id := data_id data in
    let src := default EmptyString (data_src data) in
    let attempt : Js.settled Document :=
      if truthyOpt (data_svgContent data) then
        match renderSvgToPng (default EmptyString (data_svgContent data)) with
        | Js.RejectedWith v => Js.RejectedWith v
        | Js.Fulfilled pngResult =>
            match getElementById id d with
            | None => Js.Fulfilled d
            | Some i =>
                match pngResult with
                | Some png => Js.Fulfilled (setOuterHTML i (svgImage png) d)
                | None =>
                    Js.RejectedWith
                      (Js.ThrownError
                         (Js.mkError "Cannot read properties of undefined (reading 'width')"))
                end
            end
        end
      else Js.RejectedWith (Js.ThrownError (Js.mkError "No SVG content available")) in
    match attempt with
    | Js.Fulfilled d' => (d', Js.Ok ())
    | Js.RejectedWith v =>
        match getElementById id d with
        | None => (d, Js.Ok ())
        | Some i =>
            match Js.messageOf v with
            | Js.Ok (Some message) =>
                (setOuterHTML i (svgErrorReport src (Js.mkError message)) d, Js.Ok ())
            | Js.Ok None =>
                (d, Js.Throw
                      (Js.mkError "Cannot read properties of undefined (reading 'replace')"))
            | Js.Throw e => (d, Js.Throw e)
            end
        end
    end.

(** [initialSvgContent]: decoded at once for a [data:] URL in one of the
    two known encodings, [null] otherwise. *)
Definition initialSvgContent (src : string) : Js.result (option string) :=
  if Js.startsWith src "data:" then
    match exec dataBase64Regex src 0 with
    | Some base64Match =>
        content ←ᵣ atob (default EmptyString (group 1 src base64Match));;
        Js.Ok (Some content)
    | None =>
        match exec dataUrlRegex src 0 with
        | Some urlMatch =>
            content ←ᵣ decodeURIComponent (default EmptyString (group 1 src urlMatch));;
            Js.Ok (Some content)
        | None => Js.Ok None
        end
    end
  else Js.Ok None.

(** [src.startsWith('data:') ? 'ready' : 'fetching'] *)
Definition initialStatus (src : string) : Status :=
  if Js.startsWith src "data:" then ready else fetching.

(** The fetch started right after registration, for a fetching task. *)
Definition startFetch (id src : string) : Js.result (list Fetch) :=
  match initialStatus src with
  | fetching =>
      if Js.startsWith src "http://" || Js.startsWith src "https://"
      then Js.Ok [FetchRemote id src]
      else
        absoluteUrl ←ᵣ resolveUrl src;;
        Js.Ok [ReadLocalFile id absoluteUrl]
  | _ => Js.Ok []
  end.

(** One turn of the [for] loop, on the markup as it stands. An exception
    leaves the world as it was when it was thrown. *)
Definition processMatch (m : SvgMatch) (html : string) (w : World)
    : World * Js.result string :=
  let src := svg_src m in
  let fileName := Js.lastSegment src in
  match initialSvgContent src with
  | Js.Throw e => (w, Js.Throw e)
  | Js.Ok content =>
      let '(result, r') :=
        asyncTask svgCallback
          (mkData EmptyString None (Some src) (Some (svg_fullMatch m)) content)
          "svg" fileName (initialStatus src) w.1 in
      match startFetch (task_id (result_task result)) src with
      | Js.Throw e => ((r', w.2), Js.Throw e)
      | Js.Ok fetches =>
          ((r', w.2 ++ fetches),
           Js.Ok (takeS (svg_index m) html +:+ result_placeholder result +:+
                  dropS (svg_index m + String.length (svg_fullMatch m)) html))
      end
  end.

(** [for (let i = matches.length - 1; i >= 0; i--)]: the last match is
    handled first. *)
Fixpoint replaceMatches (matches : list SvgMatch) (html : string) (w : World)
    : World * Js.result string :=
  match matches with
  | [] => (w, Js.Ok html)
  | m :: later =>
      match replaceMatches later html w with
      | (w1, Js.Ok html1) => processMatch m html1 w1
      | (w1, Js.Throw e) => (w1, Js.Throw e)
      end
  end.

(** [processSvgImages(html, renderer)]; [None] only if the collecting
    loop were cut short. *)
Definition processSvgImages (html : string) (w : World)
    : option (World * Js.result string) :=
  matches ← collectMatches (S (String.length html)) html 0;
  Some (replaceMatches matches html w).

(** Nothing throws while the match is handled: the inline content
    decodes and the local path resolves. *)
Definition prepares (m : SvgMatch) : Prop :=
  (∃ content, initialSvgContent (svg_src m) = Js.Ok content) ∧
  (∀ id, ∃ fetches, startFetch id (svg_src m) = Js.Ok fetches).

End WithPlatform.

(** Markup with the spans [(from, to)] of [spans] cut out and [fills] put
    in their place, read from offset [start] on. *)
Fixpoint splice (start : nat) (html : string) (spans : list (nat * nat))
    (fills : list string) : string :=
  match spans, fills with
  | (from, to) :: spans', fill :: fills' =>
      substring start from html +:+ fill +:+ splice to html spans' fills'
  | _, _ => dropS start html
  end.

(** The span of a match, and what it takes for spans to follow each other
    inside the markup. *)
Definition spanOf (m : SvgMatch) : nat * nat :=
  (svg_index m, svg_index m + String.length (svg_fullMatch m)).

Fixpoint inOrder (start : nat) (len : nat) (spans : list (nat * nat)) : Prop :=
  match spans with
  | [] => start ≤ len
  | (from, to) :: spans' => start ≤ from ∧ from < to ∧ inOrder to len spans'
  end.

End Svg.

(** ** The earlier content script

    The version of the extraction pass that precedes sanitization and task
    statuses: tasks are [{ callback, data }] pairs, drained front to back. *)

Module Legacy.
Import Tasks Extraction.

Record LegacyTask := mkLegacyTask {
  legacy_callback : Callback;
  legacy_data : TaskData;
}.

Record LegacyRegistry := mkLegacyRegistry {
  legacyQueue : list LegacyTask;
  legacyIdCounter : nat;
}.

Definition typeLabels (type : string) : string :=
  if decide (type = "mermaid") then "Mermaid 图表"
  else if decide (type = "html") then "HTML 图表"
  else if decide (type = "svg") then "SVG 图像"
  else EmptyString.

(** [createAsyncPlaceholder(id, type, description)] *)
Definition createAsyncPlaceholder (id type description : string) : string :=
  "<div id=" +:+ Js.quoted id +:+ " class=" +:+
  Js.quoted ("async-placeholder " +:+ type +:+ "-placeholder") +:+ ">
    <div class=" +:+ Js.quoted "async-loading" +:+ ">
      <div class=" +:+ Js.quoted "async-spinner" +:+ "></div>
      <div class=" +:+ Js.quoted "async-text" +:+ ">正在处理 " +:+
  Js.or_else (typeLabels type) type +:+
  (if Js.truthy description then ": " +:+ description else EmptyString) +:+ "...</div>
    </div>
  </div>".

(** [asyncTask(callback, data, type, description)]: returns the
    placeholder markup of the 'html' node that replaces the original. *)
Definition asyncTask (callback : Callback) (data : TaskData)
    (type description : string) (r : LegacyRegistry) : string * LegacyRegistry :=
  let n := S (legacyIdCounter r) in
  let placeholderId := "async-placeholder-" +:+ pretty n in
  let task :=
    mkLegacyTask callback
      (mkData placeholderId (data_code data) (data_src data)
         (data_originalTag data) (data_svgContent data)) in
  (createAsyncPlaceholder placeholderId type description,
   mkLegacyRegistry (legacyQueue r ++ [task]) n).

(** The test of a significant HTML block. *)
Definition isSignificant (htmlContent : string) : bool :=
  (Js.startsWith htmlContent "<div" || Js.startsWith htmlContent "<table"
   || Js.startsWith htmlContent "<svg")
  && (100 <? Js.length htmlContent)%nat.

Section WithRenderer.
(** The earlier backend resolves to the base64 text itself. *)
Variable renderHtmlToPng : string → Js.settled string.

Definition htmlCallback : Callback :=
  λ data d,
    let id := data_id data in
    let code := default EmptyString (data_code data) in
    match renderHtmlToPng code with
    | Js.Fulfilled pngBase64 =>
        (replacePlaceholder id
           ("<div class=" +:+ Js.quoted "html-diagram" +:+ " style=" +:+
            Js.quoted "text-align: center; margin: 20px 0;" +:+ ">
                  <img src=" +:+ Js.quoted ("data:image/png;base64," +:+ pngBase64) +:+
            " alt=" +:+ Js.quoted "HTML diagram" +:+ " style=" +:+
            Js.quoted "max-width: 100%; height: auto;" +:+ " />
                </div>") d,
         Js.Ok ())
    | Js.RejectedWith v =>
        match getElementById id d with
        | None => (d, Js.Ok ())
        | Some i =>
            match Js.messageOf v with
            | Js.Ok (Some message) =>
                (setOuterHTML i (errorBlock ("HTML转换错误: " +:+ escapeHtml message)) d,
                 Js.Ok ())
            | Js.Ok None =>
                (d, Js.Throw
                      (Js.mkError "Cannot read properties of undefined (reading 'replace')"))
            | Js.Throw e => (d, Js.Throw e)
            end
        end
    end.

(** What the visitor of [remarkHtmlToPng] does to one 'html' node. *)
Definition htmlVisitor (value : string) (r : LegacyRegistry) : MdNode * LegacyRegistry :=
  let htmlContent := Js.trim value in
  if isSignificant htmlContent then
    let '(placeholder, r') :=
      asyncTask htmlCallback (mkData EmptyString (Some value) None None None)
        "html" EmptyString r in
    (MdHtml placeholder, r')
  else (MdHtml value, r).

End WithRenderer.
End Legacy.

(** ** Sample inputs used by the examples below *)

Module Samples.
Import Tasks Scheduler.

(** A localization table that echoes the key and its substitutions. *)
Definition echoTranslate (key : string) (substitutions : list string) : string :=
  key +:+ "(" +:+ String.concat "," substitutions +:+ ")".

(** Backends that answer with a fixed 800x600 image, a URL parser that
    only knows absolute http and https URLs, and a cache that never
    answers. *)
Definition samplePng : Wire.PngResult :=
  Wire.mkPng "iVBORw0KGgo=" (Js.Finite 800) (Js.Finite 600) None.

Definition sampleProtocol (url : string) : option string :=
  if Js.startsWith url "https:" then Some "https:"
  else if Js.startsWith url "http:" then Some "http:"
  else None.

(** A plain serializer: start tag without attributes, children, end tag;
    text as it is. *)
Fixpoint sampleSerialize (n : Dom.Node) : string :=
  match n with
  | Dom.Element tag _ children =>
      "<" +:+ tag +:+ ">" +:+
      (fix go (l : list Dom.Node) : string :=
         match l with [] => EmptyString | c :: l' => sampleSerialize c +:+ go l' end)
        children
      +:+ "</" +:+ tag +:+ ">"
  | Dom.Text data => data
  | Dom.Comment data => "<!--" +:+ data +:+ "-->"
  end.

Definition sampleInnerHTML (n : Dom.Node) : string :=
  String.concat EmptyString (sampleSerialize <$> Dom.childNodes n).

(** A background page whose storage reports an error on every request. *)
Definition quotaExceeded : Wire.CacheRequest → Wire.Reply :=
  λ _, Wire.Replied (Wire.mkResponse (Some "QuotaExceededError") None None).

Definition platformWith (send : Wire.CacheRequest → Wire.Reply)
    (digest : list Byte.byte → list Byte.byte) : Platform := {|
  translate := echoTranslate;
  urlProtocol := sampleProtocol;
  outerHTML := λ n, match n with Dom.Element t _ _ => "<" +:+ t +:+ ">" | _ => EmptyString end;
  parseHtml := λ html, Js.Ok (Dom.fragment [Dom.Text html]);
  serializeHtml := λ n, Js.Ok (sampleInnerHTML n);
  sha256 := digest;
  sendMessage := send;
  renderMermaidToPng := λ _, Js.Fulfilled (Some samplePng);
  renderHtmlToPng := λ _, Js.Fulfilled (Some samplePng);
  renderSvgToPng := λ _, Js.Fulfilled (Some samplePng);
  atob := λ s, Js.Ok s;
  decodeURIComponent := λ s, Js.Ok s;
  resolveUrl := λ s, Js.Ok ("file:///docs/" +:+ s);
|}.

Definition samplePlatform : Platform := {|
  translate := echoTranslate;
  urlProtocol := sampleProtocol;
  outerHTML := λ n, match n with Dom.Element t _ _ => "<" +:+ t +:+ ">" | _ => EmptyString end;
  parseHtml := λ html, Js.Ok (Dom.fragment [Dom.Text html]);
  serializeHtml := λ n, Js.Ok (sampleInnerHTML n);
  sha256 := λ data, data;
  sendMessage := λ _, Wire.NoResponse;
  renderMermaidToPng := λ _, Js.Fulfilled (Some samplePng);
  renderHtmlToPng := λ _, Js.Fulfilled (Some samplePng);
  renderSvgToPng := λ _, Js.Fulfilled (Some samplePng);
  atob := λ s, Js.Ok s;
  decodeURIComponent := λ s, Js.Ok s;
  resolveUrl := λ s, Js.Ok ("file:///docs/" +:+ s);
|}.

(** An element's attributes: an event handler, a script link, an unsafe
    source, a harmless class and an embedded PDF poster. *)
Definition sampleAttributes : list Dom.Attr :=
  [Dom.mkAttr "onclick" "steal()";
   Dom.mkAttr "href" "javascript:alert(1)";
   Dom.mkAttr "src" "vbscript:msgbox(1)";
   Dom.mkAttr "class" "note";
   Dom.mkAttr "poster" "data:application/pdf;base64,AA"].

(** A fragment with a comment, a paragraph holding a script, and an
    iframe; and what the sanitizer makes of it. *)
Definition sampleTree : Dom.Node :=
  Dom.fragment
    [Dom.Comment "draft";
     Dom.Element "p" [Dom.mkAttr "onclick" "steal()"; Dom.mkAttr "class" "note"]
       [Dom.Text "hello"; Dom.Element "script" [] [Dom.Text "alert(1)"]];
     Dom.Element "IFRAME" [] []].

Definition sampleNotice (tag markup : string) : Dom.Node :=
  Dom.Element "pre"
    [Dom.mkAttr "class" "blocked-html-warning";
     Dom.mkAttr "style"
       "background: #fee; border-left: 4px solid #f00; padding: 10px; font-size: 12px; white-space: pre-wrap;"]
    [Dom.Text ("Blocked insecure <" +:+ tag +:+ "> element removed." +:+ Js.nl +:+ Js.nl +:+ markup)].

Definition sampleTreeSanitized : Dom.Node :=
  Dom.fragment
    [Dom.Element "p" [Dom.mkAttr "class" "note"]
       [Dom.Text "hello"; sampleNotice "script" "<script>"];
     sampleNotice "iframe" "<IFRAME>"].

(** Markup with two vector images, a local one and a remote one; and
    markup with an inline image in an unknown encoding. *)
Definition twoImages : string :=
  "<p><img src=" +:+ Js.quoted "a/logo.svg" +:+ "> and <IMG alt=" +:+ Js.quoted "x"
  +:+ " SRC=" +:+ Js.quoted "https://h/b.SVG" +:+ " /></p>".

Definition unknownEncoding : string :=
  "<img src=" +:+ Js.quoted "data:text/plain,hello.svg" +:+ ">".

(** A callback that splices an image in, and one that rejects. *)
Definition imageCallback : Callback :=
  λ data d, (replacePlaceholder (data_id data) "<img>" d, Js.Ok ()).

Definition failingCallback : Callback :=
  λ data d, (d, Js.Throw (Js.mkError "render failed")).

Definition sampleTask (n : nat) (cb : Callback) (st : Status) : Task :=
  let id := "async-placeholder-" +:+ pretty n in
  mkTask id cb (mkData id (Some "graph TD") None None None) "mermaid" st None.

(** A fetching task enqueued before a ready one. *)
Definition fetchingThenReady : list Task :=
  [sampleTask 1 imageCallback fetching; sampleTask 2 imageCallback ready].

(** Five ready tasks; the callback of the third one throws. *)
Definition fiveTasks : list Task :=
  [sampleTask 1 imageCallback ready; sampleTask 2 imageCallback ready;
   sampleTask 3 failingCallback ready; sampleTask 4 imageCallback ready;
   sampleTask 5 imageCallback ready].

Definition fiveDoc : Document :=
  (λ t, Placeholder (task_id t)) <$> fiveTasks.

Definition noArrivals : Environment := λ _, [].

(** The first task's fetch fails during the third suspension. *)
Definition lateFailure : Environment :=
  λ n, if decide (n = 2) then [FetchFailed "async-placeholder-1" (Js.mkError "HTTP 404: Not Found")] else [].

End Samples.

(** ** Escaping, character by character *)

Module Escape.

(** What [escapeHtml] writes for one character. *)
Definition entity (c : ascii) : string :=
  if Ascii.eqb c "&" then "&amp;"
  else if Ascii.eqb c "<" then "&lt;"
  else if Ascii.eqb c ">" then "&gt;"
  else if Ascii.eqb c "034" then "&quot;"
  else if Ascii.eqb c "'" then "&#039;"
  else String c EmptyString.

(** The text with each character written as its entity. *)
Fixpoint escaped (s : string) : string :=
  match s with
  | EmptyString => EmptyString
  | String c s' => entity c +:+ escaped s'
  end.

(** The characters that open or close a tag or an attribute value. *)
Definition markupChars : list ascii :=
  ["<"; ">"; "034"; "'"]%char.

(** [c] occurs in [s]. *)
Fixpoint occurs (c : ascii) (s : string) : Prop :=
  match s with
  | EmptyString => False
  | String d s' => c = d ∨ occurs c s'
  end.

End Escape.

(** ** Trees as the HTML parser builds them *)

Module DomShape.
Import Dom.

(** No element of the tree carries two attributes of the same name. *)
Fixpoint distinctAttributes (n : Node) : Prop :=
  match n with
  | Element _ attrs children =>
      NoDup (attr_name <$> attrs) ∧
      (fix go (l : list Node) : Prop :=
         match l with [] => True | c :: l' => distinctAttributes c ∧ go l' end) children
  | Text _ | Comment _ => True
  end.

End DomShape.

(** ** Registration of tasks by the three passes *)

Module Registration.
Import Tasks Extraction Svg.

(** The id [generateAsyncId] hands out when the counter reaches [n]. *)
Definition placeholderId (n : nat) : string := "async-placeholder-" +:+ pretty n.

(** The queue holds tasks numbered by the counter: no two share an id, and
    each carries in [data.id] the id it is registered under, which the
    counter has already passed. *)
Definition numbered (r : Registry) : Prop :=
  NoDup (task_id <$> asyncTaskQueue r) ∧
  Forall (λ t, data_id (task_data t) = task_id t ∧
               ∃ n, 1 ≤ n ≤ asyncTaskIdCounter r ∧ task_id t = placeholderId n)
    (asyncTaskQueue r).

(** What one registry is to an earlier one: the same queue with [tasks]
    pushed, the counter advanced by their number. *)
Definition extends (r : Registry) (tasks : list Task) (r' : Registry) : Prop :=
  r' = mkRegistry (asyncTaskQueue r ++ tasks) (asyncTaskIdCounter r + length tasks).

(** The code of the Mermaid blocks of a tree, in document order. *)
Fixpoint mermaidCodes (n : MdNode) : list string :=
  match n with
  | MdCode lang value => if decide (lang = Some "mermaid") then [value] else []
  | MdParent _ children =>
      (fix go (l : list MdNode) : list string :=
         match l with [] => [] | c :: l' => mermaidCodes c ++ go l' end) children
  | MdHtml _ | MdLeaf _ _ => []
  end.

(** [visit] on the children of a parent: each child in turn, the registry
    threaded through. *)
Fixpoint visitChildren (onHtml : string → Registry → option (MdNode * Registry))
    (onCode : option string → string → Registry → MdNode * Registry)
    (l : list MdNode) (r : Registry) : option (list MdNode * Registry) :=
  match l with
  | [] => Some ([], r)
  | c :: l' =>
      '(c', r1) ← visit onHtml onCode c r;
      '(l'', r2) ← visitChildren onHtml onCode l' r1;
      Some (c' :: l'', r2)
  end.

Section WithPlatform.
Context `{Platform}.

(** A task as the Mermaid plugin registers it. *)
Definition mermaidTask (t : Task) : Prop :=
  task_status t = ready ∧ task_type t = "mermaid" ∧ task_callback t = mermaidCallback.

(** The Mermaid plugin turns [tree] into [tree'] on registry [r]. *)
Definition mermaidResult (tree : MdNode) (r : Registry) (tree' : MdNode) : Prop :=
  ∃ tasks r',
    remarkMermaidToPng tree r = Some (tree', r') ∧
    extends r tasks r' ∧
    (λ t, data_code (task_data t)) <$> tasks = Some <$> mermaidCodes tree ∧
    task_id <$> tasks =
      placeholderId <$> seq (S (asyncTaskIdCounter r)) (length tasks) ∧
    Forall mermaidTask tasks ∧
    mermaidCodes tree' = [] ∧
    (mermaidCodes tree = [] → tree' = tree).

(** A task as the image pass registers it for a match. *)
Definition svgTask (m : SvgMatch) (t : Task) : Prop :=
  task_type t = "svg" ∧ task_callback t = svgCallback ∧
  task_status t = initialStatus (svg_src m) ∧
  data_src (task_data t) = Some (svg_src m) ∧
  data_originalTag (task_data t) = Some (svg_fullMatch m).

End WithPlatform.
End Registration.

(** ** Global replacement with a callback *)

Module Replace.
Import Regex.

(** [input.replace(regex, replacer)] for a regex with the g flag: the
    matches are found one after the other from [lastIndex], a match that
    consumed nothing moving it one further; each match is replaced by what
    [replacer] returns for it, the text between the matches being copied. *)
Fixpoint replaceLoop (fuel : nat) (r : Re) (replacer : string → Match → string)
    (input : string) (lastIndex copied : nat) : option string :=
  match fuel with
  | 0 => None
  | S fuel' =>
      match exec r input lastIndex with
      | None => Some (dropS copied input)
      | Some m =>
          let next := if (m_end m =? m_index m)%nat then S (m_end m) else m_end m in
          rest ← replaceLoop fuel' r replacer input next (m_end m);
          Some (substring copied (m_index m) input +:+ replacer input m +:+ rest)
      end
  end.

Definition replace (r : Re) (replacer : string → Match → string) (input : string)
    : option string :=
  replaceLoop (S (S (String.length input))) r replacer input 0 0.

(** [\d] *)
Definition isDigit (c : ascii) : bool :=
  let n := nat_of_ascii c in (48 <=? n)%nat && (n <=? 57)%nat.

Definition digit : Re := Chr isDigit.

(** [parseInt(digits, 10)] for a string of decimal digits. *)
Definition parseInt (digits : string) : nat :=
  (fix go (acc : nat) (s : string) : nat :=
     match s with
     | EmptyString => acc
     | String c s' => go (10 * acc + (nat_of_ascii c - 48)) s'
     end) 0 digits.

End Replace.

(** ** The localization manager: [localization.js] *)

Module Localization.
Import Regex Replace.

Definition DEFAULT_SETTING_LOCALE : string := "auto".

(** One entry of a [messages.json], of which [message] is read. *)
Record Entry := mkEntry { entry_message : option string }.

(** A loaded [messages.json], read through [messages[key]]: [None] when
    the value is missing. *)
Definition Messages := string → option Entry.

(** The second argument of [translate]: left out, one string, or an
    array. *)
Inductive Substitutions :=
| Omitted
| One (s : string)
| Many (l : list string).

(** [!substitutions] *)
Definition omitted (substitutions : Substitutions) : bool :=
  match substitutions with
  | Omitted => true
  | One s => negb (Js.truthy s)
  | Many _ => false
  end.

(** [Array.isArray(substitutions) ? substitutions : [substitutions]] *)
Definition asList (substitutions : Substitutions) : list string :=
  match substitutions with
  | Omitted => []
  | One s => [s]
  | Many l => l
  end.

(** The answer to [fetch(url)]: [response.ok], [response.status] and what
    [response.json()] resolves to ([None] for [null]). *)
Record FetchResponse := mkFetchResponse {
  response_ok : bool;
  response_status : Z;
  response_json : Js.result (option Messages);
}.

(** What the browser provides: the stored [preferredLocale] (the storage
    area may be absent, the read may reject, the settings or the field may
    be missing), the address of an extension file, [fetch], and
    [chrome.i18n.getMessage] (absent in some contexts). *)
Class Browser := {
  storedPreferredLocale : option (Js.result (option (option string)));
  getURL : string → string;
  fetch : string → Js.result FetchResponse;
  getMessage : option (string → Substitutions → string);
}.

(** The fields of the [LocalizationManager]. *)
Record Manager := mkManager {
  messages : option Messages;
  locale : string;
  ready : bool;
  loadingPromise : bool;       (* [init] has been called *)
}.

(** [new LocalizationManager()] *)
Definition newManager : Manager := mkManager None DEFAULT_SETTING_LOCALE false false.

(** The placeholder pattern: an opening brace, group 1 (one or more
    digits), a closing brace; flag g. *)
Definition placeholder : Re :=
  seqs [char "{"; Group 1 (Plus digit); char "}"].

(** The replacer of [lookupMessage]. *)
Definition substitute (values : list string) (input : string) (m : Match) : string :=
  let idx := parseInt (default EmptyString (group 1 input m)) in
  match values !! idx with
  | Some s => s
  | None => matched input m
  end.

(** [lookupMessage(key, substitutions)]: [Some None] for [null]; [None]
    only if the replacement loop were cut short. *)
Definition lookupMessage (mgr : Manager) (key : string) (substitutions : Substitutions)
    : option (option string) :=
  match messages mgr with
  | None => Some None
  | Some msgs =>
      match msgs key with
      | None => Some None
      | Some entry =>
          let template := default EmptyString (entry_message entry) in
          if negb (Js.truthy template) then Some (Some EmptyString)
          else if omitted substitutions then Some (Some template)
          else Some <$> replace placeholder (substitute (asList substitutions)) template
      end
  end.

(** [Boolean(this.messages)] *)
Definition hasMessages (mgr : Manager) : bool :=
  match messages mgr with Some _ => true | None => false end.

Definition withReady (mgr : Manager) : Manager :=
  mkManager (messages mgr) (locale mgr) (hasMessages mgr) (loadingPromise mgr).

Definition withLocale (loc : string) (mgr : Manager) : Manager :=
  mkManager (messages mgr) loc (ready mgr) (loadingPromise mgr).

(** [getLocale()] *)
Definition getLocale (mgr : Manager) : string := locale mgr.

Section WithBrowser.
Context `{Browser}.

(** [translate(key, substitutions)] *)
Definition translate (mgr : Manager) (key : string) (substitutions : Substitutions)
    : option string :=
  if negb (Js.truthy key) then Some EmptyString
  else
    value ← lookupMessage mgr key substitutions;
    match value with
    | Some s => Some s
    | None =>
        match getMessage with
        | Some get => Some (Js.or_else (get key substitutions) EmptyString)
        | None => Some EmptyString
        end
    end.

(** [getStorageSettings()] followed by [?.preferredLocale] *)
Definition getStorageSettings : Js.result (option (option string)) :=
  match storedPreferredLocale with
  | None => Js.Ok None
  | Some r => r
  end.

(** [loadLocale(locale)] *)
Definition loadLocale (loc : string) (mgr : Manager) : Manager :=
  let attempt : Js.result (option Messages) :=
    response ←ᵣ fetch (getURL ("_locales/" +:+ loc +:+ "/messages.json"));;
    if negb (response_ok response)
    then Js.Throw (Js.mkError ("HTTP " +:+ pretty (response_status response)))
    else response_json response in
  match attempt with
  | Js.Ok data => mkManager data (locale mgr) (ready mgr) (loadingPromise mgr)
  | Js.Throw _ => mkManager None (locale mgr) false (loadingPromise mgr)
  end.

(** [init()] *)
Definition init (mgr : Manager) : Manager :=
  if loadingPromise mgr then mgr
  else
    let mgr0 := mkManager (messages mgr) (locale mgr) (ready mgr) true in
    match getStorageSettings with
    | Js.Throw _ => withReady mgr0
    | Js.Ok storageKeys =>
        let preferredLocale :=
          Js.or_else (default EmptyString (mjoin storageKeys)) DEFAULT_SETTING_LOCALE in
        let mgr1 :=
          if decide (preferredLocale ≠ DEFAULT_SETTING_LOCALE)
          then loadLocale preferredLocale mgr0 else mgr0 in
        withReady (withLocale preferredLocale mgr1)
    end.

(** [setPreferredLocale(locale)] *)
Definition setPreferredLocale (loc : string) (mgr : Manager) : Manager :=
  let normalized := Js.or_else loc DEFAULT_SETTING_LOCALE in
  if decide (normalized = DEFAULT_SETTING_LOCALE)
  then mkManager None DEFAULT_SETTING_LOCALE false (loadingPromise mgr)
  else withReady (withLocale normalized (loadLocale normalized mgr)).

(** The calls that change the manager. *)
Inductive Call :=
| Init
| SetPreferredLocale (loc : string).

Definition perform (c : Call) (mgr : Manager) : Manager :=
  match c with
  | Init => init mgr
  | SetPreferredLocale loc => setPreferredLocale loc mgr
  end.

(** The locale file cannot be had: the fetch rejects, or answers with a
    status that is not ok, or its body is not JSON. *)
Definition unavailable (loc : string) : Prop :=
  match fetch (getURL ("_locales/" +:+ loc +:+ "/messages.json")) with
  | Js.Throw _ => True
  | Js.Ok response =>
      response_ok response = false ∨ ∃ e, response_json response = Js.Throw e
  end.

End WithBrowser.

(** No opening brace in a text. *)
Fixpoint noBrace (s : string) : Prop :=
  match s with
  | EmptyString => True
  | String c s' => c ≠ "{"%char ∧ noBrace s'
  end.

(** Decimal digits only. *)
Fixpoint allDigits (s : string) : Prop :=
  match s with
  | EmptyString => True
  | String c s' => isDigit c = true ∧ allDigits s'
  end.

(** The template with one placeholder between two texts. *)
Definition onePlaceholder (a ds b : string) : string :=
  a +:+ String "{" (ds +:+ String "}" b).

End Localization.

(** ** The print page: [print.js] *)

Module Print.

(** The messages the page sends to the background page. *)
Inductive Request :=
| JobRequest (token : string)
| FetchChunk (token : string) (offset length : Z)
| JobComplete (token reason : string).

(** [response.payload]; a numeric field is [None] when its [typeof] is not
    'number'. Lengths and offsets are taken to be whole numbers: a
    background page that answers with fractions, [NaN] or an infinity is not
    described. *)
Record Payload := mkPayload {
  payload_length : option Z;
  payload_chunkSize : option Z;
  payload_title : option string;
  payload_filename : option string;
}.

(** The answer to a job request and to a chunk request; [chunk] is [None]
    when its [typeof] is not 'string'. *)
Record JobResponse := mkJobResponse {
  job_success : bool;
  job_error : option string;
  job_payload : option Payload;
}.

Record ChunkResponse := mkChunkResponse {
  chunk_success : bool;
  chunk_error : option string;
  chunk_chunk : option string;
  chunk_nextOffset : option Z;
}.

(** What the page shows and has done so far. *)
Record Page := mkPage {
  cleanedUp : bool;
  fallbackTimer : bool;              (* the two-minute timer is pending *)
  completions : list string;         (* reasons of the PRINT_JOB_COMPLETE messages sent *)
  closed : bool;                     (* [window.close()] was called *)
  errorText : option string;         (* what the error element shows *)
  content : option string;           (* [innerHTML] of the content wrapper *)
  title : option string;             (* [document.title], when the job set it *)
  printRequested : bool;             (* [window.print()] is scheduled *)
}.

Definition freshPage : Page := mkPage false false [] false None None None false.

Inductive Event :=
| AfterPrint
| KeyDown (key : string)
| TimerFired
| BeforeUnload.

(** What the page finds when it is loaded: the [token] parameter of its
    address, whether its two elements exist, and the background page's
    answers; a request may be rejected, or answered with nothing. *)
Class Background := {
  token : option string;
  hasRoot : bool;
  hasErrorElement : bool;
  requestJob : string → Js.result (option JobResponse);
  fetchChunk : string → Z → Z → Js.result (option ChunkResponse);
}.

Section WithBackground.
Context `{Background}.

(** [if (token)] *)
Definition tokenGiven : option string :=
  match token with
  | Some t => if Js.truthy t then Some t else None
  | None => None
  end.

(** [showError(message)] *)
Definition showError (message : string) (p : Page) : Page :=
  if hasErrorElement
  then mkPage (cleanedUp p) (fallbackTimer p) (completions p) (closed p) (Some message)
         (content p) (title p) (printRequested p)
  else p.

(** The cleanup both [finishPrint] and the unload handler perform. *)
Definition cleanUp (reason : string) (p : Page) : Page :=
  mkPage true false
    (match tokenGiven with
     | Some _ => completions p ++ [reason]
     | None => completions p
     end)
    (closed p) (errorText p) (content p) (title p) (printRequested p).

(** [finishPrint(reason)] *)
Definition finishPrint (reason : string) (p : Page) : Page :=
  if cleanedUp p then p
  else
    let p1 := cleanUp reason p in
    mkPage (cleanedUp p1) (fallbackTimer p1) (completions p1) true (errorText p1)
      (content p1) (title p1) (printRequested p1).

(** The four listeners and the timer. *)
Definition handle (e : Event) (p : Page) : Page :=
  match e with
  | AfterPrint => finishPrint "afterprint" p
  | KeyDown key => if decide (key = "Escape") then finishPrint "escape" p else p
  | TimerFired => if fallbackTimer p then finishPrint "timeout" p else p
  | BeforeUnload => if cleanedUp p then p else cleanUp "beforeunload" p
  end.

Definition handleAll (events : list Event) (p : Page) : Page :=
  foldl (λ p e, handle e p) p events.

(** [renderAndPrint(job)]; the images of the document are taken to finish
    loading, or to fail, so that [waitForImages] resolves. *)
Definition renderAndPrint (html : string) (jobTitle : option string) (p : Page) : Page :=
  if negb hasRoot then finishPrint "missing-root" (showError "Missing print root element" p)
  else
    mkPage (cleanedUp p) true (completions p) (closed p) (errorText p)
      (Some html)
      (match jobTitle with
       | Some t => if Js.truthy t then Some t else title p
       | None => title p
       end)
      true.

(** The outcome of the chunk loop: all the chunks, or the error message of
    the request that failed, or the exception of a rejected request. *)
Inductive Fetched :=
| Chunks (chunks : list string)
| ChunkError (message : string)
| Rejected (e : Js.Error).

(** [while (offset < totalLength) { ... }] *)
Fixpoint fetchChunks (fuel : nat) (t : string) (totalLength chunkSize offset : Z)
    (chunks : list string) : option Fetched :=
  if (offset <? totalLength)%Z then
    match fuel with
    | 0 => None
    | S fuel' =>
        match fetchChunk t offset chunkSize with
        | Js.Throw e => Some (Rejected e)
        | Js.Ok None => Some (ChunkError "Failed to retrieve print data")
        | Js.Ok (Some fetchResponse) =>
            if negb (chunk_success fetchResponse) then
              Some (ChunkError
                      (Js.or_else (default EmptyString (chunk_error fetchResponse))
                         "Failed to retrieve print data"))
            else
              let chunk := default EmptyString (chunk_chunk fetchResponse) in
              let chunks := chunks ++ [chunk] in
              let nextOffset :=
                default (offset + Z.of_nat (String.length chunk))%Z
                  (chunk_nextOffset fetchResponse) in
              if (String.length chunk =? 0)%nat || (nextOffset <=? offset)%Z
              then fetchChunks fuel' t totalLength chunkSize totalLength chunks
              else fetchChunks fuel' t totalLength chunkSize nextOffset chunks
        end
    end
  else Some (Chunks chunks).

(** [requestAndRender()]; [None] only if the chunk loop were cut short. *)
Definition requestAndRender (fuel : nat) (p : Page) : option Page :=
  match tokenGiven with
  | None => Some (showError "Missing print job token" p)
  | Some t =>
      match requestJob t with
      | Js.Throw _ =>
          Some (finishPrint "request-error" (showError "Unable to request print job." p))
      | Js.Ok response =>
          match response with
          | Some (mkJobResponse true _ payload) =>
              let totalLength := default 0%Z (payload ≫= payload_length) in
              let chunkSize :=
                match payload ≫= payload_chunkSize with
                | Some n => if (0 <? n)%Z then n else (256 * 1024)%Z
                | None => (256 * 1024)%Z
                end in
              fetched ← fetchChunks fuel t totalLength chunkSize 0 [];
              Some
                match fetched with
                | Chunks chunks =>
                    renderAndPrint (Cache.join chunks) (payload ≫= payload_title) p
                | ChunkError message => finishPrint "chunk-error" (showError message p)
                | Rejected _ =>
                    finishPrint "request-error" (showError "Unable to request print job." p)
                end
          | _ =>
              Some (finishPrint "job-error"
                      (showError
                         (Js.or_else (default EmptyString (response ≫= job_error))
                            "Failed to load print job") p))
          end
      end
  end.

(** At most one completion has been sent, none without a token, and only
    by a page that has cleaned up. *)
Definition completedOnce (p : Page) : Prop :=
  length (completions p) ≤ 1 ∧
  (completions p ≠ [] → cleanedUp p = true) ∧
  (tokenGiven = None → completions p = []).

End WithBackground.

(** A background page that serves [html] in slices: the chunk at an
    offset inside the text is the next [length] characters, and the next
    offset, when given, is the offset just after the chunk. *)
Definition servesSlices `{Background} (t html : string) : Prop :=
  ∀ offset length : Z,
    (0 ≤ offset < Z.of_nat (String.length html))%Z → (0 < length)%Z →
    ∃ r, fetchChunk t offset length = Js.Ok (Some r) ∧
         chunk_success r = true ∧
         chunk_chunk r =
           Some (Regex.takeS (Z.to_nat length) (Regex.dropS (Z.to_nat offset) html)) ∧
         (chunk_nextOffset r = None ∨
          chunk_nextOffset r =
            Some (offset + Z.of_nat (String.length
                    (Regex.takeS (Z.to_nat length) (Regex.dropS (Z.to_nat offset) html))))%Z).

End Print.

(** ** The reading history: [saveToHistory] *)

Module History.

(** [{ url, title, lastAccess }] *)
Record Item := mkItem {
  item_url : string;
  item_title : string;
  item_lastAccess : string;
}.

Global Instance Item_eq_dec : EqDecision Item.
Proof. solve_decision. Defined.

(** What the function reads from its surroundings: the document's address
    without its fragment and its title, the time, the path of an address
    (the [URL] constructor may throw), and the stored history (the read
    may reject, the key may be missing); and whether the write succeeds. *)
Class Surroundings := {
  currentDocumentUrl : string;
  documentTitle : string;
  nowISOString : string;
  pathname : string → Js.result string;
  decodeComponent : string → Js.result string;
  storedHistory : Js.result (option (list Item));
  storeHistory : list Item → Js.result unit;
}.

Section WithSurroundings.
Context `{Surroundings}.

(** [extractFileName(url)] *)
Definition extractFileName (url : string) : string :=
  match (path ←ᵣ pathname url;; decodeComponent (Js.lastSegment path)) with
  | Js.Ok fileName => fileName
  | Js.Throw _ => url
  end.

(** The new history: the entries of other documents, the current one put
    in front, cut to a hundred. *)
Definition updatedHistory (history : list Item) : list Item :=
  let url := currentDocumentUrl in
  let title := Js.or_else documentTitle (extractFileName url) in
  let filteredHistory := filter (λ item, item_url item ≠ url) history in
  take 100 (mkItem url title nowISOString :: filteredHistory).

(** [saveToHistory()]: what is written to the store, if anything. *)
Definition saveToHistory : option (list Item) :=
  match storedHistory with
  | Js.Throw _ => None
  | Js.Ok result =>
      let trimmedHistory := updatedHistory (default [] result) in
      match storeHistory trimmedHistory with
      | Js.Ok _ => Some trimmedHistory
      | Js.Throw _ => None
      end
  end.

End WithSurroundings.
End History.

(** ** The toolbar: zoom and layout controls of [setupToolbarButtons] *)

Module Toolbar.

(** The keys of [layoutConfigs]. *)
Inductive Layout := normal | wide | fullscreen | narrow.

Global Instance Layout_eq_dec : EqDecision Layout.
Proof. solve_decision. Defined.

(** An argument of [saveFileState]: [{ zoom }], or [{ layoutMode }] with
    or without a [zoom]. *)
Inductive Saved :=
| SavedZoom (zoom : Z)
| SavedLayout (layoutMode : Layout) (zoom : option Z).

(** The two locals [zoomLevel] and [currentLayout], the width of the
    window, and what has been sent to [saveFileState], latest last. The
    toolbar's elements are taken to be present, and zoom levels to be whole
    numbers, as are all those the toolbar itself computes and saves. *)
Record State := mkState {
  zoomLevel : Z;
  currentLayout : Layout;
  innerWidth : Z;
  saved : list Saved;
}.

Definition WIDE_LAYOUT_THRESHOLD : Z := 2420.

(** [updateZoom(newLevel, saveState)] *)
Definition updateZoom (newLevel : Z) (saveState : bool) (s : State) : State :=
  let zoom := Z.max 50 (Z.min 400 newLevel) in
  mkState zoom (currentLayout s) (innerWidth s)
    (if saveState then saved s ++ [SavedZoom zoom] else saved s).

Definition isWideLayoutAvailable (s : State) : bool :=
  (WIDE_LAYOUT_THRESHOLD <? innerWidth s)%Z.

Definition getLayoutSequence (s : State) : list Layout :=
  if isWideLayoutAvailable s then [normal; wide; fullscreen; narrow]
  else [normal; fullscreen; narrow].

(** [applyLayout(layout, saveState, autoZoom)] *)
Definition applyLayout (layout : Layout) (saveState autoZoom : bool) (s : State) : State :=
  let s1 := mkState (zoomLevel s) layout (innerWidth s) (saved s) in
  let newZoom : option Z :=
    if autoZoom then
      if isWideLayoutAvailable s1
         && (bool_decide (layout = wide) || bool_decide (layout = fullscreen))
      then Some 200%Z
      else if bool_decide (layout = normal) || bool_decide (layout = narrow)
      then Some 100%Z
      else None
    else None in
  let s2 :=
    match newZoom with
    | Some z => updateZoom z false s1
    | None => s1
    end in
  if saveState
  then mkState (zoomLevel s2) (currentLayout s2) (innerWidth s2)
         (saved s2 ++ [SavedLayout layout newZoom])
  else s2.

(** What the user and the window do. *)
Inductive Event :=
| ZoomIn
| ZoomOut
| ZoomReset
| LayoutClick
| Resize (width : Z).

(** [sequence.indexOf(currentLayout)] *)
Definition indexOf (l : Layout) (sequence : list Layout) : option nat :=
  fst <$> list_find (λ x, x = l) sequence.

Definition handle (e : Event) (s : State) : State :=
  match e with
  | ZoomIn => updateZoom (zoomLevel s + 10) true s
  | ZoomOut => updateZoom (zoomLevel s - 10) true s
  | ZoomReset => updateZoom 100 true s
  | LayoutClick =>
      let sequence := getLayoutSequence s in
      match indexOf (currentLayout s) sequence with
      | None => applyLayout (default normal (sequence !! 0)) true true s
      | Some currentIndex =>
          let nextLayout :=
            default normal (sequence !! ((currentIndex + 1) mod length sequence)) in
          applyLayout nextLayout true true s
      end
  | Resize width =>
      let s1 := mkState (zoomLevel s) (currentLayout s) width (saved s) in
      if bool_decide (currentLayout s1 = wide) && negb (isWideLayoutAvailable s1)
      then applyLayout fullscreen true true s1
      else s1
  end.

Definition handleAll (events : list Event) (s : State) : State :=
  foldl (λ s e, handle e s) s events.

(** The toolbar as set up: zoom 100, [applyLayout('normal', false, false)];
    then the saved layout and zoom, if any, put back without saving. *)
Definition setUp (width : Z) (savedLayout : option Layout) (savedZoom : option Z) : State :=
  let s0 := applyLayout normal false false (mkState 100 normal width []) in
  let s1 :=
    match savedLayout with
    | Some l => applyLayout l false false s0
    | None => s0
    end in
  match savedZoom with
  | Some z => if (z =? 0)%Z then s1 else updateZoom z false s1
  | None => s1
  end.

(** The zoom values a list of save requests carries. *)
Definition savedZooms (l : list Saved) : list Z :=
  l ≫= λ x, match x with
            | SavedZoom z => [z]
            | SavedLayout _ (Some z) => [z]
            | SavedLayout _ None => []
            end.

(** The zoom level in effect and every zoom level saved lie between 50
    and 400. *)
Definition zoomInRange (s : State) : Prop :=
  (50 ≤ zoomLevel s ≤ 400)%Z ∧ Forall (λ z, 50 ≤ z ≤ 400)%Z (savedZooms (saved s)).

(** The wide layout is in effect only on a window wide enough for it. *)
Definition wideOnlyWhenAvailable (s : State) : Prop :=
  currentLayout s = wide → isWideLayoutAvailable s = true.

End Toolbar.

(** ** The locale cleanup script *)

Module LocaleCleanup.

(** A value of a parsed [messages.json], which is a [gmap string Value]: a
    message entry, or any other JSON value, of which only the truthiness
    matters. The order of the keys in the file is left out. *)
Inductive Value :=
| Entry (message description : string)
| Other (isTruthy : bool) (json : string).

Global Instance Value_eq_dec : EqDecision Value.
Proof. solve_decision. Defined.

(** [messages[key]] in a condition. *)
Definition truthy (v : option Value) : bool :=
  match v with
  | Some (Entry _ _) => true
  | Some (Other b _) => b
  | None => false
  end.

Definition UNUSED_KEYS : list string :=
  ["cache_default_message"; "cache_loading"; "file_access_disabled_desc";
   "file_access_enabled"; "file_access_enabled_desc"; "overview_demo_button";
   "overview_demo_helper"; "overview_demo_title"; "overview_feature_cache";
   "overview_feature_code_highlight"; "overview_feature_live_render";
   "overview_feature_math_support"; "overview_feature_theme"; "overview_feature_toc";
   "overview_features_title"; "overview_file_access_title"; "overview_tip_content";
   "overview_tip_title"; "overview_usage_step1"; "overview_usage_step2";
   "overview_usage_title"; "overview_version_title"; "settings_about_author_label";
   "settings_about_storage_label"; "settings_about_title";
   "settings_about_updated_label"; "settings_about_version_label"; "tab_guide";
   "tab_overview"].

Definition NEW_KEYS : list (string * Value) :=
  [("file_access_disabled",
    Entry "Disabled" "Status text when file access is disabled");
   ("file_access_disabled_desc_short",
    Entry "To view local files, visit" "Short description prefix for file access warning");
   ("file_access_settings_link",
    Entry "extension settings page" "Link text to extension settings");
   ("file_access_disabled_suffix",
    Entry "and enable 'Allow access to file URLs'" "Suffix for file access warning")].

(** The two [forEach] bodies, on the messages and a counter. *)
Definition removeUnused (acc : gmap string Value * nat) (key : string) : gmap string Value * nat :=
  if truthy (acc.1 !! key) then (delete key acc.1, S acc.2) else acc.

Definition addNew (acc : gmap string Value * nat) (entry : string * Value) : gmap string Value * nat :=
  if negb (truthy (acc.1 !! entry.1)) then (<[entry.1 := entry.2]> acc.1, S acc.2) else acc.

(** What [cleanupLocale(locale)] does to the parsed messages: the messages
    written back, [removedCount] and [addedCount]. *)
Definition cleanup (locale : string) (messages : gmap string Value) : gmap string Value * nat * nat :=
  let '(messages1, removedCount) := foldl removeUnused (messages, 0) UNUSED_KEYS in
  let '(messages2, addedCount) :=
    if bool_decide (locale ≠ "en" ∧ locale ≠ "zh_CN")
    then foldl addNew (messages1, 0) NEW_KEYS
    else (messages1, 0) in
  (messages2, removedCount, addedCount).

(** The value a list of new entries holds for a key. *)
Definition valueFor (entries : list (string * Value)) (k : string) : option Value :=
  (λ e : nat * (string * Value), e.2.2) <$> list_find (λ e : string * Value, e.1 = k) entries.

End LocaleCleanup.

(** ** The translation key check: [check-missing-keys.js] *)

Module KeyCheck.

(** What the script finds on disk: the locale directories, and for each
    the keys of its [messages.json], [None] when the file cannot be read or
    parsed, or holds a value that counts as false. *)
Class LocaleFiles := {
  getLocaleDirs : list string;
  loadMessages : string → option (gset string);
}.

Section WithLocaleFiles.
Context `{LocaleFiles}.

(** The first loop of [main]: [localeData] and [allKeys]. *)
Definition collect (acc : gmap string (gset string) * gset string) (locale : string)
    : gmap string (gset string) * gset string :=
  match loadMessages locale with
  | Some keys => (<[locale := keys]> acc.1, acc.2 ∪ keys)
  | None => acc
  end.

Definition localeData : gmap string (gset string) :=
  (foldl collect (∅, ∅) getLocaleDirs).1.

Definition allKeys : gset string :=
  (foldl collect (∅, ∅) getLocaleDirs).2.

(** [keys && !keys.has(key)] for [keys = localeData.get(locale)] *)
Definition lacks (key locale : string) : bool :=
  match localeData !! locale with
  | Some keys => bool_decide (key ∉ keys)
  | None => false
  end.

(** The inner loop: the locales that miss a key. *)
Definition missingLocales (key : string) : gset string :=
  foldl (λ missing locale, if lacks key locale then missing ∪ {[locale]} else missing)
    ∅ getLocaleDirs.

(** The second loop, over the keys in some order: [missingKeysMap]. *)
Definition record (acc : gmap string (gset string)) (key : string)
    : gmap string (gset string) :=
  let missing := missingLocales key in
  if bool_decide (0 < size missing) then <[key := missing]> acc else acc.

Definition missingKeysMap : gmap string (gset string) :=
  foldl record ∅ (elements allKeys).

(** [missingKeysMap.size === 0]: the script reports that all locales are
    complete and synchronized. *)
Definition complete : bool := bool_decide (size missingKeysMap = 0).

End WithLocaleFiles.
End KeyCheck.

(** ** More sample inputs *)

Module MoreSamples.
Import Tasks Extraction.

(** A document with an HTML block and two diagrams, one of them not
    Mermaid. *)
Definition sampleDocument : MdNode :=
  MdParent "root"
    [MdLeaf "text" "intro";
     MdHtml "<p>hi</p>";
     MdCode (Some "mermaid") "graph TD";
     MdParent "blockquote" [MdCode (Some "js") "let x"; MdCode (Some "mermaid") "pie"]].

(** A reader who opens [b.md] again, with three documents in the history. *)
Definition sampleHistory : list History.Item :=
  [History.mkItem "file:///docs/a.md" "A" "2024-01-01T10:00:00.000Z";
   History.mkItem "file:///docs/b.md" "B" "2024-01-02T10:00:00.000Z";
   History.mkItem "file:///docs/c.md" "C" "2024-01-03T10:00:00.000Z"].

Definition sampleSurroundings : History.Surroundings := {|
  History.currentDocumentUrl := "file:///docs/b.md";
  History.documentTitle := EmptyString;
  History.nowISOString := "2024-02-01T09:30:00.000Z";
  History.pathname := λ url, Js.Ok (Regex.dropS 7 url);
  History.decodeComponent := Js.Ok;
  History.storedHistory := Js.Ok (Some sampleHistory);
  History.storeHistory := λ _, Js.Ok ();
|}.

(** A French [messages.json], and a browser that has it and no other
    locale file, with French stored as the preferred locale. *)
Definition frMessages : Localization.Messages := λ key,
  if String.eqb key "greeting" then Some (Localization.mkEntry (Some "Bonjour {0} !"))
  else if String.eqb key "title" then Some (Localization.mkEntry (Some "Visionneuse"))
  else None.

Definition sampleBrowser : Localization.Browser := {|
  Localization.storedPreferredLocale := Some (Js.Ok (Some (Some "fr")));
  Localization.getURL := λ path, "chrome-extension://abc/" +:+ path;
  Localization.fetch := λ url,
    if String.eqb url "chrome-extension://abc/_locales/fr/messages.json"
    then Js.Ok (Localization.mkFetchResponse true 200 (Js.Ok (Some frMessages)))
    else Js.Ok (Localization.mkFetchResponse false 404 (Js.Ok None));
  Localization.getMessage := Some (λ key _, "Viewer");
|}.

(** A print job of twelve characters, served four at a time. *)
Definition sampleHtml : string := "<p>hello</p>".

Definition samplePayload : Print.Payload :=
  Print.mkPayload (Some (Z.of_nat (String.length sampleHtml))) (Some 4%Z) (Some "Doc") None.

Definition sampleBackground : Print.Background := {|
  Print.token := Some "job-1";
  Print.hasRoot := true;
  Print.hasErrorElement := true;
  Print.requestJob := λ _, Js.Ok (Some (Print.mkJobResponse true None (Some samplePayload)));
  Print.fetchChunk := λ _ offset length,
    Js.Ok (Some (Print.mkChunkResponse true None
                   (Some (Regex.takeS (Z.to_nat length)
                            (Regex.dropS (Z.to_nat offset) sampleHtml)))
                   None));
|}.

(** A German [messages.json]. *)
Definition deMessages : gmap string LocaleCleanup.Value :=
  list_to_map
    [("extension_name", LocaleCleanup.Entry "Markdown-Betrachter" "Name");
     ("tab_guide", LocaleCleanup.Entry "Anleitung" "Tab");
     ("tab_overview", LocaleCleanup.Other false "null");
     ("file_access_disabled", LocaleCleanup.Entry "Deaktiviert" "Status")].

(** Three locale directories; the Japanese file cannot be read. *)
Definition sampleLocaleFiles : KeyCheck.LocaleFiles := {|
  KeyCheck.getLocaleDirs := ["en"; "fr"; "ja"];
  KeyCheck.loadMessages := λ locale,
    if String.eqb locale "en" then Some {[ "extension_name"; "toolbar_print" ]}
    else if String.eqb locale "fr" then Some {[ "extension_name" ]}
    else None;
|}.

End MoreSamples.

(** * Properties *)

(** ** Strings *)

Section StringFacts.
Import Regex.

Lemma app_cons c (a b : string) : String c a +:+ b = String c (a +:+ b).
Proof. reflexivity. Qed.

Lemma app_empty (b : string) : EmptyString +:+ b = b.
Proof. reflexivity. Qed.

Lemma string_length_app (a b : string) :
  String.length (a +:+ b) = String.length a + String.length b.
Proof. induction a as [|c a IH]; [done|]. rewrite app_cons. simpl. by rewrite IH. Qed.

Lemma app_assoc_s (a b c : string) : (a +:+ b) +:+ c = a +:+ b +:+ c.
Proof. induction a as [|x a IH]; [done|]. rewrite !app_cons. by rewrite IH. Qed.

Lemma takeS_dropS n s : takeS n s +:+ dropS n s = s.
Proof.
  revert s. induction n as [|n IH]; intros [|c s]; try done.
  simpl. rewrite app_cons. by rewrite IH.
Qed.

Lemma length_takeS n s : n ≤ String.length s → String.length (takeS n s) = n.
Proof.
  revert s. induction n as [|n IH]; intros [|c s]; simpl; try done; try lia.
  intros Hn. rewrite IH; lia.
Qed.

Lemma length_dropS n s : String.length (dropS n s) = String.length s - n.
Proof. revert s. induction n as [|n IH]; intros [|c s]; simpl; auto. Qed.

Lemma dropS_dropS n m s : dropS m (dropS n s) = dropS (n + m) s.
Proof.
  revert s. induction n as [|n IH]; intros s; [done|].
  destruct s as [|c s]; simpl; [by destruct m|]. apply IH.
Qed.

Lemma takeS_app_le n a b : n ≤ String.length a → takeS n (a +:+ b) = takeS n a.
Proof.
  revert a. induction n as [|n IH]; intros [|c a]; simpl; try done; try lia.
  intros Hn. rewrite IH; [done|lia].
Qed.

Lemma dropS_app_length a b : dropS (String.length a) (a +:+ b) = b.
Proof.
  induction a as [|c a IH]; [by destruct b|]. rewrite app_cons. simpl. apply IH.
Qed.

Lemma dropS_app_takeS n s x :
  n ≤ String.length s → dropS n (takeS n s +:+ x) = x.
Proof.
  intros Hn. pose proof (dropS_app_length (takeS n s) x) as Hdrop.
  by rewrite length_takeS in Hdrop.
Qed.

Lemma takeS_takeS n m s : n ≤ m → takeS n (takeS m s) = takeS n s.
Proof.
  revert m s. induction n as [|n IH]; intros [|m] [|c s]; simpl; try done; try lia.
  intros Hn. rewrite IH; [done|lia].
Qed.

Lemma takeS_substring start from s :
  start ≤ from → takeS start s +:+ substring start from s = takeS from s.
Proof.
  unfold substring. revert from s.
  induction start as [|start IH]; intros from s Hle.
  - simpl. by rewrite Nat.sub_0_r.
  - destruct from as [|from]; [lia|]. destruct s as [|c s]; simpl.
    + by destruct (from - start).
    + rewrite app_cons. rewrite IH; [done|lia].
Qed.

Lemma length_substring from to s :
  from ≤ to → to ≤ String.length s → String.length (substring from to s) = to - from.
Proof.
  intros Hle Hto. unfold substring. apply length_takeS.
  rewrite length_dropS. lia.
Qed.

Lemma startsWith_cons s c prefix :
  Js.startsWith s (String c prefix) = true →
  ∃ s', s = String c s' ∧ Js.startsWith s' prefix = true.
Proof.
  destruct s as [|d s]; simpl; [done|].
  intros [Hc Hs]%andb_true_iff. apply Ascii.eqb_eq in Hc as ->. eauto.
Qed.

Lemma takeS_length_app x y : takeS (String.length x) (x +:+ y) = x.
Proof.
  induction x as [|c x IH]; [by destruct y|]. rewrite app_cons. simpl. by rewrite IH.
Qed.

Lemma substring_app x y z :
  substring (String.length x) (String.length x + String.length y) (x +:+ y +:+ z) = y.
Proof.
  unfold substring. rewrite dropS_app_length.
  replace (String.length x + String.length y - String.length x) with (String.length y) by lia.
  apply takeS_length_app.
Qed.

Lemma app_nil_r_s (z : string) : z +:+ EmptyString = z.
Proof. induction z as [|c z IH]; [done|]. by rewrite app_cons, IH. Qed.

Lemma string_app_nil_inv (a b : string) :
  a +:+ b = EmptyString → a = EmptyString ∧ b = EmptyString.
Proof. destruct a; [by rewrite app_empty|]. by rewrite app_cons. Qed.

Lemma length_pos_nonempty (x : string) : x ≠ EmptyString ↔ 0 < String.length x.
Proof. destruct x; simpl; split; try done; lia. Qed.

Lemma dropS_app_le n : ∀ pre s,
  n ≤ String.length pre → dropS n (pre +:+ s) = dropS n pre +:+ s.
Proof.
  induction n as [|n IH]; intros pre s Hle; [done|].
  destruct pre as [|c pre]; [simpl in Hle; lia|]. rewrite app_cons. simpl.
  apply IH. simpl in Hle. lia.
Qed.

End StringFacts.

(** ** Escaping, one character at a time *)

Section EscapeBasics.
Import Tasks Escape.

Lemma replaceAll_app c w a b :
  Js.replaceAll c w (a +:+ b) = Js.replaceAll c w a +:+ Js.replaceAll c w b.
Proof.
  induction a as [|d a IH]; [done|]. rewrite app_cons. simpl.
  destruct (Ascii.eqb c d).
  - rewrite IH. by rewrite app_assoc_s.
  - by rewrite IH.
Qed.

Lemma replaceAll_other c w d :
  d ≠ c → Js.replaceAll c w (String d EmptyString) = String d EmptyString.
Proof.
  intros Hne. simpl. destruct (Ascii.eqb_spec c d); [congruence|done].
Qed.

Lemma escapeHtml_app a b : escapeHtml (a +:+ b) = escapeHtml a +:+ escapeHtml b.
Proof. unfold escapeHtml. by rewrite !replaceAll_app. Qed.

Lemma escapeHtml_char c : escapeHtml (String c EmptyString) = entity c.
Proof.
  unfold entity.
  destruct (Ascii.eqb_spec c "&") as [->|H1]; [done|].
  destruct (Ascii.eqb_spec c "<") as [->|H2]; [done|].
  destruct (Ascii.eqb_spec c ">") as [->|H3]; [done|].
  destruct (Ascii.eqb_spec c "034") as [->|H4]; [done|].
  destruct (Ascii.eqb_spec c "'") as [->|H5]; [done|].
  unfold escapeHtml. by rewrite !replaceAll_other.
Qed.

Lemma escapeHtml_cons c s : escapeHtml (String c s) = entity c +:+ escapeHtml s.
Proof. by rewrite <- escapeHtml_char, <- escapeHtml_app. Qed.

Lemma escapeHtml_escaped text : escapeHtml text = escaped text.
Proof.
  induction text as [|c text IH]; [done|]. rewrite escapeHtml_cons. simpl. by rewrite IH.
Qed.

End EscapeBasics.

(** ** The scheduler *)

Section SchedulerFacts.
Context `{Platform}.
Import Tasks Scheduler.

Local Abbreviation QUOTE := (String "034"%char EmptyString) (only parsing).

(** *** Deliveries act on each task separately *)

Lemma settle_id a t : task_id (settle a t) = task_id t.
Proof. by destruct a. Qed.

Lemma settle_not_fetching a t : task_status (settle a t) ≠ fetching.
Proof. by destruct a. Qed.

Lemma deliverAll_fmap arrivals q : deliverAll arrivals q = settleBy arrivals <$> q.
Proof.
  revert q. induction arrivals as [|a l IH]; intros q; simpl.
  - by rewrite list_fmap_id.
  - unfold deliverAll in *. simpl. rewrite IH. unfold deliver.
    rewrite <- list_fmap_compose. done.
Qed.

Lemma settleBy_id l t : task_id (settleBy l t) = task_id t.
Proof.
  revert t. induction l as [|a l IH]; intros t; simpl; [done|].
  unfold settleBy in *. simpl. rewrite IH. case_decide; [apply settle_id|done].
Qed.

Lemma settleBy_keeps_settled l t :
  task_status t ≠ fetching → task_status (settleBy l t) ≠ fetching.
Proof.
  revert t. induction l as [|a l IH]; intros t Ht; simpl; [done|].
  unfold settleBy in *. simpl. apply IH. case_decide; [apply settle_not_fetching|done].
Qed.

Lemma settleBy_addressed l t :
  Exists (λ a, arrival_id a = task_id t) l → task_status (settleBy l t) ≠ fetching.
Proof.
  revert t. induction l as [|a l IH]; intros t Hex; [by inversion Hex|].
  unfold settleBy in *. simpl. inversion Hex as [? ? Ha|? ? Hl]; subst.
  - apply (settleBy_keeps_settled l). rewrite decide_True by done.
    apply settle_not_fetching.
  - case_decide.
    + apply (settleBy_keeps_settled l), settle_not_fetching.
    + by apply IH.
Qed.

Lemma settleBy_fetching l t :
  task_status (settleBy l t) = fetching → settleBy l t = t.
Proof.
  revert t. induction l as [|a l IH]; intros t Hf; [done|].
  unfold settleBy in *. simpl in *. case_decide as Hid.
  - exfalso. revert Hf. apply (settleBy_keeps_settled l), settle_not_fetching.
  - by apply IH.
Qed.

Lemma suspend_queue E s : queue (suspend E s) = settleBy (E (clock s)) <$> queue s.
Proof. apply deliverAll_fmap. Qed.

Lemma suspend_ids E s : task_id <$> queue (suspend E s) = task_id <$> queue s.
Proof.
  rewrite suspend_queue, <- list_fmap_compose. apply list_fmap_ext.
  intros ? t _. apply settleBy_id.
Qed.

(** *** One turn *)

Lemma drainBody_ids E t s s' r :
  drainBody E t s = (s', r) → task_id <$> queue s' = task_id <$> queue s.
Proof.
  unfold drainBody. destruct (task_status t).
  - destruct (task_callback t _ _) as [d r']. intros [= <- <-]. by rewrite suspend_ids.
  - destruct (task_callback t _ _) as [d r']. intros [= <- <-]. by rewrite suspend_ids.
  - by intros [= <- <-].
Qed.

Lemma iteration_found E s i t :
  list_find drainable (queue s) = Some (i, t) →
  ∃ s', iteration E s = Drained t s' ∧
        task_id <$> queue s' = delete i (task_id <$> queue s).
Proof.
  intros Hfind. unfold iteration. rewrite Hfind.
  destruct (drainBody E t _) as [s2 r] eqn:Hbody.
  apply drainBody_ids in Hbody. simpl in Hbody.
  rewrite list_fmap_delete in Hbody.
  destruct r; eexists; (split; [reflexivity|]); simpl; done.
Qed.

Lemma iteration_drained E s t s' :
  iteration E s = Drained t s' →
  ∃ i, list_find drainable (queue s) = Some (i, t).
Proof.
  unfold iteration. destruct (list_find drainable (queue s)) as [[i t']|] eqn:Hfind.
  - destruct (drainBody E t' _) as [s2 r]. destruct r; intros [= <- _]; eauto.
  - destruct (filter _ _); discriminate.
Qed.

Lemma not_drainable_fetching t : ¬ drainable t → task_status t = fetching.
Proof. unfold drainable. destruct (task_status t); naive_solver. Qed.

(** What a turn that found a drainable task leaves behind. *)
Lemma iteration_found_state E s i t :
  list_find drainable (queue s) = Some (i, t) →
  ∃ s', iteration E s = Drained t s' ∧
        ((queue s' = delete i (queue s) ∧ clock s' = clock s) ∨
         (queue s' = settleBy (E (clock s)) <$> delete i (queue s) ∧
          clock s' = S (clock s))) ∧
        completedTasks s' = S (completedTasks s) ∧
        totalTasks s' = totalTasks s ∧
        progress s' = Some (S (completedTasks s), totalTasks s) ∧
        indicatorVisible s' = indicatorVisible s.
Proof.
  intros Hfind. unfold iteration. rewrite Hfind. unfold drainBody.
  destruct (task_status t).
  - destruct (task_callback t _ _) as [d r]. simpl.
    destruct r; eexists; (split; [reflexivity|]); simpl;
      rewrite deliverAll_fmap; repeat split; auto.
  - destruct (task_callback t _ _) as [d r]. simpl.
    destruct r; eexists; (split; [reflexivity|]); simpl;
      rewrite deliverAll_fmap; repeat split; auto.
  - eexists; split; [reflexivity|]; simpl. repeat split; auto.
Qed.

Lemma eventuallySettled_delete E T c q i :
  eventuallySettled E T c q → eventuallySettled E T c (delete i q).
Proof.
  unfold eventuallySettled. apply Forall_delete.
Qed.

Lemma eventuallySettled_suspend E T c q :
  eventuallySettled E T c q →
  eventuallySettled E T (S c) (settleBy (E c) <$> q).
Proof.
  unfold eventuallySettled. intros Hq. apply Forall_fmap.
  eapply Forall_impl; [done|]. intros t Ht Hf. simpl in *.
  pose proof (settleBy_fetching _ _ Hf) as Heq. rewrite Heq in *.
  apply Ht in Hf as Hex. apply Exists_exists in Hex as (n & Hn & Ha).
  apply elem_of_seq in Hn. apply Exists_exists. exists n. split; [|done].
  apply elem_of_seq. destruct (decide (n = c)) as [->|]; [|lia].
  exfalso. eapply settleBy_addressed; [exact Ha|]. by rewrite Heq.
Qed.

Lemma eventuallySettled_pending E T c t q :
  eventuallySettled E T c (t :: q) → task_status t = fetching → c < T.
Proof.
  unfold eventuallySettled. intros Hq Hf. apply Forall_cons in Hq as [Ht _].
  apply Ht in Hf. apply Exists_exists in Hf as (n & Hn & _).
  apply elem_of_seq in Hn. lia.
Qed.

(** The loop runs to the empty queue once every pending fetch is due to
    complete, whatever the callbacks return. *)
Lemma drainLoop_terminates E T fuel : ∀ s,
  eventuallySettled E T (clock s) (queue s) →
  length (queue s) + (T - clock s) < fuel →
  ∃ s', drainLoop fuel E s = Some s' ∧
        queue s' = [] ∧
        completedTasks s' = completedTasks s + length (queue s) ∧
        totalTasks s' = totalTasks s ∧
        (queue s ≠ [] → progress s' = Some (completedTasks s', totalTasks s')) ∧
        indicatorVisible s' = indicatorVisible s.
Proof.
  induction fuel as [|fuel IH]; intros s Hfair Hfuel; [lia|].
  simpl. destruct (queue s) as [|t0 q0] eqn:Hq.
  { exists s. rewrite Hq. simpl. repeat split; auto with lia. done. }
  destruct (list_find drainable (queue s)) as [[i t]|] eqn:Hfind.
  - destruct (iteration_found_state E s i t Hfind)
      as (s1 & -> & Hqc & Hc & Ht & Hp & Hv).
    apply list_find_Some in Hfind as (Hi & _ & _).
    pose proof (length_delete _ _ (mk_is_Some _ _ Hi)) as Hdel.
    assert (length (queue s1) = length q0 ∧ clock s ≤ clock s1 ∧
            eventuallySettled E T (clock s1) (queue s1)) as (Hlen & Hclk & Hfair1).
    { rewrite <- Hq in Hfair.
      destruct Hqc as [[-> ->]|[-> ->]].
      - rewrite Hdel. split_and!; [rewrite Hq; simpl; lia|lia|].
        by apply eventuallySettled_delete.
      - rewrite length_fmap, Hdel. split_and!; [rewrite Hq; simpl; lia|lia|].
        by apply eventuallySettled_suspend, eventuallySettled_delete. }
    destruct (IH s1 Hfair1) as (s' & Hrun & Hq' & Hc' & Ht' & Hp' & Hv').
    { simpl in Hfuel. lia. }
    exists s'. split; [done|]. simpl. repeat split; try congruence; try lia.
    intros _. destruct (queue s1) eqn:Hq1.
    + destruct fuel; [done|]. simpl in Hrun. rewrite Hq1 in Hrun.
      injection Hrun as <-. rewrite Hp. congruence.
    + by apply Hp'.
  - apply list_find_None in Hfind. unfold iteration.
    rewrite (proj2 (list_find_None drainable (queue s))) by done.
    rewrite Hq in Hfind. apply Forall_cons in Hfind as [Ht0 _].
    apply not_drainable_fetching in Ht0.
    rewrite Hq. rewrite filter_cons_True by done.
    pose proof (eventuallySettled_pending E T _ t0 q0 Hfair Ht0) as Hclk.
    rewrite <- Hq in Hfair.
    assert (length (queue (suspend E s)) = length (queue s)) as Hlen
      by (by rewrite suspend_queue, length_fmap).
    assert (clock (suspend E s) = S (clock s)) as Hclk' by done.
    destruct (IH (suspend E s)) as (s' & Hrun & Hq' & Hc' & Ht' & Hp' & Hv').
    { rewrite suspend_queue, Hclk'. by apply eventuallySettled_suspend. }
    { rewrite Hlen, Hclk', Hq. simpl in *. lia. }
    exists s'. split; [done|]. rewrite Hlen, Hq in Hc'.
    split_and!; try done.
    intros _. apply Hp'. intros Hnil. rewrite Hnil, Hq in Hlen. done.
Qed.

(** C1. Whenever some queued task is 'ready' or 'error', the turn drains
    the earliest-registered such task (every task before it in the queue is
    still fetching) and removes exactly that task from the queue; a task
    that is drained is never in status 'fetching'; and on a queue holding a
    fetching task followed by a ready task, the ready task is the one
    drained. *)
Theorem C1_ready_or_error_drained_first (E : Environment) (s : State) :
  ((∃ t, t ∈ queue s ∧ drainable t) →
   ∃ i t s',
     iteration E s = Drained t s' ∧
     queue s !! i = Some t ∧
     drainable t ∧
     (∀ j t', j < i → queue s !! j = Some t' → task_status t' = fetching) ∧
     task_id <$> queue s' = delete i (task_id <$> queue s))
  ∧ (∀ t s', iteration E s = Drained t s' →
             t ∈ queue s ∧ task_status t ≠ fetching)
  ∧ (∀ f r, queue s = [f; r] →
            task_status f = fetching → task_status r = ready →
            ∃ s', iteration E s = Drained r s').
Proof.
  split; [|split].
  - intros (t & Hin & Hd).
    destruct (list_find_elem_of drainable (queue s) t Hin Hd) as [[i t'] Hfind].
    destruct (iteration_found E s i t' Hfind) as (s' & Hit & Hids).
    apply list_find_Some in Hfind as (Hi & Hd' & Hbefore).
    exists i, t', s'. repeat split; try done.
    intros j u Hj Hu. apply not_drainable_fetching. by eapply Hbefore.
  - intros t s' Hit. apply iteration_drained in Hit as [i Hfind].
    apply list_find_Some in Hfind as (Hi & Hd & _). split.
    + by eapply list_elem_of_lookup_2.
    + destruct Hd as [-> | ->]; done.
  - intros f r Hq Hf Hr.
    assert (list_find drainable (queue s) = Some (1, r)) as Hfind.
    { rewrite Hq. apply list_find_Some. repeat split.
      - by left.
      - intros j y Hj Hlt. destruct j as [|[|j]]; [|lia..].
        injection Hj as <-. unfold drainable. rewrite Hf. intros [?|?]; congruence. }
    destruct (iteration_found E s 1 r Hfind) as (s' & Hit & _). eauto.
Qed.

Lemma replacePlaceholder_found id markup d k :
  getElementById id d = Some k →
  d !! k = Some (Placeholder id) ∧
  replacePlaceholder id markup d !! k = Some (Html markup) ∧
  (∀ j, j ≠ k → replacePlaceholder id markup d !! j = d !! j).
Proof.
  unfold replacePlaceholder, getElementById. intros Hk. rewrite Hk.
  destruct (list_find (hasId id) d) as [[k' e]|] eqn:Hfind; [|done].
  injection Hk as ->. apply list_find_Some in Hfind as (Hlook & Hid & _).
  destruct e as [i|]; [|done]. simpl in Hid. subst i. unfold setOuterHTML.
  split_and!; [done| |].
  - apply list_lookup_insert_eq. by eapply lookup_lt_Some.
  - intros j Hj. by apply list_lookup_insert_ne.
Qed.

(** The element [getElementById] finds is the first that carries the id. *)
Lemma getElementById_first id d k :
  d !! k = Some (Placeholder id) →
  (∀ j, j < k → d !! j ≠ Some (Placeholder id)) →
  getElementById id d = Some k.
Proof.
  intros Hk Hfirst. unfold getElementById.
  assert (list_find (hasId id) d = Some (k, Placeholder id)) as ->; [|done].
  apply list_find_Some. split_and!; [done|done|].
  intros j y Hj Hlt Hid. destruct y as [i|]; [|done]. simpl in Hid. subst i.
  by apply (Hfirst j Hlt).
Qed.

Lemma getElementById_none id d :
  (∀ k, d !! k ≠ Some (Placeholder id)) → getElementById id d = None.
Proof.
  intros Hnone. unfold getElementById.
  destruct (list_find (hasId id) d) as [[k e]|] eqn:Hfind; [|done].
  apply list_find_Some in Hfind as (Hk & Hid & _).
  destruct e as [i|]; [|done]. simpl in Hid. subst i. by apply Hnone in Hk.
Qed.

(** C2. Started on a non-empty queue whose fetching tasks all have their
    fetch completed during some suspension before time [T], the drain loop
    stops (any fuel above [length q + T] is enough) with the queue empty,
    [completedTasks = totalTasks = length q], the indicator hidden and the
    last progress update at [(length q, length q)]. A turn whose callback
    throws still removes the task from the queue and counts it as completed,
    and replaces the task's placeholder, the first element that carries the
    task's id when there is one, by the inline error report written out
    below: a red-bordered [<pre>] holding the localized message
    [async_task_processing_error] for the escaped text of the error; the
    rest of the document stays as the callback left it. *)
Theorem C2_drain_completeness (E : Environment) (T : nat) (q : list Task)
    (d : Document) (fuel : nat) :
  q ≠ [] →
  eventuallySettled E T 0 q →
  length q + T < fuel →
  (∃ s', processAsyncTasks fuel E (initialState q d) = Some s' ∧
         queue s' = [] ∧
         completedTasks s' = length q ∧
         totalTasks s' = length q ∧
         progress s' = Some (length q, length q) ∧
         indicatorVisible s' = false)
  ∧ (∀ s i t d' e,
       list_find drainable (queue s) = Some (i, t) →
       task_status t = ready →
       task_callback t (task_data t) (doc s) = (d', Js.Throw e) →
       ∃ s', iteration E s = Drained t s' ∧
             length (queue s') = length (queue s) - 1 ∧
             completedTasks s' = S (completedTasks s) ∧
             progress s' = Some (S (completedTasks s), totalTasks s) ∧
             (∀ k, d' !! k = Some (Placeholder (task_id t)) →
                   (∀ j, j < k → d' !! j ≠ Some (Placeholder (task_id t))) →
                   doc s' =
                   <[k := Html
                            ("<pre style=" +:+ QUOTE
                             +:+ "background: #fee; border-left: 4px solid #f00; padding: 10px; font-size: 12px;"
                             +:+ QUOTE +:+ ">"
                             +:+ translate "async_task_processing_error"
                                   [Escape.escaped (Js.message e)]
                             +:+ "</pre>")]> d') ∧
             ((∀ k, d' !! k ≠ Some (Placeholder (task_id t))) → doc s' = d')).
Proof.
  intros Hne Hfair Hfuel. split.
  - unfold processAsyncTasks, initialState. simpl.
    destruct q as [|t0 q0] eqn:Hq; [done|]. rewrite <- Hq in *.
    set (s0 := mkState q d 0 (length q) (Some (0, length q)) true 0).
    destruct (drainLoop_terminates E T fuel s0)
      as (s' & Hrun & Hq' & Hc & Ht & Hp & Hv).
    { done. }
    { simpl. lia. }
    rewrite Hrun. simpl in *. eexists. split; [reflexivity|]. simpl.
    split_and!; try done. rewrite Hp by (by rewrite Hq). by rewrite Hc, Ht.
  - intros s i t d' e Hfind Hready Hcb.
    pose proof Hfind as Hfind'.
    apply list_find_Some in Hfind' as (Hi & _ & _).
    unfold iteration. rewrite Hfind. unfold drainBody. rewrite Hready. simpl.
    rewrite Hcb. eexists. split; [reflexivity|]. simpl.
    rewrite deliverAll_fmap, length_fmap, length_delete by done.
    split_and!; try done.
    + intros k Hk Hfirst. unfold replacePlaceholder.
      rewrite (getElementById_first _ _ _ Hk Hfirst).
      unfold setOuterHTML, caughtErrorReport, errorBlock. cbv zeta.
      rewrite escapeHtml_escaped.
      assert (Js.or_else (Js.message e) EmptyString = Js.message e) as ->
        by (by destruct (Js.message e)).
      unfold Js.quoted, Js.dq. by rewrite !app_assoc_s.
    + intros Hnone. unfold replacePlaceholder.
      by rewrite (getElementById_none _ _ Hnone).
Qed.

End SchedulerFacts.

Section SchedulerExamples.
Import Tasks Scheduler Samples.
Existing Instance samplePlatform.

(** The five-task queue, third callback throwing: all five are drained and
    counted, and the third placeholder carries the error report. *)
Example drain_five_tasks :
  (λ s, (length (queue s), completedTasks s, totalTasks s, progress s, doc s))
    <$> processAsyncTasks 6 noArrivals (initialState fiveTasks fiveDoc)
  = Some (0, 5, 5, Some (5, 5),
          [Html "<img>"; Html "<img>";
           Html ("<pre style=" +:+ Js.quoted
                   "background: #fee; border-left: 4px solid #f00; padding: 10px; font-size: 12px;"
                 +:+ ">async_task_processing_error(render failed)</pre>");
           Html "<img>"; Html "<img>"]).
Proof. vm_compute. reflexivity. Qed.

(** A fetching task ahead of a ready one: the ready task goes first, the
    loop then polls until the fetch fails, and the failure is reported in
    place. *)
Example drain_waits_for_fetch :
  (λ s, (length (queue s), completedTasks s, clock s, doc s))
    <$> processAsyncTasks 6 lateFailure
          (initialState fetchingThenReady
             [Placeholder "async-placeholder-1"; Placeholder "async-placeholder-2"])
  = Some (0, 2, 3,
          [Html (errorBlock "async_processing_error(HTTP 404: Not Found)");
           Html "<img>"]).
Proof. vm_compute. reflexivity. Qed.

Lemma C1_witness :
  (∃ i t s',
     iteration noArrivals (initialState fetchingThenReady []) = Drained t s' ∧
     fetchingThenReady !! i = Some t ∧ drainable t) ∧
  (∃ s', iteration noArrivals (initialState fetchingThenReady [])
         = Drained (sampleTask 2 imageCallback ready) s').
Proof.
  destruct (C1_ready_or_error_drained_first noArrivals
              (initialState fetchingThenReady [])) as (Hfirst & _ & Hpair).
  split.
  - destruct Hfirst as (i & t & s' & Hit & Hi & Hd & _).
    + exists (sampleTask 2 imageCallback ready). split; [|by left].
      apply list_elem_of_In. simpl. auto.
    + exists i, t, s'. auto.
  - apply (Hpair (sampleTask 1 imageCallback fetching)); reflexivity.
Defined.

Lemma C2_witness :
  ∃ s', processAsyncTasks 6 noArrivals (initialState fiveTasks fiveDoc) = Some s' ∧
        queue s' = [] ∧ completedTasks s' = 5 ∧ totalTasks s' = 5 ∧
        progress s' = Some (5, 5) ∧ indicatorVisible s' = false.
Proof.
  apply (C2_drain_completeness noArrivals 0 fiveTasks fiveDoc 6).
  - discriminate.
  - unfold eventuallySettled. repeat constructor; discriminate.
  - simpl. lia.
Defined.

End SchedulerExamples.

(** ** The cache proxy *)

Section CacheFacts.
Context `{Platform}.
Import Wire Cache.

Lemma hexByte_toString16 b :
  padStart 2 "0"%char (toString16 (Byte.to_nat b)) = hexByte b.
Proof. destruct b; vm_compute; reflexivity. Qed.

Lemma calculateHash_lowerHex text :
  calculateHash text = lowerHex (sha256 (String.list_byte_of_string text)).
Proof.
  unfold calculateHash, lowerHex, join.
  induction (sha256 _) as [|b l IH]; [done|].
  rewrite fmap_cons. cbn [foldr]. rewrite hexByte_toString16. f_equal. exact IH.
Qed.

Lemma nibble_lowerHex d : isLowerHexChar (nibble d).
Proof.
  unfold isLowerHexChar, nibble.
  do 16 (destruct d as [|d]; [apply list_elem_of_In; simpl; tauto|]).
  destruct d; apply list_elem_of_In; simpl; tauto.
Qed.

Lemma lowerHex_shape bytes :
  String.length (lowerHex bytes) = 2 * length bytes ∧
  allChars isLowerHexChar (lowerHex bytes).
Proof.
  induction bytes as [|b l [IHlen IHall]]; [done|].
  change (lowerHex (b :: l)) with
    (String (nibble (Byte.to_nat b / 16))
       (String (nibble (Byte.to_nat b mod 16)) (lowerHex l))).
  cbn [String.length allChars length]. split; [lia|].
  auto using nibble_lowerHex.
Qed.

(** C7. The key is a function of the content and the kind only: it is the
    lowercase two-digits-per-byte hexadecimal rendering of the SHA-256
    digest of the content, then "_", then the kind. Keys of the same content
    under two different kinds differ, in particular under 'diagram' and
    'html-block'. *)
Theorem C7_generateKey_deterministic_kind_sensitive (content k1 k2 : string) :
  let digest := sha256 (String.list_byte_of_string content) in
  generateKey content k1 = lowerHex digest +:+ "_" +:+ k1 ∧
  String.length (lowerHex digest) = 2 * length digest ∧
  allChars isLowerHexChar (lowerHex digest) ∧
  (∀ content' k', content' = content → k' = k1 →
                  generateKey content' k' = generateKey content k1) ∧
  (k1 ≠ k2 → generateKey content k1 ≠ generateKey content k2) ∧
  generateKey content "diagram" ≠ generateKey content "html-block".
Proof.
  assert (∀ a b, a ≠ b → generateKey content a ≠ generateKey content b) as Hkind.
  { intros a b Hab Heq. unfold generateKey in Heq.
    apply (inj (String.app _)) in Heq. by injection Heq. }
  simpl. split_and!.
  - unfold generateKey. by rewrite calculateHash_lowerHex.
  - apply lowerHex_shape.
  - apply lowerHex_shape.
  - by intros ? ? -> ->.
  - apply Hkind.
  - by apply Hkind.
Qed.

(** C8. [get] and [set] always return a value, never an exception; when the
    storage call behind them fails (the message promise rejects, nobody
    answers, or the answer reports an error) [get] returns [null] and [set]
    returns [false]. *)
Theorem C8_cache_access_never_throws (key : string) (value : PngResult)
    (type : string) :
  (∃ v, Cache.get key = Js.Ok v) ∧
  (∃ b, Cache.set key value type = Js.Ok b) ∧
  (failed (CacheGet key) → Cache.get key = Js.Ok None) ∧
  (failed (CacheSet key value type) → Cache.set key value type = Js.Ok (Some false)).
Proof.
  unfold Cache.get, Cache.set, failed, awaitResponse, throwIfError.
  split_and!.
  - destruct (sendMessage _) as [e| |[[msg|] res ok]]; simpl; eauto.
    destruct (Js.truthy msg); simpl; eauto.
  - destruct (sendMessage _) as [e| |[[msg|] res ok]]; simpl; eauto.
    destruct (Js.truthy msg); simpl; eauto.
  - destruct (sendMessage _) as [e| |[[msg|] res ok]]; simpl; try done.
    by intros ->.
  - destruct (sendMessage _) as [e| |[[msg|] res ok]]; simpl; try done.
    by intros ->.
Qed.

End CacheFacts.

Section CacheExamples.
Import Wire Cache Samples.

(** With the identity standing in for the digest, the key of "AZ" is the
    hexadecimal rendering of its two bytes. *)
Example generateKey_sample :
  generateKey (H := samplePlatform) "AZ" "mermaid" = "415a_mermaid".
Proof. reflexivity. Qed.

Example get_hit :
  Cache.get (H := platformWith (λ _, Replied (mkResponse None (Some samplePng) None)) (λ d, d)) "k"
  = Js.Ok (Some samplePng).
Proof. reflexivity. Qed.

Lemma C8_witness :
  Cache.get (H := platformWith quotaExceeded (λ d, d)) "415a_mermaid" = Js.Ok None ∧
  Cache.set (H := platformWith quotaExceeded (λ d, d)) "415a_mermaid" samplePng "mermaid"
  = Js.Ok (Some false).
Proof.
  destruct (C8_cache_access_never_throws (H := platformWith quotaExceeded (λ d, d))
              "415a_mermaid" samplePng "mermaid") as (_ & _ & Hget & Hset).
  split; [apply Hget|apply Hset]; reflexivity.
Defined.

Lemma C7_witness :
  generateKey (H := samplePlatform) "AZ" "diagram"
  ≠ generateKey (H := samplePlatform) "AZ" "html-block".
Proof.
  destruct (C7_generateKey_deterministic_kind_sensitive (H := samplePlatform)
              "AZ" "diagram" "html-block") as (_ & _ & _ & _ & Hkind & _).
  apply Hkind. discriminate.
Defined.

End CacheExamples.

(** ** The sanitizer *)

Section DomFacts.
Import Dom.

Lemma childNodes_withChildNodes_alter f i n :
  childNodes (withChildNodes (alter f i (childNodes n)) n) = alter f i (childNodes n).
Proof. by destruct n. Qed.

Lemma withChildNodes_twice c1 c2 n :
  withChildNodes c1 (withChildNodes c2 n) = withChildNodes c1 n.
Proof. by destruct n. Qed.

Lemma getNode_app p q root :
  getNode (p ++ q) root = getNode p root ≫= getNode q.
Proof.
  revert root. induction p as [|i p IH]; intros root; simpl; [done|].
  destruct (childNodes root !! i) as [c|]; simpl; [apply IH|done].
Qed.

Lemma updNode_app p q f root :
  updNode (p ++ q) f root = updNode p (updNode q f) root.
Proof.
  revert root. induction p as [|i p IH]; intros root; simpl; [done|].
  f_equal. apply list_alter_ext; [|done]. intros c _. apply IH.
Qed.

Lemma getNode_updNode p f root n :
  getNode p root = Some n → getNode p (updNode p f root) = Some (f n).
Proof.
  revert root. induction p as [|i p IH]; intros root; simpl.
  - by intros [= ->].
  - rewrite childNodes_withChildNodes_alter, list_lookup_alter_eq.
    destruct (childNodes root !! i) as [c|]; simpl; [apply IH|done].
Qed.

Lemma updNode_twice p f g root :
  updNode p f (updNode p g root) = updNode p (f ∘ g) root.
Proof.
  revert root. induction p as [|i p IH]; intros root; simpl; [done|].
  rewrite childNodes_withChildNodes_alter, withChildNodes_twice.
  rewrite list_alter_alter_eq. f_equal.
  apply list_alter_ext; [|done]. intros c _. apply IH.
Qed.

Lemma setNode_after_update p q f n root :
  setNode p n (updNode (p ++ q) f root) = setNode p n root.
Proof. unfold setNode. rewrite updNode_app. apply updNode_twice. Qed.

Lemma setNode_twice p n m root : setNode p n (setNode p m root) = setNode p n root.
Proof. apply updNode_twice. Qed.

Lemma getNode_setNode p n m root :
  getNode p root = Some m → getNode p (setNode p n root) = Some n.
Proof. intros Hm. unfold setNode. by rewrite (getNode_updNode _ _ _ m). Qed.

Lemma nodeCount_children n :
  match n with
  | Element _ _ _ => nodeCount n = S (sum_list_with nodeCount (childNodes n))
  | _ => True
  end.
Proof.
  destruct n as [t a c| |]; try done; simpl; f_equal;
    induction c as [|x c IH]; simpl; auto.
Qed.

Lemma nodeCount_pos n : 0 < nodeCount n.
Proof. destruct n; simpl; lia. Qed.

End DomFacts.

Section SanitizerTreeFacts.
Context `{Platform}.
Import Dom Sanitizer.

Lemma sanitizeLoop_more_fuel k j root stack r :
  sanitizeLoop k root stack = Some r → sanitizeLoop (k + j) root stack = Some r.
Proof.
  revert root stack. induction k as [|k IH]; intros root stack.
  - destruct stack; simpl; [|done]. by destruct j.
  - destruct stack as [|p stack]; [done|]. simpl.
    destruct (getNode p root) as [[tag attrs children| |]|]; auto.
    case_bool_decide; auto.
Qed.

Lemma sanitizedNode_not_element n : isElement n = false → sanitizedNode n = n.
Proof. by destruct n. Qed.

Lemma sanitizedNode_element tag attrs children :
  sanitizedNode (Element tag attrs children) =
  if bool_decide (Js.toUpperCase tag ∈ blockedTags)
  then blockedWarning (Js.toUpperCase tag) (Element tag attrs children)
  else Element tag (sanitizeElementAttributes attrs) (sanitizedChildren children).
Proof.
  simpl. case_bool_decide; [done|]. f_equal. unfold sanitizedChildren.
  induction children as [|c l IH]; simpl; [done|].
  destruct (isComment c); simpl; by rewrite IH.
Qed.

Lemma removeComments_elem c l : c ∈ removeComments l → c ∈ l.
Proof.
  induction l as [|x l IH]; simpl; [done|].
  destruct (isComment x); rewrite ?elem_of_cons; intuition.
Qed.

Lemma removeComments_count l :
  sum_list_with nodeCount (removeComments l) ≤ sum_list_with nodeCount l.
Proof.
  induction l as [|x l IH]; simpl; [done|]. destruct (isComment x); simpl; lia.
Qed.

Lemma elementIndicesFrom_snoc i l x :
  elementIndicesFrom i (l ++ [x]) =
  elementIndicesFrom i l ++ (if isElement x then [i + length l] else []).
Proof.
  revert i. induction l as [|y l IH]; intros i; simpl.
  - destruct (isElement x); by rewrite ?Nat.add_0_r.
  - rewrite IH. replace (S i + length l) with (i + S (length l)) by lia.
    by destruct (isElement y).
Qed.

Lemma childPaths_snoc p l x :
  childPaths p (l ++ [x]) =
  childPaths p l ++ (if isElement x then [p ++ [length l]] else []).
Proof.
  unfold childPaths. rewrite elementIndicesFrom_snoc, fmap_app.
  by destruct (isElement x).
Qed.

Lemma children_done pre : ∀ suf parent root p stack k r,
  Forall subtreeDone pre →
  getNode p root = Some parent →
  childNodes parent = pre ++ suf →
  sanitizeLoop k
    (setNode p (withChildNodes ((sanitizedNode <$> pre) ++ suf) parent) root) stack
  = Some r →
  sanitizeLoop (sum_list_with nodeCount pre + k) root
    (pushAll (childPaths p pre) stack) = Some r.
Proof.
  induction pre as [|x pre IH] using rev_ind;
    intros suf parent root p stack k r Hdone Hparent Hch Hrun.
  - simpl in *. rewrite <- Hch in Hrun.
    assert (withChildNodes (childNodes parent) parent = parent) as Hid
      by (by destruct parent).
    rewrite Hid in Hrun. unfold setNode in Hrun.
    assert (updNode p (λ _, parent) root = root) as Hsame.
    { clear -Hparent. revert root Hparent.
      induction p as [|i p IH]; intros root; simpl; [by intros [= ->]|].
      destruct (childNodes root !! i) as [c|] eqn:Hc; simpl; [|done].
      intros Hp. rewrite (list_alter_ext _ id _ (childNodes root) i).
      - rewrite list_alter_id by done. by destruct root.
      - intros y Hy. rewrite Hc in Hy. injection Hy as <-. by apply IH.
      - done. }
    by rewrite Hsame in Hrun.
  - apply Forall_app in Hdone as [Hpre Hx]. rewrite Forall_singleton in Hx.
    rewrite sum_list_with_app. simpl. rewrite Nat.add_0_r.
    unfold pushAll. rewrite childPaths_snoc, rev_app_distr.
    rewrite fmap_app in Hrun. simpl in Hrun. rewrite <- app_assoc in Hrun.
    simpl in Hrun. rewrite <- app_assoc in Hch. simpl in Hch.
    destruct (isElement x) eqn:Hel; simpl.
    + replace (sum_list_with nodeCount pre + nodeCount x + k)
        with (nodeCount x + (sum_list_with nodeCount pre + k)) by lia.
      apply Hx; [|done|].
      { rewrite getNode_app, Hparent. simpl. rewrite Hch.
        by rewrite list_lookup_middle. }
      set (root1 := setNode (p ++ [length pre]) (sanitizedNode x) root).
      apply (IH (sanitizedNode x :: suf)
                (withChildNodes (pre ++ sanitizedNode x :: suf) parent) root1);
        [done| | |].
      * unfold root1, setNode. rewrite updNode_app.
        rewrite (getNode_updNode _ _ _ parent) by done. f_equal. simpl.
        rewrite Hch.
        replace (length pre) with (length pre + 0) by lia.
        rewrite alter_app_r. simpl. by destruct parent.
      * destruct parent; simpl in *; try done; by destruct pre.
      * unfold root1. rewrite withChildNodes_twice.
        unfold setNode at 2. rewrite setNode_after_update. done.
    + rewrite sanitizedNode_not_element in Hrun by done.
      replace (sum_list_with nodeCount pre + nodeCount x + k)
        with (sum_list_with nodeCount pre + k + nodeCount x) by lia.
      apply sanitizeLoop_more_fuel.
      by apply (IH (x :: suf) parent).
Qed.

Lemma subtree_done_all node : subtreeDone node.
Proof.
  remember (nodeCount node) as n eqn:Hn.
  revert node Hn. induction n as [n IH] using lt_wf_ind. intros node ->.
  intros root p stack k r Hget Hel Hrun.
  destruct node as [tag attrs children| |]; try done.
  rewrite sanitizedNode_element in Hrun.
  pose proof (nodeCount_children (Element tag attrs children)) as Hcount.
  rewrite Hcount. simpl sanitizeLoop. rewrite Hget.
  case_bool_decide.
  - rewrite Nat.add_comm. by apply sanitizeLoop_more_fuel.
  - set (kept := removeComments children).
    set (node1 := Element tag (sanitizeElementAttributes attrs) kept).
    pose proof (removeComments_count children) as Hle. simpl childNodes.
    replace (sum_list_with nodeCount children + k)
      with (sum_list_with nodeCount kept + k +
            (sum_list_with nodeCount children - sum_list_with nodeCount kept))
      by (unfold kept; lia).
    apply sanitizeLoop_more_fuel.
    apply (children_done kept [] node1 (setNode p node1 root)).
    + apply Forall_forall. intros c Hc.
      apply removeComments_elem in Hc.
      apply (IH (nodeCount c)); [|done].
      rewrite Hcount. simpl.
      pose proof (sum_list_with_in c nodeCount children Hc). lia.
    + by eapply getNode_setNode.
    + simpl. by rewrite app_nil_r.
    + rewrite app_nil_r, setNode_twice. exact Hrun.
Qed.

(** The walk always finishes, and produces the tree described by
    [sanitizedNode]: the root keeps its identity, its children are the
    sanitized non-comment children. *)
Lemma sanitizeNodeTree_correct root :
  sanitizeNodeTree root =
  Some (withChildNodes (sanitizedChildren (childNodes root)) root).
Proof.
  unfold sanitizeNodeTree, sanitizedChildren.
  set (kept := removeComments (childNodes root)).
  destruct (decide (childNodes root = [])) as [Hnil|Hne].
  { unfold kept. rewrite Hnil. simpl. by destruct (nodeCount root). }
  assert (nodeCount root = S (sum_list_with nodeCount (childNodes root))) as ->.
  { pose proof (nodeCount_children root). by destruct root. }
  pose proof (removeComments_count (childNodes root)) as Hle.
  replace (S (sum_list_with nodeCount (childNodes root)))
    with (sum_list_with nodeCount kept + 0 +
          (S (sum_list_with nodeCount (childNodes root)) - sum_list_with nodeCount kept))
    by (unfold kept; lia).
  apply sanitizeLoop_more_fuel.
  apply (children_done kept [] (withChildNodes kept root)).
  - apply Forall_forall. intros c _. apply subtree_done_all.
  - done.
  - rewrite app_nil_r. by destruct root.
  - rewrite app_nil_r, withChildNodes_twice. done.
Qed.

End SanitizerTreeFacts.

Section SanitizerAttributeFacts.
Context `{Platform}.
Import Dom Sanitizer.

Lemma countName_cons name a l :
  countName name (a :: l) =
  (if decide (attr_name a = name) then 1 else 0) + countName name l.
Proof. unfold countName. rewrite filter_cons. by case_decide. Qed.

Lemma countName_zero name l b : countName name l = 0 → b ∈ l → attr_name b ≠ name.
Proof.
  induction l as [|a l IH]; [by intros _ ?%elem_of_nil|].
  rewrite countName_cons, elem_of_cons. case_decide; [lia|].
  intros Hl [->|Hb]; auto.
Qed.

Lemma removeAttribute_count_same name l :
  countName name (removeAttribute name l) = pred (countName name l).
Proof.
  induction l as [|a l IH]; [done|]. simpl. rewrite countName_cons.
  case_decide; [done|]. by rewrite countName_cons, decide_False.
Qed.

Lemma removeAttribute_count_other name other l :
  name ≠ other → countName other (removeAttribute name l) = countName other l.
Proof.
  intros Hne. induction l as [|a l IH]; [done|]. simpl.
  case_decide as Ha.
  - rewrite countName_cons, decide_False; [done|congruence].
  - by rewrite !countName_cons, IH.
Qed.

Lemma setAttribute_count_other name value other l :
  name ≠ other → countName other (setAttribute name value l) = countName other l.
Proof.
  intros Hne. induction l as [|a l IH]; simpl.
  - by rewrite countName_cons, decide_False.
  - case_decide as Ha.
    + rewrite !countName_cons. simpl. rewrite !decide_False; [done|congruence..].
    + by rewrite !countName_cons, IH.
Qed.

(** One attribute of the snapshot never adds an event handler, and removes
    one occurrence of its own name when that name is an event handler. *)
Lemma sanitizeAttribute_handlers cur a name :
  isEventHandler name = true →
  countName name (sanitizeAttribute cur a) ≤
  countName name cur - (if decide (attr_name a = name) then 1 else 0).
Proof.
  intros Hname. unfold sanitizeAttribute.
  destruct (Js.startsWith (Js.toLowerCase (attr_name a)) "on") eqn:Hon.
  - case_decide as Ha.
    + subst name. rewrite removeAttribute_count_same. lia.
    + rewrite removeAttribute_count_other by done. lia.
  - assert (attr_name a ≠ name) as Hne.
    { intros Heq. rewrite Heq in Hon. unfold isEventHandler in Hname. congruence. }
    destruct (decide (attr_name a = name)) as [|_]; [done|]. rewrite Nat.sub_0_r.
    repeat (case_decide || case_bool_decide || case_match);
      rewrite ?removeAttribute_count_other, ?setAttribute_count_other by done;
      done.
Qed.

Lemma sanitize_fold_handlers todo : ∀ cur name,
  isEventHandler name = true →
  (∀ n, isEventHandler n = true → countName n cur ≤ countName n todo) →
  countName name (foldl sanitizeAttribute cur todo) = 0.
Proof.
  induction todo as [|a todo IH]; intros cur name Hname Hinv; simpl.
  - specialize (Hinv name Hname). unfold countName in Hinv at 2. simpl in Hinv. lia.
  - apply IH; [done|]. intros n Hn.
    pose proof (sanitizeAttribute_handlers cur a n Hn) as Hstep.
    specialize (Hinv n Hn). rewrite countName_cons in Hinv.
    case_decide; lia.
Qed.

(** No attribute whose name begins with "on" survives, whatever the
    attribute list. *)
Lemma sanitizeElementAttributes_no_handlers attrs b :
  b ∈ sanitizeElementAttributes attrs → isEventHandler (attr_name b) = false.
Proof.
  intros Hb. destruct (isEventHandler (attr_name b)) eqn:Hname; [|done].
  exfalso. eapply countName_zero; [|exact Hb|reflexivity].
  by apply sanitize_fold_handlers.
Qed.

(** *** With distinct attribute names, each attribute is decided on its own *)

Lemma removeAttribute_middle done a todo :
  attr_name a ∉ attr_name <$> done →
  removeAttribute (attr_name a) (done ++ a :: todo) = done ++ todo.
Proof.
  induction done as [|d done IH]; simpl; intros Hnot.
  - by rewrite decide_True.
  - rewrite not_elem_of_cons in Hnot. destruct Hnot as [Hd Hnot].
    rewrite decide_False by done. by rewrite IH.
Qed.

Lemma setAttribute_middle done a value todo :
  attr_name a ∉ attr_name <$> done →
  setAttribute (attr_name a) value (done ++ a :: todo)
  = done ++ mkAttr (attr_name a) value :: todo.
Proof.
  induction done as [|d done IH]; simpl; intros Hnot.
  - by rewrite decide_True.
  - rewrite not_elem_of_cons in Hnot. destruct Hnot as [Hd Hnot].
    rewrite decide_False by done. by rewrite IH.
Qed.

Lemma sanitizeAttribute_middle done a todo :
  attr_name a ∉ attr_name <$> done →
  sanitizeAttribute (done ++ a :: todo) a
  = done ++ option_list (sanitizedAttribute a) ++ todo.
Proof.
  intros Hnot. unfold sanitizeAttribute, sanitizedAttribute.
  repeat (case_decide || case_bool_decide || case_match); simpl;
    rewrite ?removeAttribute_middle, ?setAttribute_middle by done; done.
Qed.

Lemma sanitizedAttribute_name a b :
  sanitizedAttribute a = Some b → attr_name b = attr_name a.
Proof.
  unfold sanitizedAttribute.
  repeat (case_decide || case_bool_decide || case_match); by intros [= <-].
Qed.

Lemma sanitize_fold_distinct todo : ∀ done,
  NoDup (attr_name <$> todo) →
  (∀ a, a ∈ todo → attr_name a ∉ attr_name <$> done) →
  foldl sanitizeAttribute (done ++ todo) todo = done ++ omap sanitizedAttribute todo.
Proof.
  induction todo as [|a todo IH]; intros done Hnodup Hfresh; simpl.
  - done.
  - rewrite fmap_cons in Hnodup. apply NoDup_cons in Hnodup as [Ha Hnodup].
    rewrite sanitizeAttribute_middle by (apply Hfresh; left).
    rewrite app_assoc, IH; [|done|].
    + rewrite <- app_assoc.
      by destruct (sanitizedAttribute a).
    + intros b Hb. rewrite fmap_app, elem_of_app. intros [Hin|Hin].
      * revert Hin. apply Hfresh. by right.
      * destruct (sanitizedAttribute a) as [a'|] eqn:Hsa; simpl in Hin.
        -- apply list_elem_of_singleton in Hin.
           rewrite (sanitizedAttribute_name _ _ Hsa) in Hin.
           apply Ha. rewrite <- Hin. by apply list_elem_of_fmap_2.
        -- by apply elem_of_nil in Hin.
Qed.

Lemma sanitizeElementAttributes_distinct attrs :
  NoDup (attr_name <$> attrs) →
  sanitizeElementAttributes attrs = omap sanitizedAttribute attrs.
Proof.
  intros Hnodup. unfold sanitizeElementAttributes.
  apply (sanitize_fold_distinct attrs []); [done|].
  intros a _. simpl. apply not_elem_of_nil.
Qed.

End SanitizerAttributeFacts.

Section SanitizerFacts.
Context `{Platform}.
Import Dom Sanitizer.

(** A name that begins with "on" still does once in lower case. *)
Lemma lower_on name :
  Js.startsWith name "on" = true → Js.startsWith (Js.toLowerCase name) "on" = true.
Proof.
  intros Hon. apply startsWith_cons in Hon as (rest & -> & Hon).
  apply startsWith_cons in Hon as (rest' & -> & _). reflexivity.
Qed.

Lemma no_handler_name name :
  isEventHandler name = false →
  Js.startsWith (Js.toLowerCase name) "on" = false ∧ Js.startsWith name "on" = false.
Proof.
  unfold isEventHandler. intros Hlower. split; [done|].
  destruct (Js.startsWith name "on") eqn:Hon; [|done].
  apply lower_on in Hon. congruence.
Qed.

Lemma sanitized_list_from l :
  (∀ c, c ∈ l → isComment c = false → SanitizedAs c (sanitizedNode c)) →
  SanitizedList l (sanitizedChildren l).
Proof.
  unfold sanitizedChildren. induction l as [|c l IHl]; intros Hall; simpl;
    [constructor|].
  assert (SanitizedList l (sanitizedNode <$> removeComments l)) as Hl.
  { apply IHl. intros x Hx. apply Hall. by right. }
  destruct (isComment c) eqn:Hcc.
  - destruct c; try done. by constructor.
  - simpl. constructor; [done| |done]. apply Hall; [by left|done].
Qed.

Lemma sanitized_relation n :
  ∀ node, nodeCount node ≤ n → isComment node = false →
          SanitizedAs node (sanitizedNode node).
Proof.
  induction n as [|n IH]; intros node Hn Hc.
  { pose proof (nodeCount_pos node). lia. }
  destruct node as [tag attrs children|data|data]; [| constructor | done].
  rewrite sanitizedNode_element. case_bool_decide as Hb.
  - by apply san_blocked.
  - apply san_kept; [done| |].
    + intros a Ha. by apply sanitizeElementAttributes_no_handlers in Ha.
    + apply sanitized_list_from. intros c Hin Hcc. apply IH; [|done].
      pose proof (nodeCount_children (Element tag attrs children)) as Hcount.
      rewrite Hcount in Hn.
      pose proof (sum_list_with_in c nodeCount children Hin). simpl in Hn. lia.
Qed.

Lemma sanitized_list_relation l : SanitizedList l (sanitizedChildren l).
Proof.
  apply sanitized_list_from. intros c _ Hcc.
  by apply (sanitized_relation (nodeCount c)).
Qed.

Lemma getNode_not_element p n tag attrs children :
  isElement n = false → getNode p n ≠ Some (Element tag attrs children).
Proof.
  destruct n; try done; intros _; destruct p as [|i p]; simpl; try done;
    by rewrite lookup_nil.
Qed.

(** Below a sanitized node there is no blocked element and no event-handler
    attribute. *)
Lemma sanitizedNode_clean p : ∀ n tag attrs children,
  getNode p (sanitizedNode n) = Some (Element tag attrs children) →
  isElement n = true →
  (Js.toUpperCase tag ∉ ["SCRIPT"; "IFRAME"; "OBJECT"; "EMBED"; "AUDIO"; "VIDEO"]) ∧
  (∀ a, a ∈ attrs →
        Js.startsWith (Js.toLowerCase (attr_name a)) "on" = false ∧
        Js.startsWith (attr_name a) "on" = false).
Proof.
  induction p as [|i p IH]; intros n tag attrs children Hget Hel;
    destruct n as [t a c| |]; try done;
    rewrite sanitizedNode_element in Hget; case_bool_decide as Hb.
  - injection Hget as <- <- <-. split.
    + vm_compute. intros Hin. repeat (apply elem_of_cons in Hin as [Hin|Hin]; [done|]).
      by apply elem_of_nil in Hin.
    + intros x Hx. repeat (apply elem_of_cons in Hx as [->|Hx]; [done|]).
      by apply elem_of_nil in Hx.
  - injection Hget as <- <- <-. split; [done|].
    intros x Hx. apply no_handler_name.
    by apply sanitizeElementAttributes_no_handlers in Hx.
  - exfalso. simpl in Hget. destruct i as [|i]; simpl in Hget; [|done].
    by eapply getNode_not_element in Hget.
  - simpl in Hget. unfold sanitizedChildren in Hget.
    rewrite list_lookup_fmap in Hget.
    destruct (removeComments c !! i) as [child|]; simpl in Hget; [|done].
    destruct (isElement child) eqn:Hchild.
    + by eapply IH.
    + exfalso. rewrite sanitizedNode_not_element in Hget by done.
      by eapply getNode_not_element in Hget.
Qed.

(** C4. On every tree the walk finishes. In its output each script,
    iframe, object, embed, audio and video element met by the walk (its tag
    name, put in upper case, is one of the six) has been replaced, where it
    stood, by a visible notice: a red-bordered [<pre
    class="blocked-html-warning">] whose text names the removed tag and quotes
    its markup; every other element is still in place under its own tag;
    comments are gone; and nowhere below the root is there one of the six
    elements or an attribute whose name begins with "on", as written or in
    lower case. *)
Theorem C4_sanitizer_blocks_active_content (root : Node) :
  ∃ out,
    sanitizeNodeTree root = Some out ∧
    SanitizedList (childNodes root) (childNodes out) ∧
    (∀ p tag attrs children,
       p ≠ [] →
       getNode p out = Some (Element tag attrs children) →
       (Js.toUpperCase tag ∉ ["SCRIPT"; "IFRAME"; "OBJECT"; "EMBED"; "AUDIO"; "VIDEO"]) ∧
       (∀ a, a ∈ attrs →
             Js.startsWith (Js.toLowerCase (attr_name a)) "on" = false ∧
             Js.startsWith (attr_name a) "on" = false)).
Proof.
  eexists. split; [apply sanitizeNodeTree_correct|]. split.
  - destruct root as [t a c| |]; simpl; try constructor.
    apply sanitized_list_relation.
  - intros p tag attrs children Hp Hget.
    destruct p as [|i p]; [done|]. simpl in Hget.
    assert (childNodes (withChildNodes (sanitizedChildren (childNodes root)) root)
            = sanitizedChildren (childNodes root)) as Hch by (by destruct root).
    rewrite Hch in Hget. unfold sanitizedChildren in Hget.
    rewrite list_lookup_fmap in Hget.
    destruct (removeComments (childNodes root) !! i) as [child|]; simpl in Hget; [|done].
    destruct (isElement child) eqn:Hchild.
    + by eapply sanitizedNode_clean.
    + exfalso. rewrite sanitizedNode_not_element in Hget by done.
      by eapply getNode_not_element in Hget.
Qed.

End SanitizerFacts.

Section UrlFacts.
Context `{Platform}.
Import Dom Sanitizer.

(** A text whose lower-case form begins with a character other than [#]
    is not empty and does not begin with [#]. *)
Lemma lower_first s c prefix :
  Js.startsWith (Js.toLowerCase s) (String c prefix) = true →
  c ≠ "#"%char →
  Js.truthy s = true ∧ Js.startsWith s "#" = false.
Proof.
  intros Hs Hc. destruct s as [|d s]; [done|]. split; [done|].
  cbn [Js.startsWith]. destruct (Ascii.eqb_spec "#" d) as [<-|]; [|done].
  exfalso. unfold Js.toLowerCase in Hs. cbn in Hs.
  apply andb_true_iff in Hs as [Hs _]. apply Ascii.eqb_eq in Hs. by subst c.
Qed.

Lemma trim_truthy url : Js.truthy (Js.trim url) = true → Js.truthy url = true.
Proof. by destruct url. Qed.

Lemma startsWith_truthy s c prefix :
  Js.startsWith s (String c prefix) = true → Js.truthy s = true.
Proof. by destruct s. Qed.

(** A script scheme is refused, whatever the letter case and the
    surrounding white space. *)
Lemma isSafeUrl_script url :
  Js.startsWith (Js.toLowerCase (Js.trim url)) "javascript:" = true ∨
  Js.startsWith (Js.toLowerCase (Js.trim url)) "vbscript:" = true →
  isSafeUrl url = false.
Proof.
  intros Hscript. unfold isSafeUrl.
  assert (Js.truthy (Js.trim url) = true ∧ Js.startsWith (Js.trim url) "#" = false)
    as [Htruthy Hhash].
  { destruct Hscript as [Hs|Hs]; by apply lower_first in Hs. }
  rewrite (trim_truthy _ Htruthy), Htruthy, Hhash. cbn [negb orb].
  destruct Hscript as [-> | ->]; [done|]. by rewrite orb_true_r.
Qed.

(** A [data:] URL is accepted exactly for images and PDF documents. *)
Lemma isSafeUrl_data url :
  Js.startsWith (Js.toLowerCase (Js.trim url)) "data:" = true →
  isSafeUrl url =
  Js.startsWith (Js.toLowerCase (Js.trim url)) "data:image/"
  || Js.startsWith (Js.toLowerCase (Js.trim url)) "data:application/pdf".
Proof.
  intros Hdata. unfold isSafeUrl.
  destruct (lower_first _ _ _ Hdata) as [Htruthy Hhash]; [done|].
  rewrite (trim_truthy _ Htruthy), Htruthy, Hhash. cbn [negb orb].
  rewrite Hdata.
  set (lower := Js.toLowerCase (Js.trim url)) in *. clearbody lower.
  apply startsWith_cons in Hdata as (r1 & -> & Hdata).
  apply startsWith_cons in Hdata as (r2 & -> & Hdata).
  apply startsWith_cons in Hdata as (r3 & -> & Hdata).
  apply startsWith_cons in Hdata as (r4 & -> & Hdata).
  apply startsWith_cons in Hdata as (rest & -> & _).
  destruct rest as [|c rest]; [done|]. cbn [Js.startsWith].
  change (Ascii.eqb "j" "d") with false. change (Ascii.eqb "v" "d") with false.
  change (Ascii.eqb "d" "d") with true. change (Ascii.eqb "a" "a") with true.
  change (Ascii.eqb "t" "t") with true. change (Ascii.eqb ":" ":") with true.
  cbn [andb orb].
  destruct (Ascii.eqb_spec "t" c) as [<-|]; [|done].
  change (Ascii.eqb "i" "t") with false. change (Ascii.eqb "a" "t") with false.
  cbn [andb orb].
  match goal with |- (if ?b then _ else _) = _ => by destruct b end.
Qed.

(** Anything else goes by the protocol the URL parser reports. *)
Lemma isSafeUrl_protocol url :
  Js.truthy (Js.trim url) = true →
  Js.startsWith (Js.trim url) "#" = false →
  Js.startsWith (Js.toLowerCase (Js.trim url)) "javascript:" = false →
  Js.startsWith (Js.toLowerCase (Js.trim url)) "vbscript:" = false →
  Js.startsWith (Js.toLowerCase (Js.trim url)) "data:" = false →
  isSafeUrl url =
  match urlProtocol (Js.trim url) with
  | Some protocol =>
      bool_decide (protocol ∈ ["http:"; "https:"; "mailto:"; "tel:";
                               "chrome-extension:"; "file:"])
  | None => false
  end.
Proof.
  unfold isSafeUrl. intros Htruthy -> -> -> Hdata.
  rewrite (trim_truthy _ Htruthy), Htruthy.
  cbn [negb orb]. rewrite Hdata.
  assert (Js.startsWith (Js.toLowerCase (Js.trim url)) "data:text/javascript" = false)
    as ->; [|done].
  destruct (Js.startsWith _ "data:text/javascript") eqn:Hjs; [|done].
  apply startsWith_cons in Hjs as (r1 & Hr1 & Hjs). rewrite Hr1 in Hdata.
  apply startsWith_cons in Hjs as (r2 & -> & Hjs).
  apply startsWith_cons in Hjs as (r3 & -> & Hjs).
  apply startsWith_cons in Hjs as (r4 & -> & Hjs).
  apply startsWith_cons in Hjs as (rest & -> & _).
  by vm_compute in Hdata.
Qed.

Lemma NoDup_fmap_eq {A B} (f : A → B) (l : list A) x y :
  NoDup (f <$> l) → x ∈ l → y ∈ l → f x = f y → x = y.
Proof.
  induction l as [|z l IH]; [by intros _ ?%elem_of_nil|].
  rewrite fmap_cons, NoDup_cons, !elem_of_cons.
  intros [Hz Hl] [->|Hx] [->|Hy] Hf; auto.
  - exfalso. apply Hz. rewrite Hf. by apply list_elem_of_fmap_2.
  - exfalso. apply Hz. rewrite <- Hf. by apply list_elem_of_fmap_2.
Qed.

(** What becomes of an attribute that is decided on its own. *)
Lemma sanitized_member attrs a :
  NoDup (attr_name <$> attrs) → a ∈ attrs →
  match sanitizedAttribute a with
  | Some a' =>
      a' ∈ sanitizeElementAttributes attrs ∧
      ∀ b, b ∈ sanitizeElementAttributes attrs → attr_name b = attr_name a → b = a'
  | None =>
      ∀ b, b ∈ sanitizeElementAttributes attrs → attr_name b ≠ attr_name a
  end.
Proof.
  intros Hnodup Ha. rewrite sanitizeElementAttributes_distinct by done.
  assert (∀ b, b ∈ omap sanitizedAttribute attrs → attr_name b = attr_name a →
               sanitizedAttribute a = Some b) as Hsame.
  { intros b (a' & Ha' & Hsa)%list_elem_of_omap Hname.
    rewrite (sanitizedAttribute_name _ _ Hsa) in Hname.
    by rewrite (NoDup_fmap_eq attr_name attrs a a'). }
  destruct (sanitizedAttribute a) as [a'|] eqn:Hsa.
  - split.
    + apply list_elem_of_omap. eauto.
    + intros b Hb Hname. specialize (Hsame b Hb Hname). congruence.
  - intros b Hb Hname. specialize (Hsame b Hb Hname). congruence.
Qed.

(** C3, as amended. On an element (attribute names distinct), an [href] or
    [xlink:href] attribute whose value is not blank is never kept as it is:
    whatever its scheme, [javascript:] and [https:] alike, its value becomes
    "#"; a blank one is removed. The allow-list governs the other URL
    attributes ([src], [action], [formaction], [poster], [data]): kept
    unchanged when [isSafeUrl] accepts the value, removed otherwise. And
    [isSafeUrl], which reads the value without the white space around it and
    without regard to letter case, accepts a blank value and a fragment
    ([#...]), refuses [javascript:] and [vbscript:],
    accepts a [data:] URL exactly for [data:image/] and
    [data:application/pdf], and otherwise accepts exactly the protocols
    http, https, mailto, tel, chrome-extension and file. *)
Theorem C3_href_defused_other_urls_allow_listed (attrs : list Attr) (a : Attr) :
  NoDup (attr_name <$> attrs) →
  a ∈ attrs →
  let name := Js.toLowerCase (attr_name a) in
  let out := sanitizeElementAttributes attrs in
  ((name = "href" ∨ name = "xlink:href") →
     (Js.trim (attr_value a) ≠ EmptyString →
        mkAttr (attr_name a) "#" ∈ out ∧
        ∀ b, b ∈ out → attr_name b = attr_name a → attr_value b = "#") ∧
     (Js.trim (attr_value a) = EmptyString →
        ∀ b, b ∈ out → attr_name b ≠ attr_name a))
  ∧ (name ∈ ["src"; "action"; "formaction"; "poster"; "data"] →
     (isSafeUrl (attr_value a) = true →
        a ∈ out ∧ ∀ b, b ∈ out → attr_name b = attr_name a → b = a) ∧
     (isSafeUrl (attr_value a) = false →
        ∀ b, b ∈ out → attr_name b ≠ attr_name a))
  ∧ (∀ url,
       Js.trim url = EmptyString ∨ Js.startsWith (Js.trim url) "#" = true →
       isSafeUrl url = true)
  ∧ (∀ url,
       Js.startsWith (Js.toLowerCase (Js.trim url)) "javascript:" = true ∨
       Js.startsWith (Js.toLowerCase (Js.trim url)) "vbscript:" = true →
       isSafeUrl url = false)
  ∧ (∀ url,
       Js.startsWith (Js.toLowerCase (Js.trim url)) "data:" = true →
       isSafeUrl url =
       Js.startsWith (Js.toLowerCase (Js.trim url)) "data:image/"
       || Js.startsWith (Js.toLowerCase (Js.trim url)) "data:application/pdf")
  ∧ (∀ url,
       Js.trim url ≠ EmptyString →
       Js.startsWith (Js.trim url) "#" = false →
       Js.startsWith (Js.toLowerCase (Js.trim url)) "javascript:" = false →
       Js.startsWith (Js.toLowerCase (Js.trim url)) "vbscript:" = false →
       Js.startsWith (Js.toLowerCase (Js.trim url)) "data:" = false →
       isSafeUrl url =
       match urlProtocol (Js.trim url) with
       | Some protocol =>
           bool_decide (protocol ∈ ["http:"; "https:"; "mailto:"; "tel:";
                                    "chrome-extension:"; "file:"])
       | None => false
       end).
Proof.
  intros Hnodup Ha name out.
  pose proof (sanitized_member attrs a Hnodup Ha) as Hmem.
  fold out in Hmem. unfold sanitizedAttribute in Hmem. fold name in Hmem.
  assert (∀ v, Js.truthy v && Js.truthy (Js.trim v) = Js.truthy (Js.trim v)) as Hblank.
  { intros v. destruct (Js.truthy (Js.trim v)) eqn:Ht.
    - by rewrite (trim_truthy _ Ht).
    - by rewrite andb_false_r. }
  split_and!.
  - intros Hhref.
    assert (Js.startsWith name "on" = false) as Hon
      by (by destruct Hhref as [-> | ->]).
    assert (bool_decide (name ∈ urlAttributes) = true) as Hurl
      by (by destruct Hhref as [-> | ->]).
    assert (name ≠ "srcset") as Hsrcset
      by (by destruct Hhref as [-> | ->]).
    rewrite Hon, Hurl in Hmem.
    rewrite decide_False in Hmem by done. rewrite decide_True in Hmem by done.
    rewrite Hblank in Hmem.
    split; intros Hvalue.
    + assert (Js.truthy (Js.trim (attr_value a)) = true) as Ht
        by (by destruct (Js.trim (attr_value a))).
      rewrite Ht in Hmem.
      destruct Hmem as [Hin Huniq]. split; [done|].
      intros b Hb Hname. by rewrite (Huniq b Hb Hname).
    + by rewrite Hvalue in Hmem.
  - intros Hname.
    assert (Js.startsWith name "on" = false ∧
            bool_decide (name ∈ urlAttributes) = true ∧
            name ≠ "srcset" ∧ ¬ (name = "href" ∨ name = "xlink:href"))
      as (Hon & Hurl & Hsrcset & Hhref).
    { repeat (apply elem_of_cons in Hname as [->|Hname];
              [split_and!; try done; by intros [?|?]|]).
      by apply elem_of_nil in Hname. }
    rewrite Hon, Hurl in Hmem.
    rewrite !decide_False in Hmem by done.
    split; intros Hsafe; rewrite Hsafe in Hmem; done.
  - intros url Hurl. unfold isSafeUrl.
    destruct (Js.truthy url); [|done]. cbn [negb].
    destruct Hurl as [-> | ->]; [done|]. by rewrite orb_true_r.
  - apply isSafeUrl_script.
  - apply isSafeUrl_data.
  - intros url Hne. apply isSafeUrl_protocol. by destruct (Js.trim url).
Qed.

End UrlFacts.

Section SanitizerExamples.
Import Dom Sanitizer Samples.
Existing Instance samplePlatform.

(** A link to an allow-listed URL does not come out unchanged. *)
Lemma C3_counterexample :
  isSafeUrl "https://example.com" = true ∧
  sanitizeElementAttributes [mkAttr "href" "https://example.com"]
  = [mkAttr "href" "#"] ∧
  mkAttr "href" "https://example.com"
  ∉ sanitizeElementAttributes [mkAttr "href" "https://example.com"].
Proof.
  split_and!; [reflexivity..|].
  intros Hin. apply list_elem_of_singleton in Hin. discriminate Hin.
Qed.

Lemma C3_witness :
  mkAttr "href" "#" ∈ sanitizeElementAttributes sampleAttributes ∧
  (∀ b, b ∈ sanitizeElementAttributes sampleAttributes →
        attr_name b = "href" → attr_value b = "#").
Proof.
  destruct (C3_href_defused_other_urls_allow_listed sampleAttributes
              (mkAttr "href" "javascript:alert(1)")) as (Hhref & _).
  - vm_compute. repeat constructor; vm_compute;
      intros Hin; repeat (apply elem_of_cons in Hin as [Hin|Hin]; [discriminate Hin|]);
      by apply elem_of_nil in Hin.
  - apply list_elem_of_In. simpl. auto.
  - apply Hhref; [by left|by vm_compute].
Defined.

(** A no-break space in front of a script link hides nothing: the link is
    refused as a source, and a link made of a no-break space only is blank. *)
Example no_break_space_is_white_space :
  let nbsp := Js.utf8 160 in
  isSafeUrl (nbsp +:+ "javascript:alert(1)") = false ∧
  sanitizeElementAttributes [mkAttr "src" (nbsp +:+ "JavaScript:alert(1)")] = [] ∧
  sanitizeElementAttributes [mkAttr "href" nbsp] = [].
Proof. split_and!; reflexivity. Qed.

Example sanitize_sample_attributes :
  sanitizeElementAttributes sampleAttributes =
  [mkAttr "href" "#"; mkAttr "class" "note"; mkAttr "poster" "data:application/pdf;base64,AA"].
Proof. reflexivity. Qed.

Example sanitize_sample_tree :
  sanitizeNodeTree sampleTree = Some sampleTreeSanitized.
Proof. reflexivity. Qed.

(** Letter case does not hide an element, and neither does a dotless i,
    which upper case turns into I. *)
Example blocked_in_any_letter_case :
  let video := "v" +:+ Js.utf8 305 +:+ "deo" in
  sanitizeNodeTree (fragment [Element "ScRiPt" [] []; Element video [] []]) =
  Some (fragment [sampleNotice "script" "<ScRiPt>"; sampleNotice "video" ("<" +:+ video +:+ ">")]).
Proof. vm_compute. reflexivity. Qed.

Lemma C4_witness :
  ∃ out, sanitizeNodeTree sampleTree = Some out ∧
         SanitizedList (childNodes sampleTree) (childNodes out).
Proof.
  destruct (C4_sanitizer_blocks_active_content sampleTree) as (out & Hrun & Hrel & _).
  exists out. split; [exact Hrun|exact Hrel].
Defined.

End SanitizerExamples.

(** ** The rasterization callbacks *)

Section ExtractionFacts.
Context `{Platform}.
Import Tasks Wire Extraction.

Local Abbreviation QUOTE := (String "034"%char EmptyString) (only parsing).

(** [Math.round]: the integer within a half below and less than a half
    above. *)
Lemma round_half_up (x : Q) :
  (inject_Z (Qfloor (x + (1 # 2))) - (1 # 2) <= x ∧
   x < inject_Z (Qfloor (x + (1 # 2))) + (1 # 2))%Q.
Proof.
  pose proof (Qfloor_le (x + (1 # 2))) as Hle.
  pose proof (Qlt_floor (x + (1 # 2))) as Hlt.
  rewrite inject_Z_plus in Hlt. change (inject_Z 1) with 1%Q in Hlt.
  split; lra.
Qed.

Lemma round_quarter (z : Z) : Qfloor (inject_Z z / 4 + (1 # 2)) = ((z + 2) / 4)%Z.
Proof.
  assert ((inject_Z z / 4 + (1 # 2)) == (z + 2) # 4)%Q as Heq.
  { unfold Qeq, Qdiv, Qmult, Qplus, Qinv, inject_Z. simpl. lia. }
  by rewrite (Qfloor_comp _ _ Heq).
Qed.

(** C9. When a diagram or an HTML block is rasterized successfully and its
    placeholder is still in the document, the callback resolves and puts in
    the placeholder's place the image element written out below, whose
    [width] attribute is [w] followed by [px], where [w] is
    [Math.round(width / 4)]: the integer that lies within a half below and
    less than a half above a quarter of the backend's width, which for a
    whole-number width is [(width + 2) / 4] rounded down. The width is any
    finite number whose quarter does not exceed 2^53, up to where the digits
    of a number are printed in full. *)
Theorem C9_display_width_is_quarter (png : PngResult) (data : TaskData)
    (code : string) (d : Document) (k : nat) (width : Q) :
  data_code data = Some code →
  d !! k = Some (Placeholder (data_id data)) →
  (∀ j, j < k → d !! j ≠ Some (Placeholder (data_id data))) →
  png_width png = Js.Finite width →
  (Z.abs (Qfloor (width / 4 + (1 # 2))) ≤ 2 ^ 53)%Z →
  let w := Qfloor (width / 4 + (1 # 2)) in
  (inject_Z w - (1 # 2) <= width / 4 ∧ width / 4 < inject_Z w + (1 # 2))%Q ∧
  (∀ z : Z, width = inject_Z z → w = ((z + 2) / 4)%Z) ∧
  (renderMermaidToPng code = Js.Fulfilled (Some png) →
   mermaidCallback data d =
     (<[k := Html
              ("<div class=" +:+ QUOTE +:+ "mermaid-diagram" +:+ QUOTE +:+ " style="
               +:+ QUOTE +:+ "text-align: center; margin: 20px 0;" +:+ QUOTE +:+ ">
                  <img src=" +:+ QUOTE +:+ "data:image/png;base64," +:+ png_base64 png
               +:+ QUOTE +:+ " alt=" +:+ QUOTE +:+ "Mermaid diagram" +:+ QUOTE
               +:+ " width=" +:+ QUOTE +:+ pretty w +:+ "px" +:+ QUOTE +:+ " />
                </div>")]> d,
      Js.Ok ())) ∧
  (renderHtmlToPng code = Js.Fulfilled (Some png) →
   truthyOpt (png_error png) = false →
   Js.startsWith (Js.trim (png_base64 png)) "iVBOR" = true →
   htmlCallback data d =
     (<[k := Html
              ("<div class=" +:+ QUOTE +:+ "html-diagram" +:+ QUOTE +:+ " style="
               +:+ QUOTE +:+ "text-align: center; margin: 20px 0;" +:+ QUOTE +:+ ">
                <img src=" +:+ QUOTE +:+ "data:image/png;base64,"
               +:+ Js.trim (png_base64 png)
               +:+ QUOTE +:+ " alt=" +:+ QUOTE +:+ "HTML diagram" +:+ QUOTE
               +:+ " width=" +:+ QUOTE +:+ pretty w +:+ "px" +:+ QUOTE +:+ " />
              </div>")]> d,
      Js.Ok ())).
Proof.
  intros Hcode Hk Hfirst Hwidth _ w.
  pose proof (getElementById_first _ _ _ Hk Hfirst) as Hfind.
  split; [apply round_half_up|]. split; [|split].
  - intros z ->. apply round_quarter.
  - intros Hrender. unfold mermaidCallback. cbv zeta.
    rewrite Hcode. change (default EmptyString (Some code)) with code.
    rewrite Hrender, Hfind. unfold setOuterHTML, mermaidImage, displayWidth.
    rewrite Hwidth. cbn [Js.quarter Js.Math_round Js.numberToString].
    rewrite Qfloor_Z. fold w. unfold Js.quoted, Js.dq.
    by rewrite !app_assoc_s.
  - intros Hrender Herr Hpng. unfold htmlCallback. cbv zeta.
    rewrite Hcode. change (default EmptyString (Some code)) with code.
    rewrite Hrender, Hfind.
    cbn [mbind option_bind].
    pose proof (startsWith_truthy _ _ _ Hpng) as Htrim.
    rewrite (trim_truthy _ Htrim), Herr, Htrim, Hpng. cbn [negb orb].
    unfold setOuterHTML, htmlImage, displayWidth.
    rewrite Hwidth. cbn [Js.quarter Js.Math_round Js.numberToString].
    rewrite Qfloor_Z. fold w. unfold Js.quoted, Js.dq.
    by rewrite !app_assoc_s.
Qed.

End ExtractionFacts.

Section ExtractionExamples.
Import Tasks Wire Extraction Samples.
Existing Instance samplePlatform.

Local Abbreviation QUOTE := (String "034"%char EmptyString) (only parsing).

Example displayWidth_samples :
  displayWidth (Js.Finite 800) = Js.Finite 200 ∧
  displayWidth (Js.Finite 801) = Js.Finite 200 ∧
  displayWidth (Js.Finite 802) = Js.Finite 201 ∧
  displayWidth (Js.Finite (1603 # 2)) = Js.Finite 200 ∧
  displayWidth (Js.Finite 0) = Js.Finite 0 ∧
  Js.numberToString (displayWidth Js.NaN) = "NaN".
Proof. by vm_compute. Qed.

Lemma C9_witness :
  mermaidCallback (task_data (sampleTask 1 imageCallback ready))
    [Placeholder "async-placeholder-1"] =
  ([Html ("<div class=" +:+ QUOTE +:+ "mermaid-diagram" +:+ QUOTE +:+ " style="
          +:+ QUOTE +:+ "text-align: center; margin: 20px 0;" +:+ QUOTE +:+ ">
                  <img src=" +:+ QUOTE +:+ "data:image/png;base64,iVBORw0KGgo="
          +:+ QUOTE +:+ " alt=" +:+ QUOTE +:+ "Mermaid diagram" +:+ QUOTE
          +:+ " width=" +:+ QUOTE +:+ "200px" +:+ QUOTE +:+ " />
                </div>")],
   Js.Ok ()).
Proof.
  destruct (C9_display_width_is_quarter samplePng
              (task_data (sampleTask 1 imageCallback ready)) "graph TD"
              [Placeholder "async-placeholder-1"] 0 800) as (_ & _ & Hmermaid & _).
  - reflexivity.
  - reflexivity.
  - intros j Hj. lia.
  - reflexivity.
  - by vm_compute.
  - apply Hmermaid. reflexivity.
Defined.

End ExtractionExamples.

(** ** The matcher *)

Section RegexFacts.
Import Regex.

Lemma starLoop_advances {R : Type} (ma : nat → string → Captures → Cont R → option R)
    (k : Cont R) (fuel : nat) :
  advances ma →
  ∀ pos s caps x,
    starLoop ma k fuel pos s caps = Some x →
    ∃ pos' caps',
      pos ≤ pos' ∧ pos' ≤ pos + String.length s ∧
      k pos' (dropS (pos' - pos) s) caps' = Some x.
Proof.
  intros Hma. induction fuel as [|fuel IH]; intros pos s caps x Hrun; simpl in Hrun.
  - exists pos, caps. rewrite Nat.sub_diag. simpl. split_and!; [lia..|done].
  - destruct (ma pos s caps _) as [y|] eqn:Hround.
    + injection Hrun as ->.
      apply Hma in Hround as (pos1 & caps1 & Hle1 & Hbound1 & Hnext).
      destruct (pos <? pos1)%nat; [|done].
      apply IH in Hnext as (pos2 & caps2 & Hle2 & Hbound2 & Hk).
      rewrite length_dropS in Hbound2. rewrite dropS_dropS in Hk.
      exists pos2, caps2. split_and!; [lia..|].
      by replace (pos2 - pos) with (pos1 - pos + (pos2 - pos1)) by lia.
    + exists pos, caps. rewrite Nat.sub_diag. simpl. split_and!; [lia..|done].
Qed.

Lemma matchRe_advances {R : Type} (r : Re) : advances (matchRe (R := R) r).
Proof.
  induction r as [|ok|a IHa b IHb|a IHa b IHb|a IHa|n a IHa| |];
    intros pos s caps k x Hrun; simpl in Hrun.
  - exists pos, caps. rewrite Nat.sub_diag. simpl. split_and!; [lia..|done].
  - destruct s as [|c s]; [done|]. destruct (ok c); [|done].
    exists (S pos), caps. replace (S pos - pos) with 1 by lia. simpl.
    split_and!; [lia..|done].
  - apply IHa in Hrun as (pos1 & caps1 & Hle1 & Hbound1 & Hnext).
    apply IHb in Hnext as (pos2 & caps2 & Hle2 & Hbound2 & Hk).
    rewrite length_dropS in Hbound2. rewrite dropS_dropS in Hk.
    exists pos2, caps2. split_and!; [lia..|].
    by replace (pos2 - pos) with (pos1 - pos + (pos2 - pos1)) by lia.
  - destruct (matchRe a pos s caps k) as [y|] eqn:Ha.
    + injection Hrun as ->. by apply IHa in Ha.
    + by apply IHb in Hrun.
  - by eapply starLoop_advances.
  - apply IHa in Hrun as (pos1 & caps1 & Hle1 & Hbound1 & Hk). eauto 10.
  - destruct (pos =? 0)%nat; [|done].
    exists pos, caps. rewrite Nat.sub_diag. simpl. split_and!; [lia..|done].
  - destruct s; [|done].
    exists pos, caps. rewrite Nat.sub_diag. simpl. split_and!; [lia..|done].
Qed.

Lemma searchFrom_bounds r s : ∀ index m,
  searchFrom r index s = Some m →
  index ≤ m_index m ∧ m_index m ≤ m_end m ∧ m_end m ≤ index + String.length s.
Proof.
  induction s as [|c s IH]; intros index m; simpl;
    destruct (matchRe r index _ [] _) as [m'|] eqn:Hm.
  - intros [= ->].
    apply matchRe_advances in Hm as (pos' & caps' & Hle & Hbound & [= <-]).
    simpl in *. lia.
  - done.
  - intros [= ->].
    apply matchRe_advances in Hm as (pos' & caps' & Hle & Hbound & [= <-]).
    simpl in *. lia.
  - intros Hrest. apply IH in Hrest. lia.
Qed.

Lemma exec_bounds r input lastIndex m :
  exec r input lastIndex = Some m →
  lastIndex ≤ m_index m ∧ m_index m ≤ m_end m ∧ m_end m ≤ String.length input.
Proof.
  unfold exec. destruct (lastIndex <=? String.length input)%nat eqn:Hle; [|done].
  apply Nat.leb_le in Hle. intros Hm%searchFrom_bounds.
  rewrite length_dropS in Hm. lia.
Qed.

(** A pattern that begins with a character never matches the empty
    string. *)
Lemma searchFrom_nonempty ok a b s : ∀ index m,
  searchFrom (Seq (Seq (Chr ok) a) b) index s = Some m → m_index m < m_end m.
Proof.
  assert (∀ index s m,
            matchRe (Seq (Seq (Chr ok) a) b) index s []
              (λ pos' _ caps, Some (mkMatch index pos' caps)) = Some m →
            m_index m < m_end m) as Hhere.
  { intros index s' m Hm. simpl in Hm.
    destruct s' as [|c s']; [done|]. destruct (ok c); [|done].
    apply matchRe_advances in Hm as (pos1 & caps1 & Hle1 & _ & Hm).
    apply matchRe_advances in Hm as (pos2 & caps2 & Hle2 & _ & [= <-]).
    simpl. lia. }
  induction s as [|c s IH]; intros index m; cbn [searchFrom];
    match goal with
    | |- context [matchRe ?r ?i ?s' ?c' ?k] =>
        destruct (matchRe r i s' c' k) as [m'|] eqn:Hm
    end; try done.
  - intros [= ->]. by eapply Hhere.
  - apply IH.
Qed.

(** What a scan finds is determined by the pattern, the input and the
    offset it starts from. *)
Lemma Scan_deterministic r input lastIndex found found' :
  Scan r input lastIndex found → Scan r input lastIndex found' → found = found'.
Proof.
  intros Hscan. revert found'.
  induction Hscan as [lastIndex Hnone|lastIndex m rest Hexec _ IH]; intros found' Hscan'.
  - inversion Hscan' as [? Hnone'|? m' rest' Hexec' _]; subst; [done|congruence].
  - inversion Hscan' as [? Hnone'|? m' rest' Hexec' Hrest']; subst; [congruence|].
    rewrite Hexec in Hexec'. injection Hexec' as <-. f_equal. by apply IH.
Qed.

End RegexFacts.

(** ** What the patterns match *)

Section PatternFacts.
Import Regex Shape.

Lemma is_Some_or {A} (x y : option A) :
  is_Some (match x with Some v => Some v | None => y end) ↔ is_Some x ∨ is_Some y.
Proof.
  destruct x; simpl; split; eauto.
  intros [[? [=]]|?]; done.
Qed.

Lemma starLoop_sound {R} (r : Re) :
  Sound (matchRe (R := R) r) r → ∀ (k : Cont R) fuel pos s caps out,
    starLoop (matchRe r) k fuel pos s caps = Some out →
    ∃ a rest caps',
      s = a +:+ rest ∧ Matches (Star r) pos a rest caps caps' ∧
      k (pos + String.length a) rest caps' = Some out.
Proof.
  intros Hr k. induction fuel as [|fuel IH]; intros pos s caps out Hrun; simpl in Hrun.
  { exists EmptyString, s, caps. rewrite Nat.add_0_r. split_and!; [done|constructor|done]. }
  destruct (matchRe r pos s caps _) as [out'|] eqn:Hit.
  - injection Hrun as ->. apply Hr in Hit as (x & rest1 & c1 & -> & Hx & Hk).
    destruct (pos <? pos + String.length x) eqn:Hlt; [|done].
    apply Nat.ltb_lt in Hlt.
    apply IH in Hk as (y & rest & c2 & -> & Hy & Hk).
    exists (x +:+ y), rest, c2. rewrite app_assoc_s, string_length_app, Nat.add_assoc.
    split_and!; [done| |done].
    eapply M_star_cons; [|done..]. apply length_pos_nonempty. lia.
  - exists EmptyString, s, caps. rewrite Nat.add_0_r. split_and!; [done|constructor|done].
Qed.

Theorem matchRe_sound {R} (r : Re) : Sound (matchRe (R := R) r) r.
Proof.
  induction r as [|ok|a IHa b IHb|a IHa b IHb|a IHa|n a IHa| |];
    intros k pos s caps out Hrun; cbn [matchRe] in Hrun.
  - exists EmptyString, s, caps. rewrite Nat.add_0_r. split_and!; [done|constructor|done].
  - destruct s as [|ch s]; [done|]. destruct (ok ch) eqn:Hok; [|done].
    exists (String ch EmptyString), s, caps. simpl. rewrite Nat.add_1_r.
    split_and!; [done|by constructor|done].
  - apply IHa in Hrun as (x & rest1 & c1 & -> & Hx & Hrun).
    apply IHb in Hrun as (y & rest & c2 & -> & Hy & Hrun).
    exists (x +:+ y), rest, c2. rewrite app_assoc_s, string_length_app, Nat.add_assoc.
    split_and!; [done|by econstructor|done].
  - destruct (matchRe a pos s caps k) as [out'|] eqn:Ha.
    + injection Hrun as ->. apply IHa in Ha as (x & rest & c' & -> & Hx & Hk).
      exists x, rest, c'. split_and!; [done|by apply M_alt_l|done].
    + apply IHb in Hrun as (x & rest & c' & -> & Hx & Hk).
      exists x, rest, c'. split_and!; [done|by apply M_alt_r|done].
  - by apply starLoop_sound in Hrun.
  - apply IHa in Hrun as (x & rest & c1 & -> & Hx & Hk).
    exists x, rest, ((n, (pos, pos + String.length x)) :: c1).
    split_and!; [done|by constructor|done].
  - destruct (pos =? 0) eqn:Hpos; [|done]. apply Nat.eqb_eq in Hpos as ->.
    exists EmptyString, s, caps. split_and!; [done|constructor|done].
  - destruct s; [|done]. exists EmptyString, EmptyString, caps. rewrite Nat.add_0_r.
    split_and!; [done|constructor|done].
Qed.

Lemma Matches_star_inv r pos a rest c c' :
  Matches (Star r) pos a rest c c' →
  (a = EmptyString ∧ c' = c) ∨
  ∃ x y c1, a = x +:+ y ∧ x ≠ EmptyString ∧ Matches r pos x (y +:+ rest) c c1 ∧
            Matches (Star r) (pos + String.length x) y rest c1 c'.
Proof. inversion 1; subst; [by left|right; eauto 10]. Qed.

Lemma starLoop_complete {R} (r : Re) :
  Complete (matchRe (R := R) r) r → ∀ (k : Cont R) fuel pos a rest caps caps',
    String.length (a +:+ rest) ≤ fuel →
    Matches (Star r) pos a rest caps caps' →
    is_Some (k (pos + String.length a) rest caps') →
    is_Some (starLoop (matchRe r) k fuel pos (a +:+ rest) caps).
Proof.
  intros Hr k. induction fuel as [|fuel IH]; intros pos a rest caps caps' Hfuel Hstar Hk.
  - apply Matches_star_inv in Hstar as [[-> ->]|(x & y & c1 & -> & Hne & _)].
    + simpl. by rewrite Nat.add_0_r in Hk.
    + apply length_pos_nonempty in Hne. rewrite !string_length_app in Hfuel. lia.
  - simpl. apply is_Some_or.
    apply Matches_star_inv in Hstar as [[-> ->]|(x & y & c1 & -> & Hne & Hx & Hy)].
    + right. by rewrite Nat.add_0_r in Hk.
    + left. rewrite app_assoc_s. eapply Hr; [exact Hx|].
      apply length_pos_nonempty in Hne.
      replace (pos <? pos + String.length x) with true
        by (symmetry; apply Nat.ltb_lt; lia).
      eapply IH; [|exact Hy|].
      * rewrite !string_length_app in Hfuel. rewrite string_length_app. lia.
      * by rewrite string_length_app, Nat.add_assoc in Hk.
Qed.

Theorem matchRe_complete {R} (r : Re) : Complete (matchRe (R := R) r) r.
Proof.
  induction r as [|ok|a IHa b IHb|a IHa b IHb|a IHa|n a IHa| |];
    intros k pos x rest caps caps' Hx Hk; cbn [matchRe].
  - inversion Hx; subst. by rewrite Nat.add_0_r in Hk.
  - inversion Hx as [|? ch ? ? ? Hok| | | | | | | |]; subst.
    rewrite app_cons, app_empty, Hok. simpl in Hk. by rewrite Nat.add_1_r in Hk.
  - inversion Hx as [| |? ? ? x1 x2 ? ? c1 ? H1 H2| | | | | | |]; subst.
    rewrite app_assoc_s. eapply IHa; [exact H1|].
    eapply IHb; [exact H2|]. by rewrite string_length_app, Nat.add_assoc in Hk.
  - apply is_Some_or. inversion Hx; subst; [left; by eapply IHa|right; by eapply IHb].
  - by eapply starLoop_complete.
  - inversion Hx; subst. eapply IHa; [done|]. done.
  - inversion Hx; subst. done.
  - inversion Hx; subst. by rewrite Nat.add_0_r in Hk.
Qed.

(** *** Searching *)

(** [searchFrom] returns the first offset from [index] on at which the
    pattern matches, with what it matches there. *)
Lemma searchFrom_sound r : ∀ s index m,
  searchFrom r index s = Some m →
  ∃ pre a rest,
    s = pre +:+ a +:+ rest ∧
    Matches r (index + String.length pre) a rest [] (m_groups m) ∧
    m_index m = index + String.length pre ∧
    m_end m = index + String.length pre + String.length a.
Proof.
  induction s as [|ch s IH]; intros index m Hrun; cbn [searchFrom] in Hrun.
  - destruct (matchRe r index EmptyString [] _) as [m'|] eqn:Hhere; [|done].
    injection Hrun as ->. apply matchRe_sound in Hhere as (a & rest & caps & Heq & Ha & [= <-]).
    exists EmptyString, a, rest. rewrite app_empty, Nat.add_0_r. done.
  - destruct (matchRe r index (String ch s) [] _) as [m'|] eqn:Hhere.
    + injection Hrun as ->.
      apply matchRe_sound in Hhere as (a & rest & caps & Heq & Ha & [= <-]).
      exists EmptyString, a, rest. rewrite app_empty, Nat.add_0_r. done.
    + apply IH in Hrun as (pre & a & rest & -> & Ha & Hi & He).
      exists (String ch pre), a, rest. rewrite app_cons. simpl.
      rewrite Nat.add_succ_r. done.
Qed.

Lemma searchFrom_complete r : ∀ pre index a rest caps,
  Matches r (index + String.length pre) a rest [] caps →
  ∃ m, searchFrom r index (pre +:+ a +:+ rest) = Some m ∧
       m_index m ≤ index + String.length pre.
Proof.
  induction pre as [|ch pre IH]; intros index a rest caps Ha.
  - rewrite app_empty. simpl in Ha. rewrite Nat.add_0_r in Ha.
    assert (is_Some (matchRe r index (a +:+ rest) []
                       (λ pos' _ caps0, Some (mkMatch index pos' caps0)))) as [m Hm].
    { eapply matchRe_complete; [exact Ha|]. by eexists. }
    exists m. assert (searchFrom r index (a +:+ rest) = Some m) as Hrun.
    { destruct (a +:+ rest); cbn [searchFrom]; by rewrite Hm. }
    split; [done|].
    apply matchRe_sound in Hm as (? & ? & ? & _ & _ & [= <-]). simpl. lia.
  - rewrite app_cons. cbn [searchFrom].
    destruct (matchRe r index _ [] _) as [m|] eqn:Hhere.
    + exists m. split; [done|].
      apply matchRe_sound in Hhere as (? & ? & ? & _ & _ & [= <-]). simpl. lia.
    + destruct (IH (S index) a rest caps) as (m & Hrun & Hle).
      { simpl in Ha. by rewrite Nat.add_succ_r in Ha. }
      exists m. split; [done|]. simpl. lia.
Qed.

(** [exec] returns the first match that begins at [lastIndex] or later:
    its text [a] stands in the input after [pre], and nothing before it
    matches from [lastIndex] on. *)
Lemma exec_sound r input lastIndex m :
  exec r input lastIndex = Some m →
  ∃ pre a rest,
    input = pre +:+ a +:+ rest ∧
    lastIndex ≤ String.length pre ∧
    Matches r (String.length pre) a rest [] (m_groups m) ∧
    m_index m = String.length pre ∧
    m_end m = String.length pre + String.length a ∧
    matched input m = a.
Proof.
  unfold exec. destruct (lastIndex <=? String.length input) eqn:Hle; [|done].
  apply Nat.leb_le in Hle. intros Hrun.
  apply searchFrom_sound in Hrun as (pre & a & rest & Heq & Ha & Hi & He).
  exists (takeS lastIndex input +:+ pre), a, rest.
  assert (String.length (takeS lastIndex input +:+ pre) = lastIndex + String.length pre)
    as Hlen by (by rewrite string_length_app, length_takeS).
  rewrite Hlen. split_and!; [|lia|done..|].
  - by rewrite app_assoc_s, <- Heq, takeS_dropS.
  - unfold matched, substring. rewrite Hi, He.
    replace (lastIndex + String.length pre + String.length a - (lastIndex + String.length pre))
      with (String.length a) by lia.
    rewrite <- dropS_dropS, Heq, dropS_app_length. apply takeS_length_app.
Qed.

Lemma exec_complete r input lastIndex pre a rest caps :
  input = pre +:+ a +:+ rest →
  lastIndex ≤ String.length pre →
  Matches r (String.length pre) a rest [] caps →
  ∃ m, exec r input lastIndex = Some m ∧ m_index m ≤ String.length pre.
Proof.
  intros -> Hle Ha. unfold exec.
  replace (lastIndex <=? String.length (pre +:+ a +:+ rest)) with true.
  2:{ symmetry. apply Nat.leb_le. rewrite string_length_app. lia. }
  rewrite dropS_app_le by done.
  destruct (searchFrom_complete r (dropS lastIndex pre) lastIndex a rest caps)
    as (m & Hrun & Hm).
  { rewrite length_dropS. by replace (lastIndex + (String.length pre - lastIndex))
      with (String.length pre) by lia. }
  exists m. split; [done|]. rewrite length_dropS in Hm. lia.
Qed.

Lemma test_correct r input :
  test r input = true ↔
  ∃ pre a rest caps,
    input = pre +:+ a +:+ rest ∧ Matches r (String.length pre) a rest [] caps.
Proof.
  unfold test. rewrite bool_decide_eq_true. split.
  - intros [m Hrun]. apply exec_sound in Hrun as (pre & a & rest & -> & _ & Ha & _).
    eauto 10.
  - intros (pre & a & rest & caps & Heq & Ha).
    destruct (exec_complete r input 0 pre a rest caps Heq) as (m & Hrun & _); [lia|done|].
    by eexists.
Qed.

(** Every match that begins at the offset a scan starts from, or later,
    begins inside one of the matches the scan finds. *)
Lemma Scan_complete r input lastIndex found :
  Scan r input lastIndex found →
  ∀ pre a rest caps,
    input = pre +:+ a +:+ rest →
    lastIndex ≤ String.length pre →
    Matches r (String.length pre) a rest [] caps →
    ∃ m, m ∈ found ∧ m_index m ≤ String.length pre < m_end m.
Proof.
  induction 1 as [lastIndex Hnone|lastIndex m found Hexec _ IH];
    intros pre a rest caps Heq Hle Ha.
  - destruct (exec_complete r input lastIndex pre a rest caps Heq Hle Ha) as (m & Hm & _).
    congruence.
  - destruct (exec_complete r input lastIndex pre a rest caps Heq Hle Ha) as (m' & Hm & Hleft).
    rewrite Hexec in Hm. injection Hm as <-.
    destruct (decide (String.length pre < m_end m)) as [Hin|Hout].
    + exists m. split; [by left|lia].
    + destruct (IH pre a rest caps Heq) as (m' & Hm' & Hspan); [lia|done|].
      exists m'. split; [by right|done].
Qed.

(** *** Reading a pattern *)

Lemma Matches_seq a b pos z rest c c' :
  Matches (Seq a b) pos z rest c c' ↔
  ∃ x y c1, z = x +:+ y ∧ Matches a pos x (y +:+ rest) c c1 ∧
            Matches b (pos + String.length x) y rest c1 c'.
Proof.
  split.
  - intros H. inversion H; subst. eauto 10.
  - intros (x & y & c1 & -> & Hx & Hy). by econstructor.
Qed.

Lemma Matches_alt a b pos x rest c c' :
  Matches (Alt a b) pos x rest c c' ↔ Matches a pos x rest c c' ∨ Matches b pos x rest c c'.
Proof.
  split.
  - intros H. inversion H; subst; eauto.
  - intros [H|H]; [by apply M_alt_l|by apply M_alt_r].
Qed.

Lemma Matches_eps pos x rest c c' : Matches Eps pos x rest c c' ↔ x = EmptyString ∧ c' = c.
Proof. split; [by inversion 1|intros [-> ->]; constructor]. Qed.

Lemma Matches_chr ok pos x rest c c' :
  Matches (Chr ok) pos x rest c c' ↔ (∃ d, x = String d EmptyString ∧ ok d = true) ∧ c' = c.
Proof.
  split.
  - intros H. inversion H; subst. eauto.
  - intros [(d & -> & Hok) ->]. by constructor.
Qed.

Lemma Matches_bol pos x rest c c' :
  Matches Bol pos x rest c c' ↔ pos = 0 ∧ x = EmptyString ∧ c' = c.
Proof. split; [by inversion 1|intros (-> & -> & ->); constructor]. Qed.

Lemma Matches_eol pos x rest c c' :
  Matches Eol pos x rest c c' ↔ x = EmptyString ∧ rest = EmptyString ∧ c' = c.
Proof. split; [by inversion 1|intros (-> & -> & ->); constructor]. Qed.

Lemma Matches_group n a pos x rest c c' :
  Matches (Group n a) pos x rest c c' ↔
  ∃ c1, Matches a pos x rest c c1 ∧ c' = (n, (pos, pos + String.length x)) :: c1.
Proof.
  split.
  - intros H. inversion H; subst. eauto.
  - intros (c1 & H & ->). by constructor.
Qed.

Lemma Matches_star r (P : string → Prop) :
  (∀ pos x rest c c', Matches r pos x rest c c' ↔ P x ∧ c' = c) →
  ∀ pos x rest c c', Matches (Star r) pos x rest c c' ↔ Repeated P x ∧ c' = c.
Proof.
  intros Hr pos x rest c c'. split.
  - intros H. remember (Star r) as sr eqn:Hsr. revert Hsr.
    induction H as [| | | | |? ? ? ?|a ? x y ? ? ? ? Hne Hx _ Hy IH| | |]; intros Hsr; try done.
    + split; [constructor|done].
    + injection Hsr as ->. apply Hr in Hx as [Hx ->].
      destruct (IH eq_refl) as [Hrep ->]. split; [by constructor|done].
  - intros [H ->]. revert pos. induction H as [|x s Hx _ IH]; intros pos; [constructor|].
    destruct x as [|d x].
    + rewrite app_empty. apply IH.
    + eapply M_star_cons; [done|by apply Hr|apply IH].
Qed.

Lemma Matches_char d pos x rest c c' :
  Matches (char d) pos x rest c c' ↔ x = String d EmptyString ∧ c' = c.
Proof.
  unfold char. rewrite Matches_chr. split.
  - intros [(e & -> & He) ->]. apply Ascii.eqb_eq in He. by subst.
  - intros [-> ->]. split; [|done]. exists d. split; [done|apply Ascii.eqb_refl].
Qed.

Lemma Matches_lit w : ∀ pos x rest c c',
  Matches (lit w) pos x rest c c' ↔ x = w ∧ c' = c.
Proof.
  induction w as [|d w IH]; intros pos x rest c c'; [apply Matches_eps|].
  destruct w as [|e w]; [apply Matches_char|].
  change (lit (String d (String e w))) with (Seq (char d) (lit (String e w))).
  rewrite Matches_seq. split.
  - intros (x1 & x2 & c1 & -> & H1 & H2). apply IH in H2 as [-> ->].
    by apply Matches_char in H1 as [-> ->].
  - intros [-> ->]. exists (String d EmptyString), (String e w), c.
    split_and!; [done|by apply Matches_char|by apply IH].
Qed.

Lemma Matches_charI d pos x rest c c' :
  Matches (charI d) pos x rest c c' ↔
  (∃ e, x = String e EmptyString ∧ Js.upperChar d = Js.upperChar e) ∧ c' = c.
Proof.
  unfold charI. rewrite Matches_chr.
  split; intros [(e & -> & He) ->]; (split; [|done]); exists e;
    (split; [done|]); by apply Ascii.eqb_eq.
Qed.

Lemma Matches_litI w : ∀ pos x rest c c',
  Matches (litI w) pos x rest c c' ↔ sameLetters w x ∧ c' = c.
Proof.
  induction w as [|d w IH]; intros pos x rest c c'.
  - cbn [litI]. rewrite Matches_eps. destruct x; simpl; split; intros [? ?]; done.
  - destruct w as [|e w].
    + cbn [litI]. rewrite Matches_charI. split.
      * by intros [(f & -> & Hf) ->].
      * destruct x as [|f [|? ?]]; simpl; try tauto. intros [[Hf _] ->]. eauto.
    + change (litI (String d (String e w))) with (Seq (charI d) (litI (String e w))).
      rewrite Matches_seq. split.
      * intros (x1 & x2 & c1 & -> & H1 & H2). apply IH in H2 as [H2 ->].
        apply Matches_charI in H1 as [(f & -> & Hf) ->]. by rewrite app_cons, app_empty.
      * destruct x as [|f x]; [by intros [[] _]|]. intros [[Hf Hx] ->].
        exists (String f EmptyString), x, c. split_and!; [done| |by apply IH].
        apply Matches_charI. eauto.
Qed.

Lemma Matches_alts l : l ≠ [] → ∀ pos x rest c c',
  Matches (alts l) pos x rest c c' ↔ ∃ r, r ∈ l ∧ Matches r pos x rest c c'.
Proof.
  induction l as [|a l IH]; [done|]. intros _ pos x rest c c'. destruct l as [|b l].
  - cbn [alts]. split; [intros H; exists a; split; [by left|done]|].
    intros (r & Hr & H). by apply list_elem_of_singleton in Hr as ->.
  - change (alts (a :: b :: l)) with (Alt a (alts (b :: l))).
    rewrite Matches_alt, IH by done. split.
    + intros [H|(r & Hr & H)]; [exists a; split; [by left|done]|].
      exists r. split; [by right|done].
    + intros (r & Hr & H). apply elem_of_cons in Hr as [->|Hr]; eauto.
Qed.

Lemma Matches_space pos x rest c c' :
  Matches space pos x rest c c' ↔ whiteSpaceChar x ∧ c' = c.
Proof.
  unfold space, whiteSpaceChar. rewrite Matches_alts by done. split.
  - intros (r & Hr & H). apply list_elem_of_fmap in Hr as (w & -> & Hw).
    by apply Matches_lit in H as [-> ->].
  - intros [Hx ->]. exists (lit x). split; [by apply list_elem_of_fmap_2|by apply Matches_lit].
Qed.

Lemma Matches_notChar d pos x rest c c' :
  Matches (notChar d) pos x rest c c' ↔
  (∃ e, x = String e EmptyString ∧ e ≠ d) ∧ c' = c.
Proof.
  unfold notChar. rewrite Matches_chr.
  split; intros [(e & -> & He) ->]; (split; [|done]); exists e; (split; [done|]).
  - apply negb_true_iff in He. intros ->. by rewrite Ascii.eqb_refl in He.
  - apply negb_true_iff. destruct (Ascii.eqb_spec d e); congruence.
Qed.

Lemma Repeated_lacks d x :
  Repeated (λ y, ∃ e, y = String e EmptyString ∧ e ≠ d) x ↔ noChar d x.
Proof.
  split.
  - induction 1 as [|y s (e & -> & He) _ IH]; [done|]. rewrite app_cons, app_empty. done.
  - induction x as [|e x IH]; [constructor|]. intros [He Hx].
    change (String e x) with (String e EmptyString +:+ x). constructor; eauto.
Qed.

Lemma Matches_star_notChar d pos x rest c c' :
  Matches (Star (notChar d)) pos x rest c c' ↔ noChar d x ∧ c' = c.
Proof.
  rewrite (Matches_star _ _ (Matches_notChar d)). by rewrite Repeated_lacks.
Qed.

Lemma Matches_star_space pos x rest c c' :
  Matches (Star space) pos x rest c c' ↔ Repeated whiteSpaceChar x ∧ c' = c.
Proof. apply Matches_star. intros. apply Matches_space. Qed.

(** *** Line breaks *)

Local Abbreviation lineBreakPattern :=
  (seqs [litI "<br"; Star space; Opt (char "/"); char ">";
         Star (Alt space (litI "&nbsp;"))]).

Lemma Matches_filler pos x rest c c' :
  Matches (Star (Alt space (litI "&nbsp;"))) pos x rest c c' ↔
  Repeated (λ y, whiteSpaceChar y ∨ sameLetters "&nbsp;" y) x ∧ c' = c.
Proof.
  apply Matches_star. intros p y r c0 c1.
  rewrite Matches_alt, Matches_space, Matches_litI. tauto.
Qed.

Lemma Matches_lineBreak pos x rest c c' :
  Matches lineBreakPattern pos x rest c c' ↔ lineBreak x ∧ c' = c.
Proof.
  unfold lineBreakPattern, lineBreak. cbn [seqs]. split.
  - intros H.
    apply Matches_seq in H as (br & x1 & c1 & -> & Hbr & H).
    apply Matches_seq in H as (spaces & x2 & c2 & -> & Hspaces & H).
    apply Matches_seq in H as (slash & x3 & c3 & -> & Hslash & H).
    apply Matches_seq in H as (gt & filler & c4 & -> & Hgt & Hfiller).
    apply Matches_litI in Hbr as [Hbr ->].
    apply Matches_star_space in Hspaces as [Hspaces ->].
    apply Matches_char in Hgt as [-> ->].
    apply Matches_filler in Hfiller as [Hfiller ->].
    assert ((slash = EmptyString ∨ slash = "/") ∧ c3 = c) as [Hs ->].
    { apply Matches_alt in Hslash as [Hslash|Hslash].
      - apply Matches_char in Hslash as [-> ->]. auto.
      - apply Matches_eps in Hslash as [-> ->]. auto. }
    split; [|done]. exists br, spaces, slash, filler. done.
  - intros [(br & spaces & slash & filler & -> & Hbr & Hspaces & Hslash & Hfiller) ->].
    apply Matches_seq. exists br, (spaces +:+ slash +:+ ">" +:+ filler), c.
    split_and!; [done|by apply Matches_litI|].
    apply Matches_seq. exists spaces, (slash +:+ ">" +:+ filler), c.
    split_and!; [done|by apply Matches_star_space|].
    apply Matches_seq. exists slash, (">" +:+ filler), c.
    split_and!; [done| |].
    { apply Matches_alt. destruct Hslash as [-> | ->].
      - right. by apply Matches_eps.
      - left. by apply Matches_char. }
    apply Matches_seq. exists ">", filler, c.
    split_and!; [done|by apply Matches_char|by apply Matches_filler].
Qed.

Theorem test_brOnly s : test Extraction.brOnly s = true ↔ lineBreaksOnly s.
Proof.
  rewrite test_correct. unfold lineBreaksOnly.
  change Extraction.brOnly
    with (Seq Bol (Seq (Seq lineBreakPattern (Star lineBreakPattern)) Eol)).
  split.
  - intros (pre & a & rest & caps & -> & H).
    apply Matches_seq in H as (x0 & x1 & c1 & -> & Hbol & H).
    apply Matches_bol in Hbol as (Hpre & -> & ->).
    apply Matches_seq in H as (body & x2 & c2 & -> & Hbody & Heol).
    apply Matches_eol in Heol as (-> & -> & ->).
    destruct pre; [|done].
    apply Matches_seq in Hbody as (first & others & c3 & -> & Hfirst & Hothers).
    apply Matches_lineBreak in Hfirst as [Hfirst ->].
    apply (Matches_star _ _ Matches_lineBreak) in Hothers as [Hothers _].
    exists first, others. by rewrite !app_empty, !app_nil_r_s.
  - intros (first & others & -> & Hfirst & Hothers).
    exists EmptyString, (first +:+ others), EmptyString, [].
    split; [by rewrite app_empty, app_nil_r_s|].
    apply Matches_seq. exists EmptyString, (first +:+ others), [].
    split_and!; [by rewrite app_empty|by apply Matches_bol|].
    apply Matches_seq. exists (first +:+ others), EmptyString, [].
    split_and!; [by rewrite app_nil_r_s| |by apply Matches_eol].
    apply Matches_seq. exists first, others, [].
    split_and!; [done|by apply Matches_lineBreak|].
    by apply (Matches_star _ _ Matches_lineBreak).
Qed.

(** *** Image tags *)

Lemma whiteSpaceChar_nonempty x : whiteSpaceChar x → x ≠ EmptyString.
Proof.
  unfold whiteSpaceChar. intros Hx ->. revert Hx. unfold Js.whiteSpace.
  rewrite !elem_of_cons, elem_of_nil. intros H. repeat destruct H as [H|H]; done.
Qed.

Lemma Matches_plus_space pos x rest c c' :
  Matches (Plus space) pos x rest c c' ↔
  (x ≠ EmptyString ∧ Repeated whiteSpaceChar x) ∧ c' = c.
Proof.
  unfold Plus. rewrite Matches_seq. split.
  - intros (x1 & x2 & c1 & -> & H1 & H2).
    apply Matches_space in H1 as [H1 ->]. apply Matches_star_space in H2 as [H2 ->].
    split; [|done]. split; [|by constructor].
    intros Hnil. apply string_app_nil_inv in Hnil as [-> _].
    by apply whiteSpaceChar_nonempty in H1.
  - intros [[Hne Hx] ->]. induction Hx as [|y s Hy Hs IH]; [done|].
    exists y, s, c. split_and!; [done|by apply Matches_space|by apply Matches_star_space].
Qed.

Lemma Matches_plus_notChar d pos x rest c c' :
  Matches (Plus (notChar d)) pos x rest c c' ↔ (x ≠ EmptyString ∧ noChar d x) ∧ c' = c.
Proof.
  unfold Plus. rewrite Matches_seq. split.
  - intros (x1 & x2 & c1 & -> & H1 & H2).
    apply Matches_notChar in H1 as [(e & -> & He) ->].
    apply Matches_star_notChar in H2 as [H2 ->].
    rewrite app_cons, app_empty. done.
  - intros [[Hne Hx] ->]. destruct x as [|e x]; [done|]. destruct Hx as [He Hx].
    exists (String e EmptyString), x, c.
    split_and!; [done| |by apply Matches_star_notChar].
    apply Matches_notChar. eauto.
Qed.

Lemma Matches_imgRegex pos tag rest c c' :
  Matches Svg.imgRegex pos tag rest c c' ↔
  ∃ img spaces before attr name ext after,
    tag = img +:+ spaces +:+ before +:+ attr +:+ Js.dq +:+ (name +:+ ext) +:+ Js.dq
          +:+ after +:+ ">" ∧
    sameLetters "<img" img ∧
    spaces ≠ EmptyString ∧ Repeated whiteSpaceChar spaces ∧
    noChar ">" before ∧
    sameLetters "src=" attr ∧
    name ≠ EmptyString ∧ noChar "034" name ∧
    sameLetters ".svg" ext ∧
    noChar ">" after ∧
    c' = (1, (pos + String.length (img +:+ spaces +:+ before +:+ attr +:+ Js.dq),
              pos + String.length (img +:+ spaces +:+ before +:+ attr +:+ Js.dq)
              + String.length (name +:+ ext))) :: c.
Proof.
  unfold Svg.imgRegex. cbn [seqs]. split.
  - intros H.
    apply Matches_seq in H as (img & x1 & c1 & -> & Himg & H).
    apply Matches_seq in H as (spaces & x2 & c2 & -> & Hspaces & H).
    apply Matches_seq in H as (before & x3 & c3 & -> & Hbefore & H).
    apply Matches_seq in H as (attr & x4 & c4 & -> & Hattr & H).
    apply Matches_seq in H as (q1 & x5 & c5 & -> & Hq1 & H).
    apply Matches_seq in H as (src & x6 & c6 & -> & Hsrc & H).
    apply Matches_seq in H as (q2 & x7 & c7 & -> & Hq2 & H).
    apply Matches_seq in H as (after & gt & c8 & -> & Hafter & Hgt).
    apply Matches_litI in Himg as [Himg ->].
    apply Matches_plus_space in Hspaces as [[Hne Hspaces] ->].
    apply Matches_star_notChar in Hbefore as [Hbefore ->].
    apply Matches_litI in Hattr as [Hattr ->].
    apply Matches_char in Hq1 as [-> ->].
    apply Matches_group in Hsrc as (c9 & Hsrc & ->).
    apply Matches_seq in Hsrc as (name & ext & c10 & -> & Hname & Hext).
    apply Matches_plus_notChar in Hname as [[Hnn Hname] ->].
    apply Matches_litI in Hext as [Hext ->].
    apply Matches_char in Hq2 as [-> ->].
    apply Matches_star_notChar in Hafter as [Hafter ->].
    apply Matches_char in Hgt as [-> ->].
    exists img, spaces, before, attr, name, ext, after.
    split_and!; try done.
    rewrite !string_length_app. simpl. do 3 f_equal; lia.
  - intros (img & spaces & before & attr & name & ext & after & -> & Himg & Hne & Hspaces
            & Hbefore & Hattr & Hnn & Hname & Hext & Hafter & ->).
    set (p := pos + String.length img + String.length spaces + String.length before
              + String.length attr + String.length Js.dq).
    assert (pos + String.length (img +:+ spaces +:+ before +:+ attr +:+ Js.dq) = p) as ->.
    { rewrite !string_length_app. unfold p. lia. }
    set (caps := (1, (p, p + String.length (name +:+ ext))) :: c).
    apply Matches_seq. eexists img, _, c. split_and!; [done|by apply Matches_litI|].
    apply Matches_seq. eexists spaces, _, c.
    split_and!; [done|by apply Matches_plus_space|].
    apply Matches_seq. eexists before, _, c.
    split_and!; [done|by apply Matches_star_notChar|].
    apply Matches_seq. eexists attr, _, c. split_and!; [done|by apply Matches_litI|].
    apply Matches_seq. eexists Js.dq, _, c. split_and!; [done|by apply Matches_char|].
    apply Matches_seq. eexists (name +:+ ext), _, caps. split_and!; [done| |].
    { apply Matches_group. exists c. split; [|done].
      apply Matches_seq. exists name, ext, c.
      split_and!; [done|by apply Matches_plus_notChar|by apply Matches_litI]. }
    apply Matches_seq. eexists Js.dq, _, caps. split_and!; [done|by apply Matches_char|].
    apply Matches_seq. eexists after, ">", caps.
    split_and!; [done|by apply Matches_star_notChar|by apply Matches_char].
Qed.

(** What [exec] finds with the image-tag pattern is an image tag, and group
    1 is its source. *)
Lemma exec_imgRegex_tag html lastIndex m :
  exec Svg.imgRegex html lastIndex = Some m →
  imageTag (matched html m) (default EmptyString (group 1 html m)).
Proof.
  intros Hexec.
  apply exec_sound in Hexec as (pre & tag & rest & Hhtml & _ & Htag & _ & _ & ->).
  apply Matches_imgRegex in Htag
    as (img & spaces & before & attr & name & ext & after & -> & Himg & Hne & Hspaces
        & Hbefore & Hattr & Hnn & Hname & Hext & Hafter & Hcaps).
  assert (group 1 html m = Some (name +:+ ext)) as ->.
  { unfold group. rewrite Hcaps. cbn [list_find fst].
    rewrite decide_True by done. cbn [fmap option_fmap option_map prod_map fst snd].
    f_equal. subst html.
    set (u := img +:+ spaces +:+ before +:+ attr +:+ Js.dq).
    replace (pre +:+ (img +:+ spaces +:+ before +:+ attr +:+ Js.dq +:+ (name +:+ ext)
                      +:+ Js.dq +:+ after +:+ ">") +:+ rest)
      with ((pre +:+ u) +:+ (name +:+ ext) +:+ (Js.dq +:+ after +:+ ">" +:+ rest)).
    2:{ unfold u. by rewrite !app_assoc_s. }
    replace (String.length pre + String.length u) with (String.length (pre +:+ u))
      by apply string_length_app.
    apply substring_app. }
  exists img, spaces, before, attr, name, ext, after. done.
Qed.

(** Every image tag of the markup begins inside one of the tags the scan
    finds. *)
Lemma Scan_imgRegex_complete html found :
  Scan Svg.imgRegex html 0 found →
  ∀ pre tag rest src,
    html = pre +:+ tag +:+ rest →
    imageTag tag src →
    ∃ m, m ∈ found ∧ m_index m ≤ String.length pre < m_end m.
Proof.
  intros Hscan pre tag rest src Hhtml
    (img & spaces & before & attr & name & ext & after & -> & -> & Htag).
  eapply (Scan_complete _ _ _ _ Hscan pre _ rest); [exact Hhtml|lia|].
  apply Matches_imgRegex. exists img, spaces, before, attr, name, ext, after.
  split; [done|]. destruct Htag as (? & ? & ? & ? & ? & ? & ? & ? & ?).
  split_and!; done.
Qed.

(** Each match of a scan is one that [exec] returned. *)
Lemma Scan_exec r input lastIndex found :
  Scan r input lastIndex found →
  Forall (λ m, ∃ from, exec r input from = Some m) found.
Proof. induction 1; constructor; eauto. Qed.

End PatternFacts.

(** ** The extraction of HTML blocks *)

Section HtmlBlockFacts.
Context `{Platform}.
Import Tasks Extraction.

Local Abbreviation QUOTE := (String "034"%char EmptyString) (only parsing).

Lemma sanitizeRenderedHtml_total html :
  ∃ sanitized, Sanitizer.sanitizeRenderedHtml html = Some sanitized.
Proof.
  unfold Sanitizer.sanitizeRenderedHtml.
  destruct (parseHtml html) as [content|e]; [|eauto].
  rewrite sanitizeNodeTree_correct. simpl.
  destruct (serializeHtml _); eauto.
Qed.

Lemma removeSpaces_truthy s : Js.removeSpaces s ≠ EmptyString → Js.truthy s = true.
Proof. by destruct s. Qed.

Lemma length_zero s : (String.length s <=? 0)%nat = true ↔ s = EmptyString.
Proof. destruct s; simpl; split; done. Qed.

Lemma createAsyncPlaceholder_html id :
  createAsyncPlaceholder id "html" EmptyString =
  "<div id=" +:+ QUOTE +:+ id +:+ QUOTE +:+ " class=" +:+ QUOTE
  +:+ "async-placeholder html-placeholder" +:+ QUOTE +:+ ">
    <div class=" +:+ QUOTE +:+ "async-loading" +:+ QUOTE +:+ ">
      <div class=" +:+ QUOTE +:+ "async-spinner" +:+ QUOTE +:+ "></div>
      <div class=" +:+ QUOTE +:+ "async-text" +:+ QUOTE +:+ ">"
  +:+ Js.or_else
        (translate "async_processing_message"
           [Js.or_else (translate "async_placeholder_type_html" []) "HTML chart";
            EmptyString])
        ("Processing "
         +:+ Js.or_else (translate "async_placeholder_type_html" []) "HTML chart"
         +:+ "...")
  +:+ "</div>
    </div>
  </div>".
Proof.
  unfold createAsyncPlaceholder.
  change (typeLabelKeys "html") with (Some "async_placeholder_type_html").
  change (typeLabelFallbacks "html") with "HTML chart".
  change (Js.or_else "HTML chart" "html") with "HTML chart".
  change (Js.truthy EmptyString) with false. cbv iota.
  rewrite decide_False by done.
  unfold Js.quoted, Js.dq. rewrite !app_assoc_s.
  by rewrite !app_empty.
Qed.

(** C5, as amended. The visitor of the current content script leaves an
    'html' node untouched, and registers nothing, exactly when its trimmed
    content is empty, or is made of line breaks only (one or more times:
    [<br], white space, an optional slash, [>], then any run of white space
    and [&nbsp;], letters in either case; which is what the pattern of the
    source matches from start to end), or its sanitized form is empty once
    white space is removed; the sanitized form always exists. In every
    other case, whatever the root tag and however short the content, it
    registers one 'html' task in status 'ready' under the next id, carrying
    the sanitized markup, and puts in the node's place the block placeholder
    written out below. The test "starts with <div, <table or <svg and is
    longer than 100 characters" is what the earlier content script applies,
    on the trimmed content, queueing the raw content under its own
    placeholder. *)
Theorem C5_html_block_extraction (value : string) (r : Registry)
    (legacyRenderer : string → Js.settled string) (lr : Legacy.LegacyRegistry) :
  let content := Js.trim value in
  let pattern :=
    Regex.seqs
      [Regex.Bol;
       Regex.Plus
         (Regex.seqs
            [Regex.litI "<br"; Regex.Star Regex.space;
             Regex.Opt (Regex.char "/"); Regex.char ">";
             Regex.Star (Regex.Alt Regex.space (Regex.litI "&nbsp;"))]);
       Regex.Eol] in
  let id := "async-placeholder-" +:+ pretty (S (asyncTaskIdCounter r)) in
  let typeLabel :=
    Js.or_else (translate "async_placeholder_type_html" []) "HTML chart" in
  let processingText :=
    Js.or_else (translate "async_processing_message" [typeLabel; EmptyString])
      ("Processing " +:+ typeLabel +:+ "...") in
  let legacyId := "async-placeholder-" +:+ pretty (S (Legacy.legacyIdCounter lr)) in
  let significant :=
    (Js.startsWith content "<div" || Js.startsWith content "<table"
     || Js.startsWith content "<svg")
    && bool_decide (100 < Js.length content) in
  (∃ sanitized, Sanitizer.sanitizeRenderedHtml content = Some sanitized)
  ∧ (∀ text, Regex.test pattern text = true ↔ Shape.lineBreaksOnly text)
  ∧ (content = EmptyString ∨ Shape.lineBreaksOnly content ∨
     (∃ sanitized,
        Sanitizer.sanitizeRenderedHtml content = Some sanitized ∧
        Js.removeSpaces sanitized = EmptyString) →
     htmlVisitor value r = Some (MdHtml value, r))
  ∧ (∀ sanitized,
       content ≠ EmptyString →
       ¬ Shape.lineBreaksOnly content →
       Sanitizer.sanitizeRenderedHtml content = Some sanitized →
       Js.removeSpaces sanitized ≠ EmptyString →
       htmlVisitor value r =
         Some (MdHtml
                 ("<div id=" +:+ QUOTE +:+ id +:+ QUOTE +:+ " class=" +:+ QUOTE
                  +:+ "async-placeholder html-placeholder" +:+ QUOTE +:+ ">
    <div class=" +:+ QUOTE +:+ "async-loading" +:+ QUOTE +:+ ">
      <div class=" +:+ QUOTE +:+ "async-spinner" +:+ QUOTE +:+ "></div>
      <div class=" +:+ QUOTE +:+ "async-text" +:+ QUOTE +:+ ">"
                  +:+ processingText +:+ "</div>
    </div>
  </div>"),
               mkRegistry
                 (asyncTaskQueue r ++
                  [mkTask id htmlCallback (mkData id (Some sanitized) None None None)
                     "html" ready None])
                 (S (asyncTaskIdCounter r))))
  ∧ (significant = true →
     Legacy.htmlVisitor legacyRenderer value lr =
       (MdHtml
          ("<div id=" +:+ QUOTE +:+ legacyId +:+ QUOTE +:+ " class=" +:+ QUOTE
           +:+ "async-placeholder html-placeholder" +:+ QUOTE +:+ ">
    <div class=" +:+ QUOTE +:+ "async-loading" +:+ QUOTE +:+ ">
      <div class=" +:+ QUOTE +:+ "async-spinner" +:+ QUOTE +:+ "></div>
      <div class=" +:+ QUOTE +:+ "async-text" +:+ QUOTE +:+ ">正在处理 HTML 图表...</div>
    </div>
  </div>"),
        Legacy.mkLegacyRegistry
          (Legacy.legacyQueue lr ++
           [Legacy.mkLegacyTask (Legacy.htmlCallback legacyRenderer)
              (mkData legacyId (Some value) None None None)])
          (S (Legacy.legacyIdCounter lr))))
  ∧ (significant = false →
     Legacy.htmlVisitor legacyRenderer value lr = (MdHtml value, lr)).
Proof.
  intros content pattern id typeLabel processingText legacyId significant.
  change pattern with brOnly.
  assert (Legacy.isSignificant content = significant) as Hsignificant.
  { unfold Legacy.isSignificant, significant. f_equal.
    destruct (100 <? Js.length content)%nat eqn:Hlen.
    - apply Nat.ltb_lt in Hlen. by rewrite bool_decide_eq_true_2.
    - apply Nat.ltb_ge in Hlen. rewrite bool_decide_eq_false_2; [done|lia]. }
  split; [apply sanitizeRenderedHtml_total|].
  split; [apply test_brOnly|].
  split; [|split; [|split]].
  - unfold htmlVisitor. cbv zeta. fold content.
    intros [Hempty|[Hbr|(sanitized & Hsan & Hblank)]].
    + by rewrite Hempty.
    + apply test_brOnly in Hbr. rewrite Hbr. by destruct (Js.truthy _).
    + destruct (Js.truthy content); [|done]. cbn [negb].
      destruct (Regex.test brOnly content); [done|].
      rewrite Hsan. cbn [mbind option_bind]. rewrite Hblank. cbn.
      by rewrite orb_true_r.
  - intros sanitized Hne Hnot Hsan Hblank.
    assert (Regex.test brOnly content = false) as Hbr.
    { destruct (Regex.test brOnly content) eqn:Htest; [|done].
      by apply test_brOnly in Htest. }
    unfold htmlVisitor. cbv zeta. fold content.
    assert (Js.truthy content = true) as -> by (by destruct content).
    rewrite Hbr, Hsan. cbn [negb mbind option_bind].
    rewrite (removeSpaces_truthy _ Hblank).
    assert ((String.length (Js.removeSpaces sanitized) <=? 0)%nat = false) as ->.
    { destruct (String.length _ <=? 0)%nat eqn:Hlen; [|done].
      by apply length_zero in Hlen. }
    cbn [negb orb]. unfold asyncTask, generateAsyncId.
    cbn [fst snd asyncTaskQueue asyncTaskIdCounter result_placeholder data_code
         data_src data_originalTag data_svgContent].
    fold id. by rewrite createAsyncPlaceholder_html.
  - intros Hsig. unfold Legacy.htmlVisitor. cbv zeta. fold content.
    rewrite Hsignificant, Hsig.
    unfold Legacy.asyncTask. cbv zeta. fold legacyId.
    cbn [data_code data_src data_originalTag data_svgContent].
    do 2 f_equal. unfold Legacy.createAsyncPlaceholder.
    change (Legacy.typeLabels "html") with "HTML 图表".
    change (Js.or_else "HTML 图表" "html") with "HTML 图表".
    change (Js.truthy EmptyString) with false. cbv iota.
    unfold Js.quoted, Js.dq. by rewrite !app_assoc_s.
  - intros Hsig. unfold Legacy.htmlVisitor. cbv zeta. fold content.
    by rewrite Hsignificant, Hsig.
Qed.

End HtmlBlockFacts.

Section HtmlBlockExamples.
Import Tasks Extraction Samples.
Existing Instance samplePlatform.

(** A short paragraph: neither a div, a table nor an svg, nine characters
    long, and yet queued. *)
Lemma C5_counterexample :
  (Js.startsWith (Js.trim "<p>hi</p>") "<div"
   || Js.startsWith (Js.trim "<p>hi</p>") "<table"
   || Js.startsWith (Js.trim "<p>hi</p>") "<svg") = false ∧
  Js.length (Js.trim "<p>hi</p>") = 9 ∧
  ∃ placeholder r',
    htmlVisitor "<p>hi</p>" emptyRegistry = Some (MdHtml placeholder, r') ∧
    placeholder ≠ "<p>hi</p>" ∧
    (task_id <$> asyncTaskQueue r') = ["async-placeholder-1"] ∧
    (task_status <$> asyncTaskQueue r') = [ready] ∧
    (data_code ∘ task_data <$> asyncTaskQueue r') = [Some "<p>hi</p>"].
Proof.
  split; [reflexivity|]. split; [reflexivity|].
  eexists _, _. split; [reflexivity|]. by vm_compute.
Qed.

Example br_only_skipped :
  htmlVisitor "<br/> &nbsp;<BR>" emptyRegistry = Some (MdHtml "<br/> &nbsp;<BR>", emptyRegistry).
Proof. reflexivity. Qed.

(** A block of no-break spaces is trimmed to nothing, and two line breaks
    with a no-break space between them are line breaks only: both are
    skipped. A line break followed by text is not. *)
Example no_break_space_skipped :
  let nbsp := Js.utf8 160 in
  htmlVisitor (nbsp +:+ nbsp) emptyRegistry = Some (MdHtml (nbsp +:+ nbsp), emptyRegistry) ∧
  htmlVisitor ("<br>" +:+ nbsp +:+ "<br>") emptyRegistry =
    Some (MdHtml ("<br>" +:+ nbsp +:+ "<br>"), emptyRegistry) ∧
  ∃ placeholder r',
    htmlVisitor "<br>x" emptyRegistry = Some (MdHtml placeholder, r') ∧
    length (asyncTaskQueue r') = 1.
Proof. split; [reflexivity|]. split; [reflexivity|]. eexists _, _. split; reflexivity. Qed.

(** The earlier test counts UTF-16 code units: a block of 59 of them, 107
    bytes in UTF-8, is not significant. *)
Example legacy_length_in_code_units :
  let e := Js.utf8 233 in
  let e8 := e +:+ e +:+ e +:+ e +:+ e +:+ e +:+ e +:+ e in
  let block := "<svg>" +:+ e8 +:+ e8 +:+ e8 +:+ e8 +:+ e8 +:+ e8 +:+ "</svg>" in
  Js.length block = 59 ∧ Legacy.isSignificant block = false.
Proof. split; reflexivity. Qed.

Lemma C5_witness :
  htmlVisitor "  <br>  " emptyRegistry = Some (MdHtml "  <br>  ", emptyRegistry).
Proof.
  destruct (C5_html_block_extraction "  <br>  " emptyRegistry
              (λ _, Js.Fulfilled EmptyString) (Legacy.mkLegacyRegistry [] 0))
    as (_ & Hpattern & Hskip & _).
  apply Hskip. right. left. apply Hpattern. reflexivity.
Defined.

End HtmlBlockExamples.


(** ** The vector-image pass *)

Section SvgFacts.
Context `{Platform}.
Import Tasks Regex Extraction Svg.

Local Abbreviation QUOTE := (String "034"%char EmptyString) (only parsing).

Lemma exec_imgRegex_nonempty html lastIndex m :
  exec imgRegex html lastIndex = Some m → m_index m < m_end m.
Proof.
  unfold exec. destruct (_ <=? _)%nat; [|done].
  apply searchFrom_nonempty.
Qed.

Lemma toSvgMatch_span html m :
  m_index m ≤ m_end m → m_end m ≤ String.length html →
  spanOf (toSvgMatch html m) = span m.
Proof.
  intros Hle Hend. unfold spanOf, span, toSvgMatch, matched. simpl.
  rewrite length_substring by done. f_equal. lia.
Qed.

(** The collecting loop stops; what it collects is the scan of the markup
    with the image-tag pattern, and its matches follow each other inside the
    markup. *)
Lemma collectMatches_scan html fuel : ∀ lastIndex,
  lastIndex ≤ String.length html →
  String.length html - lastIndex < fuel →
  ∃ found,
    collectMatches fuel html lastIndex = Some (toSvgMatch html <$> found) ∧
    Scan imgRegex html lastIndex found ∧
    inOrder lastIndex (String.length html) (span <$> found) ∧
    spanOf <$> (toSvgMatch html <$> found) = span <$> found.
Proof.
  induction fuel as [|fuel IH]; intros lastIndex Hle Hfuel; [lia|].
  simpl. destruct (exec imgRegex html lastIndex) as [m|] eqn:Hexec.
  - pose proof (exec_bounds _ _ _ _ Hexec) as (Hfrom & Hspan & Hend).
    pose proof (exec_imgRegex_nonempty _ _ _ Hexec) as Hnonempty.
    destruct (IH (m_end m)) as (rest & -> & Hscan & Horder & Hspans); [lia..|].
    exists (m :: rest). simpl. split_and!; try done.
    + by apply Scan_next.
    + f_equal; [apply toSvgMatch_span; lia|exact Hspans].
  - exists []. simpl. split_and!; try done. by apply Scan_end.
Qed.

Lemma inOrder_le start len spans : inOrder start len spans → start ≤ len.
Proof.
  revert start. induction spans as [|[from to] spans IH]; intros start; simpl; [done|].
  intros (Hs & Hft & Hrest). apply IH in Hrest. lia.
Qed.

Lemma substring_dropS from to s :
  from ≤ to → substring from to s +:+ dropS to s = dropS from s.
Proof.
  intros Hle. unfold substring.
  replace (dropS to s) with (dropS (to - from) (dropS from s)).
  - apply takeS_dropS.
  - rewrite dropS_dropS. f_equal. lia.
Qed.

(** Putting each matched text back where it was gives the markup back:
    the spans and the text between them make up the whole input. *)
Lemma splice_matched html found : ∀ start,
  inOrder start (String.length html) (span <$> found) →
  splice start html (span <$> found) (matched html <$> found) = dropS start html.
Proof.
  induction found as [|m found IH]; intros start Horder; [done|].
  rewrite !fmap_cons in *. unfold span at 1 in Horder. unfold span at 1.
  cbn [splice inOrder] in *.
  destruct Horder as (Hstart & Hft & Hrest).
  rewrite (IH _ Hrest). unfold matched.
  rewrite (substring_dropS (m_index m) (m_end m)) by lia.
  by apply substring_dropS.
Qed.

Lemma processMatch_ok m html w w' out :
  processMatch m html w = (w', Js.Ok out) →
  ∃ task fetches content,
    initialSvgContent (svg_src m) = Js.Ok content ∧
    startFetch (task_id task) (svg_src m) = Js.Ok fetches ∧
    task_id task = "async-placeholder-" +:+ pretty (S (asyncTaskIdCounter w.1)) ∧
    task = mkTask (task_id task) svgCallback
             (mkData (task_id task) None (Some (svg_src m)) (Some (svg_fullMatch m)) content)
             "svg" (initialStatus (svg_src m)) None ∧
    w' = (mkRegistry (asyncTaskQueue w.1 ++ [task]) (S (asyncTaskIdCounter w.1)),
          w.2 ++ fetches) ∧
    out = takeS (svg_index m) html +:+
          createAsyncPlaceholder (task_id task) "svg" (Js.lastSegment (svg_src m)) +:+
          dropS ((spanOf m).2) html.
Proof.
  unfold processMatch. cbv zeta.
  destruct (initialSvgContent (svg_src m)) as [content|e] eqn:Hcontent; [|done].
  unfold asyncTask, generateAsyncId. cbn [fst snd result_task task_id].
  set (id := "async-placeholder-" +:+ pretty (S (asyncTaskIdCounter w.1))).
  destruct (startFetch id (svg_src m)) as [fetches|e] eqn:Hfetch; [|done].
  intros [= <- <-].
  exists (mkTask id svgCallback
            (mkData id None (Some (svg_src m)) (Some (svg_fullMatch m)) content)
            "svg" (initialStatus (svg_src m)) None), fetches, content.
  done.
Qed.

(** Handling the matches last to first leaves the text before, between
    and after them as it was, and puts one placeholder span in the place of
    each: the one whose id is the counter plus the number of matches from
    this one to the last. *)
Lemma replaceMatches_spec html matches : ∀ w w' out start,
  replaceMatches matches html w = (w', Js.Ok out) →
  inOrder start (String.length html) (spanOf <$> matches) →
  out = takeS start html +:+
        splice start html (spanOf <$> matches)
          (imap (λ i m,
                   createAsyncPlaceholder
                     ("async-placeholder-" +:+
                      pretty (asyncTaskIdCounter w.1 + (length matches - i)))
                     "svg" (Js.lastSegment (svg_src m)))
             matches) ∧
  asyncTaskIdCounter w'.1 = asyncTaskIdCounter w.1 + length matches ∧
  length (asyncTaskQueue w'.1) = length (asyncTaskQueue w.1) + length matches.
Proof.
  induction matches as [|m later IH]; intros w w' out start Hrun Horder.
  - injection Hrun as <- <-. simpl.
    rewrite takeS_dropS. split_and!; [done|lia|lia].
  - simpl in Hrun.
    destruct (replaceMatches later html w) as [w1 [html1|e]] eqn:Hlater; [|done].
    rewrite fmap_cons in Horder. destruct (spanOf m) as [from to] eqn:Hspan.
    simpl in Horder. destruct Horder as (Hstart & Hft & Hrest).
    pose proof (inOrder_le _ _ _ Hrest) as Hto.
    destruct (IH w w1 html1 to Hlater Hrest) as (-> & Hcounter & Hlen).
    apply processMatch_ok in Hrun
      as (task & fetches & content & _ & _ & Hid & _ & -> & ->).
    rewrite Hspan. cbn [fst snd].
    assert (svg_index m = from) as Hfrom by (by injection Hspan).
    rewrite Hfrom, Hid, Hcounter.
    split_and!.
    + rewrite fmap_cons, Hspan, imap_cons. cbn [splice length].
      rewrite takeS_app_le by (rewrite length_takeS; lia).
      rewrite takeS_takeS by lia.
      rewrite dropS_app_takeS by done.
      rewrite <- (takeS_substring start from html) by done.
      rewrite app_assoc_s. rewrite Nat.sub_0_r.
      replace (asyncTaskIdCounter w.1 + S (length later))
        with (S (asyncTaskIdCounter w.1 + length later)) by lia.
      done.
    + simpl. lia.
    + simpl. rewrite length_app. simpl. lia.
Qed.

Lemma replaceMatches_total html matches w :
  Forall prepares matches →
  ∃ w' out, replaceMatches matches html w = (w', Js.Ok out).
Proof.
  induction matches as [|m later IH]; intros Hall; simpl; [eauto|].
  apply Forall_cons in Hall as [[[content Hcontent] Hfetch] Hlater].
  destruct (IH Hlater) as (w1 & html1 & ->).
  unfold processMatch. cbv zeta. rewrite Hcontent.
  unfold asyncTask, generateAsyncId. cbn [fst snd result_task task_id].
  destruct (Hfetch ("async-placeholder-" +:+ pretty (S (asyncTaskIdCounter w1.1))))
    as [fetches ->].
  eauto.
Qed.

Lemma createAsyncPlaceholder_svg id description :
  createAsyncPlaceholder id "svg" description =
  "<span id=" +:+ QUOTE +:+ id +:+ QUOTE +:+ " class=" +:+ QUOTE
  +:+ "async-placeholder svg-placeholder inline-placeholder" +:+ QUOTE +:+ ">
      <span class=" +:+ QUOTE +:+ "async-loading" +:+ QUOTE +:+ ">
        <span class=" +:+ QUOTE +:+ "async-spinner" +:+ QUOTE +:+ "></span>
        <span class=" +:+ QUOTE +:+ "async-text" +:+ QUOTE +:+ ">"
  +:+ Js.or_else
        (translate "async_processing_message"
           [Js.or_else (translate "async_placeholder_type_svg" []) "SVG image";
            if Js.truthy description then ": " +:+ description else EmptyString])
        ("Processing "
         +:+ Js.or_else (translate "async_placeholder_type_svg" []) "SVG image"
         +:+ (if Js.truthy description then ": " +:+ description else EmptyString)
         +:+ "...")
  +:+ "</span>
      </span>
    </span>".
Proof.
  unfold createAsyncPlaceholder.
  change (typeLabelKeys "svg") with (Some "async_placeholder_type_svg").
  change (typeLabelFallbacks "svg") with "SVG image".
  change (Js.or_else "SVG image" "svg") with "SVG image".
  rewrite decide_True by done.
  unfold Js.quoted, Js.dq. by rewrite !app_assoc_s.
Qed.

(** C10. The pass finds the image tags by scanning the markup with its
    pattern: each match is the first one from where the previous one ended,
    and the matches stand in document order, one after the other inside the
    markup. Each is an image tag whose source ends in [.svg] ([<img], white
    space, text without [>], [src=] and a double quote, the source, without a
    double quote, a double quote, text without [>], and [>]; letters in
    either case), with the source in group 1; and every such tag of the
    markup begins inside one of the matches. When the pass returns, its output is the input with each
    matched tag replaced by exactly one inline placeholder span, written out
    below, and the text before, between and after the tags unchanged and in
    the same order ([splice] with the matched texts gives the input back,
    with the placeholders it gives the output). The tags are handled last to
    first: of [n] tags, the placeholder of tag [i] (counted from 0) carries
    the id numbered [n - i] after the counter. One task is queued per match,
    and the pass does return unless decoding an inline image or resolving a
    local path throws. *)
Theorem C10_only_matched_tags_change (html : string) (w : World) :
  let pattern :=
    seqs
      [litI "<img"; Plus space; Star (notChar ">");
       litI "src="; char "034";
       Group 1 (seqs [Plus (notChar "034"); litI ".svg"]);
       char "034"; Star (notChar ">"); char ">"] in
  let typeLabel := Js.or_else (translate "async_placeholder_type_svg" []) "SVG image" in
  let placeholder (number : nat) (src : string) : string :=
    let fileName := Js.lastSegment src in
    let suffix := if Js.truthy fileName then ": " +:+ fileName else EmptyString in
    "<span id=" +:+ QUOTE +:+ "async-placeholder-" +:+ pretty number +:+ QUOTE
    +:+ " class=" +:+ QUOTE
    +:+ "async-placeholder svg-placeholder inline-placeholder" +:+ QUOTE +:+ ">
      <span class=" +:+ QUOTE +:+ "async-loading" +:+ QUOTE +:+ ">
        <span class=" +:+ QUOTE +:+ "async-spinner" +:+ QUOTE +:+ "></span>
        <span class=" +:+ QUOTE +:+ "async-text" +:+ QUOTE +:+ ">"
    +:+ Js.or_else (translate "async_processing_message" [typeLabel; suffix])
          ("Processing " +:+ typeLabel +:+ suffix +:+ "...")
    +:+ "</span>
      </span>
    </span>" in
  ∃ found w' res,
    processSvgImages html w = Some (w', res) ∧
    Scan pattern html 0 found ∧
    inOrder 0 (String.length html) (span <$> found) ∧
    Forall (λ m, Shape.imageTag (matched html m) (default EmptyString (group 1 html m)))
      found ∧
    (∀ pre tag rest src,
       html = pre +:+ tag +:+ rest →
       Shape.imageTag tag src →
       ∃ m, m ∈ found ∧ m_index m ≤ String.length pre < m_end m) ∧
    html = splice 0 html (span <$> found) (matched html <$> found) ∧
    (∀ out, res = Js.Ok out →
       out = splice 0 html (span <$> found)
               (imap (λ i m,
                        placeholder (asyncTaskIdCounter w.1 + (length found - i))
                          (default EmptyString (group 1 html m)))
                  found) ∧
       length (asyncTaskQueue w'.1) = length (asyncTaskQueue w.1) + length found) ∧
    (Forall (λ m, prepares (toSvgMatch html m)) found → ∃ out, res = Js.Ok out).
Proof.
  intros pattern typeLabel placeholder.
  change pattern with imgRegex.
  destruct (collectMatches_scan html (S (String.length html)) 0)
    as (found & Hcollect & Hscan & Horder & Hspans); [lia..|].
  destruct (replaceMatches (toSvgMatch html <$> found) html w) as [w' res] eqn:Hrun.
  exists found, w', res. unfold processSvgImages. rewrite Hcollect. simpl.
  rewrite Hrun. split_and!; try done.
  - eapply Forall_impl; [exact (Scan_exec _ _ _ _ Hscan)|].
    intros m [from Hexec]. by eapply exec_imgRegex_tag.
  - by apply Scan_imgRegex_complete.
  - symmetry. by apply (splice_matched html found 0).
  - intros out ->.
    destruct (replaceMatches_spec html _ w w' out 0 Hrun) as (-> & _ & Hlen).
    { by rewrite Hspans. }
    rewrite Hspans, length_fmap in *. split; [|done].
    change (takeS 0 html) with EmptyString. rewrite app_empty. f_equal.
    rewrite imap_fmap. apply imap_ext. intros i m _.
    unfold compose. rewrite createAsyncPlaceholder_svg.
    unfold placeholder. cbv zeta. cbn [toSvgMatch svg_src].
    by rewrite !app_assoc_s.
  - intros Hprep. apply Forall_fmap in Hprep.
    destruct (replaceMatches_total html _ w Hprep) as (w1 & out & Hok).
    rewrite Hok in Hrun. injection Hrun as <- <-. eauto.
Qed.

Lemma svgCallback_no_content data d k :
  truthyOpt (data_svgContent data) = false →
  getElementById (data_id data) d = Some k →
  (svgCallback data d).1 !! k =
  Some (Html (svgErrorReport (default EmptyString (data_src data))
                (Js.mkError "No SVG content available"))).
Proof.
  intros Hcontent Hk. unfold svgCallback. cbv zeta. rewrite Hcontent, Hk.
  cbn [Js.messageOf Js.message fst].
  pose proof (replacePlaceholder_found (data_id data)
                (svgErrorReport (default EmptyString (data_src data))
                   (Js.mkError "No SVG content available")) d k Hk)
    as (_ & Hfound & _).
  unfold replacePlaceholder in Hfound. by rewrite Hk in Hfound.
Qed.

(** C6, as amended. A task created by the pass is 'ready' when the source
    is a [data:] URL and 'fetching' otherwise, with one fetch started at once
    (a remote fetch for http and https, a local file read for anything else);
    it is never created in status 'error'. A [data:] URL in neither known
    encoding gives a 'ready' task without content, and the failure shows only
    when the task is drained: its callback replaces the placeholder by the
    report "No SVG content available". *)
Theorem C6_initial_status_of_svg_tasks (m : SvgMatch) (html : string) (w : World) :
  let src := svg_src m in
  (∀ w' out,
     processMatch m html w = (w', Js.Ok out) →
     ∃ task fetches,
       asyncTaskQueue w'.1 = asyncTaskQueue w.1 ++ [task] ∧
       w'.2 = w.2 ++ fetches ∧
       task_status task ≠ error ∧
       initialSvgContent src = Js.Ok (data_svgContent (task_data task)) ∧
       if Js.startsWith src "data:"
       then task_status task = ready ∧ fetches = []
       else task_status task = fetching ∧
            data_svgContent (task_data task) = None ∧
            if Js.startsWith src "http://" || Js.startsWith src "https://"
            then fetches = [FetchRemote (task_id task) src]
            else ∃ absoluteUrl, fetches = [ReadLocalFile (task_id task) absoluteUrl])
  ∧ (Js.startsWith src "data:" = true →
     exec dataBase64Regex src 0 = None →
     exec dataUrlRegex src 0 = None →
     ∃ w' out task,
       processMatch m html w = (w', Js.Ok out) ∧
       asyncTaskQueue w'.1 = asyncTaskQueue w.1 ++ [task] ∧
       task_status task = ready ∧
       data_svgContent (task_data task) = None ∧
       ∀ d k,
         getElementById (task_id task) d = Some k →
         (task_callback task (task_data task) d).1 !! k =
         Some (Html (svgErrorReport src (Js.mkError "No SVG content available")))).
Proof.
  intros src. split.
  - intros w' out Hrun.
    apply processMatch_ok in Hrun
      as (task & fetches & content & Hcontent & Hfetch & Hid & Htask & -> & _).
    exists task, fetches. fold src in Hcontent, Hfetch, Htask.
    assert (task_status task = initialStatus src ∧
            data_svgContent (task_data task) = content) as [Hstatus Hdata]
      by (by rewrite Htask).
    rewrite Hstatus, Hdata. unfold startFetch in Hfetch.
    unfold initialSvgContent in Hcontent. unfold initialStatus in *.
    split_and!; try done.
    + by destruct (Js.startsWith src "data:").
    + destruct (Js.startsWith src "data:").
      * by injection Hfetch as <-.
      * injection Hcontent as <-. split_and!; try done.
        destruct (_ || _).
        -- by injection Hfetch as <-.
        -- destruct (resolveUrl src) as [url|]; [|done].
           injection Hfetch as <-. eauto.
  - intros Hdata Hbase64 Hurl.
    unfold processMatch. cbv zeta. fold src.
    unfold initialSvgContent, startFetch, initialStatus.
    rewrite Hdata, Hbase64, Hurl.
    unfold asyncTask, generateAsyncId. cbn [fst snd result_task task_id].
    do 3 eexists. split; [reflexivity|]. cbn [fst asyncTaskQueue].
    split; [reflexivity|]. cbn -[svgCallback]. split_and!; try done.
    intros d k Hk. by apply svgCallback_no_content.
Qed.

End SvgFacts.

Section SvgExamples.
Import Tasks Regex Svg Samples.
Existing Instance samplePlatform.

Example collect_two_images :
  collectMatches (S (String.length twoImages)) twoImages 0 =
  Some [mkSvgMatch ("<img src=" +:+ Js.quoted "a/logo.svg" +:+ ">") "a/logo.svg" 3;
        mkSvgMatch ("<IMG alt=" +:+ Js.quoted "x" +:+ " SRC=" +:+
                    Js.quoted "https://h/b.SVG" +:+ " />") "https://h/b.SVG" 30].
Proof. vm_compute. reflexivity. Qed.

Example process_two_images :
  (λ '(w, res), (task_status <$> asyncTaskQueue w.1, w.2, res))
    <$> processSvgImages twoImages (emptyRegistry, [])
  = Some ([fetching; fetching],
          [FetchRemote "async-placeholder-1" "https://h/b.SVG";
           ReadLocalFile "async-placeholder-2" "file:///docs/a/logo.svg"],
          Js.Ok ("<p>" +:+ createAsyncPlaceholder "async-placeholder-2" "svg" "logo.svg"
                 +:+ " and " +:+ createAsyncPlaceholder "async-placeholder-1" "svg" "b.SVG"
                 +:+ "</p>")).
Proof. vm_compute. reflexivity. Qed.

(** An inline image in an encoding the pass does not know: the task is
    created 'ready', not 'error'. *)
Lemma C6_counterexample :
  (λ '(w, res), (λ t, (task_status t, data_svgContent (task_data t))) <$> asyncTaskQueue w.1)
    <$> processSvgImages unknownEncoding (emptyRegistry, [])
  = Some [(ready, None)].
Proof. vm_compute. reflexivity. Qed.

Lemma C6_witness :
  ∃ w' out task,
    processMatch (mkSvgMatch unknownEncoding "data:text/plain,hello.svg" 0)
      unknownEncoding (emptyRegistry, []) = (w', Js.Ok out) ∧
    asyncTaskQueue w'.1 = [task] ∧
    task_status task = ready ∧
    data_svgContent (task_data task) = None.
Proof.
  destruct (C6_initial_status_of_svg_tasks
              (mkSvgMatch unknownEncoding "data:text/plain,hello.svg" 0)
              unknownEncoding (emptyRegistry, [])) as (_ & Hunknown).
  destruct Hunknown as (w' & out & task & Hrun & Hqueue & Hstatus & Hcontent & _);
    [reflexivity..|].
  exists w', out, task. auto.
Defined.

(** A no-break space separates [img] from its attributes as well as a
    blank does. *)
Example image_after_no_break_space :
  let tag := "<img" +:+ Js.utf8 160 +:+ "src=" +:+ Js.quoted "a.svg" +:+ ">" in
  collectMatches (S (String.length tag)) tag 0 = Some [mkSvgMatch tag "a.svg" 0].
Proof. vm_compute. reflexivity. Qed.

Lemma C10_witness :
  ∃ found w' res,
    processSvgImages twoImages (emptyRegistry, []) = Some (w', res) ∧
    twoImages = splice 0 twoImages (span <$> found) (matched twoImages <$> found).
Proof.
  destruct (C10_only_matched_tags_change twoImages (emptyRegistry, []))
    as (found & w' & res & Hrun & _ & _ & _ & _ & Hsame & _).
  exists found, w', res. split; [exact Hrun|exact Hsame].
Defined.

End SvgExamples.

(** ** Escaping *)

Section EscapeFacts.
Import Tasks Escape.

Lemma occurs_app c a b : occurs c (a +:+ b) ↔ occurs c a ∨ occurs c b.
Proof.
  induction a as [|d a IH].
  - rewrite app_empty. simpl. tauto.
  - rewrite app_cons. simpl. rewrite IH. tauto.
Qed.

Lemma entity_no_markup c d : d ∈ markupChars → ¬ occurs d (entity c).
Proof.
  intros Hd Hocc. unfold entity in Hocc.
  repeat match type of Hocc with
  | context [Ascii.eqb c ?x] => destruct (Ascii.eqb_spec c x) as [->|?]
  end;
  unfold markupChars in Hd; rewrite !elem_of_cons, elem_of_nil in Hd;
  simpl in Hocc; intuition (subst; congruence).
Qed.

(** X1. The five chained replacements amount to one pass over the text
    that writes each character as itself or as its entity: what an earlier
    replacement wrote is never escaped again. The result holds none of the
    characters that open or close a tag or an attribute value: no [<], no
    [>], no double quote and no single quote. *)
Theorem X1_escapeHtml_leaves_no_markup (text : string) :
  escapeHtml text = escaped text ∧
  Forall (λ d, ¬ occurs d (escapeHtml text)) markupChars.
Proof.
  split.
  - induction text as [|c text IH]; [done|]. rewrite escapeHtml_cons. simpl. by rewrite IH.
  - apply Forall_forall. intros d Hd.
    induction text as [|c text IH]; [by intros []|].
    rewrite escapeHtml_cons, occurs_app. intros [Hc|Ht]; [|done].
    by eapply entity_no_markup.
Qed.

Lemma entity_prefix c d x y :
  entity c +:+ x = entity d +:+ y → c = d ∧ x = y.
Proof.
  unfold entity.
  repeat match goal with
  | |- context [Ascii.eqb ?a ?b] => destruct (Ascii.eqb_spec a b) as [->|?]
  end;
  cbv [String.append]; intros Heq; simplify_eq; done.
Qed.

Lemma entity_nonempty c x : entity c +:+ x ≠ EmptyString.
Proof.
  unfold entity.
  repeat match goal with
  | |- context [Ascii.eqb ?a ?b] => destruct (Ascii.eqb_spec a b) as [->|?]
  end; done.
Qed.

(** X2. Different texts have different escaped forms: the five chained
    replacements never map two texts to the same output, so that the text can
    be told from its escaped form. *)
Theorem X2_escapeHtml_injective (a b : string) :
  a ≠ b → escapeHtml a ≠ escapeHtml b.
Proof.
  intros Hne Heq. apply Hne. clear Hne. revert b Heq.
  induction a as [|c a IH]; intros [|d b] Heq; [done| | |].
  - rewrite escapeHtml_cons in Heq. symmetry in Heq. by apply entity_nonempty in Heq.
  - rewrite escapeHtml_cons in Heq. by apply entity_nonempty in Heq.
  - rewrite !escapeHtml_cons in Heq. apply entity_prefix in Heq as [-> Heq].
    f_equal. by apply IH.
Qed.

Lemma X2_witness :
  "<" ≠ "&lt;" ∧ escapeHtml "<" ≠ escapeHtml "&lt;".
Proof. split; [done|]. by apply X2_escapeHtml_injective. Defined.

Example escapeHtml_sample :
  escapeHtml ("<a href=" +:+ Js.quoted "x" +:+ ">Tom & Jerry's</a>")
  = "&lt;a href=&quot;x&quot;&gt;Tom &amp; Jerry&#039;s&lt;/a&gt;".
Proof. reflexivity. Qed.

End EscapeFacts.

(** ** The sanitizer, applied twice *)

Section SanitizerIdempotence.
Context `{Platform}.
Import Dom Sanitizer DomShape.

Lemma distinctAttributes_element tag attrs children :
  distinctAttributes (Element tag attrs children) ↔
  NoDup (attr_name <$> attrs) ∧ Forall distinctAttributes children.
Proof.
  simpl. apply and_iff_compat_l.
  induction children as [|c l IH]; [by split; [constructor|]|].
  rewrite Forall_cons, IH. done.
Qed.

Lemma isComment_sanitizedNode n : isComment (sanitizedNode n) = isComment n.
Proof.
  destruct n as [tag attrs children| |]; try done.
  rewrite sanitizedNode_element. by case_bool_decide.
Qed.

Lemma removeComments_none l :
  Forall (λ n, isComment n = false) l → removeComments l = l.
Proof.
  induction 1 as [|n l Hn _ IH]; simpl; [done|]. by rewrite Hn, IH.
Qed.

Lemma removeComments_clean l : Forall (λ n, isComment n = false) (removeComments l).
Proof.
  induction l as [|n l IH]; simpl; [done|].
  destruct (isComment n) eqn:Hn; [done|]. by constructor.
Qed.

Lemma sanitizedAttribute_fixed a b :
  sanitizedAttribute a = Some b → sanitizedAttribute b = Some b.
Proof.
  intros Hab. pose proof (sanitizedAttribute_name a b Hab) as Hname.
  revert Hab. unfold sanitizedAttribute. rewrite Hname.
  repeat (case_decide || case_bool_decide || case_match);
    intros [= <-]; simpl in *; try done; congruence.
Qed.

Lemma omap_sanitizedAttribute_names attrs :
  NoDup (attr_name <$> attrs) → NoDup (attr_name <$> omap sanitizedAttribute attrs).
Proof.
  induction attrs as [|a attrs IH]; csimpl; [done|].
  rewrite NoDup_cons. intros [Hnot Hnd].
  destruct (sanitizedAttribute a) as [b|] eqn:Hab; [|by apply IH].
  csimpl. apply NoDup_cons. split; [|by apply IH].
  rewrite (sanitizedAttribute_name a b Hab). intros Hin. apply Hnot.
  apply list_elem_of_fmap in Hin as (b' & -> & Hb').
  apply list_elem_of_omap in Hb' as (a' & Ha' & Hab').
  apply list_elem_of_fmap. exists a'. split; [|done].
  by apply sanitizedAttribute_name.
Qed.

Lemma omap_sanitizedAttribute_twice (attrs : list Attr) :
  omap sanitizedAttribute (omap sanitizedAttribute attrs) = omap sanitizedAttribute attrs.
Proof.
  induction attrs as [|a attrs IH]; csimpl; [done|].
  destruct (sanitizedAttribute a) as [b|] eqn:Hab; [|done].
  csimpl. by rewrite (sanitizedAttribute_fixed a b Hab), IH.
Qed.

Lemma sanitizeElementAttributes_twice attrs :
  NoDup (attr_name <$> attrs) →
  sanitizeElementAttributes (sanitizeElementAttributes attrs) =
  sanitizeElementAttributes attrs.
Proof.
  intros Hnd. rewrite (sanitizeElementAttributes_distinct attrs Hnd).
  rewrite sanitizeElementAttributes_distinct by by apply omap_sanitizedAttribute_names.
  apply omap_sanitizedAttribute_twice.
Qed.

Lemma sanitizedChildren_twice_from l :
  Forall (λ c, sanitizedNode (sanitizedNode c) = sanitizedNode c) l →
  sanitizedChildren (sanitizedChildren l) = sanitizedChildren l.
Proof.
  intros Hall. unfold sanitizedChildren.
  rewrite removeComments_none.
  - rewrite <- list_fmap_compose. apply list_fmap_ext.
    intros i c Hc. simpl. eapply Forall_forall in Hall; [exact Hall|].
    apply removeComments_elem. by eapply list_elem_of_lookup_2.
  - apply Forall_fmap. eapply Forall_impl; [apply removeComments_clean|].
    intros c Hc. simpl. by rewrite isComment_sanitizedNode.
Qed.

Lemma sanitizedNode_twice n :
  ∀ node, nodeCount node ≤ n → distinctAttributes node →
          sanitizedNode (sanitizedNode node) = sanitizedNode node.
Proof.
  induction n as [|n IH]; intros node Hn Hd.
  { pose proof (nodeCount_pos node). lia. }
  destruct node as [tag attrs children|data|data]; [|done..].
  apply distinctAttributes_element in Hd as [Hattrs Hchildren].
  rewrite sanitizedNode_element. case_bool_decide as Hb.
  - unfold blockedWarning. rewrite sanitizedNode_element.
    replace (bool_decide (Js.toUpperCase "pre" ∈ blockedTags)) with false
      by (by vm_compute).
    done.
  - rewrite sanitizedNode_element. rewrite bool_decide_eq_false_2 by done.
    rewrite sanitizeElementAttributes_twice by done. f_equal.
    apply sanitizedChildren_twice_from.
    apply Forall_forall. intros c Hc. apply IH.
    + pose proof (nodeCount_children (Element tag attrs children)) as Hcount.
      rewrite Hcount in Hn.
      pose proof (sum_list_with_in c nodeCount children Hc). simpl in Hn. lia.
    + by eapply Forall_forall in Hchildren.
Qed.

(** X3. Sanitizing a sanitized tree changes nothing: on a tree whose
    elements carry no attribute twice, the output of the walk is a fixed
    point of the walk. A notice stays the notice it is, a link set to [#]
    stays set to [#], and an attribute that was kept is kept again. *)
Theorem X3_sanitizer_idempotent (root out : Node) :
  distinctAttributes root →
  sanitizeNodeTree root = Some out →
  sanitizeNodeTree out = Some out.
Proof.
  intros Hd. rewrite !sanitizeNodeTree_correct. intros [= <-].
  destruct root as [tag attrs children|data|data]; [|done..].
  apply distinctAttributes_element in Hd as [_ Hchildren]. simpl.
  do 2 f_equal. apply sanitizedChildren_twice_from.
  eapply Forall_impl; [exact Hchildren|].
  intros c Hc. by apply (sanitizedNode_twice (nodeCount c)).
Qed.

End SanitizerIdempotence.

Section SanitizerIdempotenceExamples.
Import Dom Sanitizer DomShape Samples.
Existing Instance samplePlatform.

Lemma X3_witness :
  distinctAttributes sampleTree ∧
  sanitizeNodeTree sampleTree = Some sampleTreeSanitized ∧
  sanitizeNodeTree sampleTreeSanitized = Some sampleTreeSanitized.
Proof.
  assert (distinctAttributes sampleTree) as Hd.
  { simpl. repeat split; apply (bool_decide_unpack _); by vm_compute. }
  assert (sanitizeNodeTree sampleTree = Some sampleTreeSanitized) as Hs by reflexivity.
  split_and!; [done..|]. exact (X3_sanitizer_idempotent _ _ Hd Hs).
Defined.

End SanitizerIdempotenceExamples.

(** ** Registration of tasks *)

Section RegistrationFacts.
Context `{Platform}.
Import Tasks Extraction Registration.

Lemma placeholderId_inj n m : placeholderId n = placeholderId m → n = m.
Proof.
  unfold placeholderId. intros Heq.
  apply (inj (String.append "async-placeholder-")) in Heq.
  by apply (inj pretty) in Heq.
Qed.

Lemma asyncTask_spec callback data type description status r :
  ∃ task,
    asyncTask callback data type description status r =
      (mkResult task (createAsyncPlaceholder (task_id task) type description),
       mkRegistry (asyncTaskQueue r ++ [task]) (S (asyncTaskIdCounter r))) ∧
    task = mkTask (placeholderId (S (asyncTaskIdCounter r))) callback
             (mkData (placeholderId (S (asyncTaskIdCounter r))) (data_code data)
                (data_src data) (data_originalTag data) (data_svgContent data))
             type status None.
Proof.
  exists (mkTask (placeholderId (S (asyncTaskIdCounter r))) callback
            (mkData (placeholderId (S (asyncTaskIdCounter r))) (data_code data)
               (data_src data) (data_originalTag data) (data_svgContent data))
            type status None).
  done.
Qed.

Lemma numbered_push r task :
  numbered r →
  task_id task = placeholderId (S (asyncTaskIdCounter r)) →
  data_id (task_data task) = task_id task →
  (task_id task ∉ task_id <$> asyncTaskQueue r) ∧
  numbered (mkRegistry (asyncTaskQueue r ++ [task]) (S (asyncTaskIdCounter r))).
Proof.
  intros [Hnd Hall] Hid Hdata.
  assert (task_id task ∉ task_id <$> asyncTaskQueue r) as Hfresh.
  { intros Hin. apply list_elem_of_fmap in Hin as (t & Ht & Hin).
    eapply Forall_forall in Hall as (_ & n & Hn & Hidn); [|exact Hin].
    rewrite Hid, Hidn in Ht. apply placeholderId_inj in Ht. lia. }
  split; [done|]. split; simpl.
  - rewrite fmap_app. simpl. apply NoDup_app. split_and!; [done| |apply NoDup_singleton].
    intros x Hx Hx'. apply list_elem_of_singleton in Hx'. by subst.
  - apply Forall_app. split.
    + eapply Forall_impl; [exact Hall|]. intros t (Hd & n & Hn & Hidn).
      split; [done|]. exists n. split; [lia|done].
    + apply Forall_singleton. split; [done|]. eexists. split; [|exact Hid]. lia.
Qed.

Lemma visit_parent onHtml onCode type children r :
  visit onHtml onCode (MdParent type children) r =
  '(children', r') ← visitChildren onHtml onCode children r;
  Some (MdParent type children', r').
Proof.
  simpl. f_equal. clear type. revert r.
  induction children as [|c l IH]; intros r; [done|]. simpl.
  destruct (visit onHtml onCode c r) as [[c' r1]|]; [|done]. simpl.
  by rewrite IH.
Qed.

Lemma mermaidCodes_parent type children :
  mermaidCodes (MdParent type children) = concat (mermaidCodes <$> children).
Proof.
  simpl. induction children as [|c l IH]; [done|]. simpl. by rewrite IH.
Qed.

Lemma MdNode_nested_ind (P : MdNode → Prop) :
  (∀ type children, Forall P children → P (MdParent type children)) →
  (∀ lang value, P (MdCode lang value)) →
  (∀ value, P (MdHtml value)) →
  (∀ type value, P (MdLeaf type value)) →
  ∀ n, P n.
Proof.
  intros Hparent Hcode Hhtml Hleaf. fix IH 1.
  intros [type children|lang value|value|type value].
  - apply Hparent. induction children as [|c l IHl]; constructor; [apply IH|apply IHl].
  - apply Hcode.
  - apply Hhtml.
  - apply Hleaf.
Qed.

Lemma extends_nil r : extends r [] r.
Proof. unfold extends. destruct r. simpl. by rewrite app_nil_r, Nat.add_0_r. Qed.

Lemma extends_trans r1 t1 r2 t2 r3 :
  extends r1 t1 r2 → extends r2 t2 r3 → extends r1 (t1 ++ t2) r3.
Proof.
  unfold extends. intros -> ->. simpl.
  rewrite length_app, app_assoc. f_equal; lia.
Qed.

Lemma mermaid_children l :
  Forall (λ c, ∀ r, ∃ c', mermaidResult c r c') l →
  ∀ r, ∃ l' tasks r',
    visitChildren (λ value r, Some (MdHtml value, r)) mermaidVisitor l r = Some (l', r') ∧
    extends r tasks r' ∧
    (λ t, data_code (task_data t)) <$> tasks = Some <$> concat (mermaidCodes <$> l) ∧
    task_id <$> tasks =
      placeholderId <$> seq (S (asyncTaskIdCounter r)) (length tasks) ∧
    Forall mermaidTask tasks ∧
    concat (mermaidCodes <$> l') = [] ∧
    (concat (mermaidCodes <$> l) = [] → l' = l).
Proof.
  induction 1 as [|c l Hc _ IH]; intros r.
  { exists [], [], r. split_and!; try done. apply extends_nil. }
  destruct (Hc r) as (c' & t1 & r1 & Hrun & Hext1 & Hcodes1 & Hids1 & Hall1 & Hnone1 & Hsame1).
  destruct (IH r1) as (l' & t2 & r2 & Hrun2 & Hext2 & Hcodes2 & Hids2 & Hall2 & Hnone2 & Hsame2).
  exists (c' :: l'), (t1 ++ t2), r2.
  unfold remarkMermaidToPng in Hrun. rewrite !fmap_cons, !concat_cons.
  split_and!.
  - simpl. rewrite Hrun. simpl. rewrite Hrun2. done.
  - by eapply extends_trans.
  - by rewrite !fmap_app, Hcodes1, Hcodes2.
  - rewrite fmap_app, Hids1, Hids2, length_app, seq_app, fmap_app.
    do 3 f_equal. rewrite Hext1. simpl. lia.
  - by apply Forall_app.
  - by rewrite Hnone1, Hnone2.
  - intros Hnil. apply app_eq_nil in Hnil as [Hn1 Hn2].
    by rewrite Hsame1, Hsame2.
Qed.

Lemma mermaidResult_exists (tree : MdNode) : ∀ r, ∃ tree', mermaidResult tree r tree'.
Proof.
  induction tree as [type children IH|lang value|value|type value]
    using MdNode_nested_ind; intros r.
  - destruct (mermaid_children children IH r)
      as (l' & tasks & r' & Hrun & Hext & Hcodes & Hids & Hall & Hnone & Hsame).
    exists (MdParent type l'), tasks, r'.
    unfold remarkMermaidToPng. rewrite !mermaidCodes_parent, visit_parent, Hrun.
    split_and!; try done.
    intros Hnil. by rewrite Hsame.
  - unfold mermaidResult, remarkMermaidToPng. simpl. unfold mermaidVisitor.
    case_decide as Hlang.
    + destruct (asyncTask_spec mermaidCallback
                  (mkData EmptyString (Some value) None None None)
                  "mermaid" EmptyString ready r) as (task & -> & Htask).
      eexists _, [task], _. split; [reflexivity|].
      split_and!; try done.
      * unfold extends. simpl. f_equal. lia.
      * by rewrite Htask.
      * simpl. by rewrite Htask.
      * apply Forall_singleton. by rewrite Htask.
    + exists (MdCode lang value), [], r. split_and!; try done; [apply extends_nil|].
      simpl. by rewrite decide_False.
  - exists (MdHtml value), [], r. split_and!; try done. apply extends_nil.
  - exists (MdLeaf type value), [], r. split_and!; try done. apply extends_nil.
Qed.

(** X5. The Mermaid plugin returns on every document tree, whose root is a
    parent node. It queues one ready 'mermaid' task per Mermaid code block,
    in document order and with consecutive ids, each carrying the block's
    code; it leaves no Mermaid block in the tree, and a tree without any is
    returned as it was. *)
Theorem X5_mermaid_plugin_queues_each_block (type : string) (children : list MdNode)
    (r : Registry) :
  let tree := MdParent type children in
  ∃ tree' tasks r',
    remarkMermaidToPng tree r = Some (tree', r') ∧
    asyncTaskQueue r' = asyncTaskQueue r ++ tasks ∧
    asyncTaskIdCounter r' = asyncTaskIdCounter r + length tasks ∧
    (λ t, data_code (task_data t)) <$> tasks = Some <$> mermaidCodes tree ∧
    task_id <$> tasks =
      placeholderId <$> seq (S (asyncTaskIdCounter r)) (length tasks) ∧
    Forall (λ t, task_status t = ready ∧ task_type t = "mermaid" ∧
                 task_callback t = mermaidCallback) tasks ∧
    mermaidCodes tree' = [] ∧
    (mermaidCodes tree = [] → tree' = tree).
Proof.
  cbv zeta.
  destruct (mermaidResult_exists (MdParent type children) r)
    as (tree' & tasks & r' & Hrun & Hext & Hcodes & Hids & Hall & Hnone & Hsame).
  unfold extends in Hext. subst r'.
  exists tree', tasks. eexists. split; [exact Hrun|].
  split_and!; done.
Qed.

(** *** Ids stay unique through the three passes *)

Lemma asyncTask_numbered callback data type description status r :
  numbered r →
  numbered (asyncTask callback data type description status r).2.
Proof.
  intros Hr.
  destruct (asyncTask_spec callback data type description status r) as (task & -> & Htask).
  simpl. apply numbered_push; by rewrite ?Htask.
Qed.

Lemma visit_invariant (P : Registry → Prop) onHtml onCode :
  (∀ value r n r', P r → onHtml value r = Some (n, r') → P r') →
  (∀ lang value r, P r → P (onCode lang value r).2) →
  ∀ tree r tree' r', P r → visit onHtml onCode tree r = Some (tree', r') → P r'.
Proof.
  intros Hhtml Hcode.
  induction tree as [type children IH|lang value|value|type value]
    using MdNode_nested_ind; intros r tree' r' Hr Hrun.
  - rewrite visit_parent in Hrun.
    destruct (visitChildren onHtml onCode children r) as [[l' r1]|] eqn:Hl; [|done].
    simpl in Hrun. injection Hrun as <- <-. revert r l' r1 Hr Hl.
    induction IH as [|c l Hc _ IHl]; intros r l' r1 Hr Hl.
    + simpl in Hl. by injection Hl as <- <-.
    + simpl in Hl.
      destruct (visit onHtml onCode c r) as [[c' r2]|] eqn:Hvc; [|done]. simpl in Hl.
      destruct (visitChildren onHtml onCode l r2) as [[l2 r3]|] eqn:Hvl; [|done].
      injection Hl as <- <-. eapply IHl; [|exact Hvl]. by eapply Hc.
  - simpl in Hrun. injection Hrun as Heq.
    pose proof (Hcode lang value r Hr) as Hp. by rewrite Heq in Hp.
  - by eapply Hhtml.
  - by injection Hrun as <- <-.
Qed.

Lemma remarkHtmlToPng_numbered tree r tree' r' :
  numbered r → remarkHtmlToPng tree r = Some (tree', r') → numbered r'.
Proof.
  apply (visit_invariant numbered); [|done].
  intros value r0 n r1 Hr0. unfold htmlVisitor. cbv zeta.
  destruct (negb _); [by intros [= <- <-]|].
  destruct (Regex.test _ _); [by intros [= <- <-]|].
  destruct (Sanitizer.sanitizeRenderedHtml _) as [sanitizedHtml|]; [|done]. simpl.
  destruct (_ || _); [by intros [= <- <-]|].
  pose proof (asyncTask_numbered htmlCallback
                (mkData EmptyString (Some sanitizedHtml) None None None)
                "html" EmptyString ready r0 Hr0) as Hnum.
  intros [= <- <-]. exact Hnum.
Qed.

Lemma remarkMermaidToPng_numbered tree r tree' r' :
  numbered r → remarkMermaidToPng tree r = Some (tree', r') → numbered r'.
Proof.
  apply (visit_invariant numbered); [by intros value r0 n r1 Hr0 [= <- <-]|].
  intros lang value r0 Hr0. unfold mermaidVisitor.
  case_decide; [|done].
  pose proof (asyncTask_numbered mermaidCallback
                (mkData EmptyString (Some value) None None None)
                "mermaid" EmptyString ready r0 Hr0) as Hnum.
  exact Hnum.
Qed.


End RegistrationFacts.

Section SvgOrderFacts.
Context `{Platform}.
Import Tasks Regex Extraction Svg Registration.

Lemma processMatch_numbered m html w :
  numbered w.1 → numbered (processMatch m html w).1.1.
Proof.
  intros Hw. unfold processMatch. cbv zeta.
  destruct (initialSvgContent (svg_src m)) as [content|e]; [|done].
  pose proof (asyncTask_numbered svgCallback
                (mkData EmptyString None (Some (svg_src m)) (Some (svg_fullMatch m)) content)
                "svg" (Js.lastSegment (svg_src m)) (initialStatus (svg_src m)) w.1 Hw)
    as Hnum.
  destruct (asyncTask _ _ _ _ _ _) as [result r2] eqn:Htask. simpl in Hnum.
  by destruct (startFetch _ _).
Qed.

Lemma replaceMatches_numbered html matches w :
  numbered w.1 → numbered (replaceMatches matches html w).1.1.
Proof.
  intros Hw. induction matches as [|m later IH]; simpl; [done|].
  destruct (replaceMatches later html w) as [w1 [html1|e]]; [|done].
  by apply processMatch_numbered.
Qed.

(** X4. Placeholder ids never collide. Through the HTML plugin and the
    Mermaid plugin, run on a document tree, and the image pass, one after
    the other on a registry whose tasks are numbered by the counter, the
    tasks stay numbered: no two queued tasks share an id, and each task's
    [data.id], by which its callback finds the placeholder, is the id it was
    registered under. *)
Theorem X4_placeholder_ids_stay_unique (type : string) (children : list MdNode)
    (t1 t2 : MdNode) (html : string)
    (r r1 r2 : Registry) (fetches : list Fetch) (w : World) (res : Js.result string) :
  numbered r →
  remarkHtmlToPng (MdParent type children) r = Some (t1, r1) →
  remarkMermaidToPng t1 r1 = Some (t2, r2) →
  processSvgImages html (r2, fetches) = Some (w, res) →
  NoDup (task_id <$> asyncTaskQueue w.1) ∧
  Forall (λ t, data_id (task_data t) = task_id t) (asyncTaskQueue w.1) ∧
  numbered w.1.
Proof.
  intros Hr Hhtml Hmermaid Hsvg.
  assert (numbered w.1) as Hw.
  { apply remarkHtmlToPng_numbered in Hhtml; [|done].
    apply remarkMermaidToPng_numbered in Hmermaid; [|done].
    unfold processSvgImages in Hsvg.
    destruct (collectMatches _ _ _) as [matches|]; [|done]. simpl in Hsvg.
    injection Hsvg as Hrun.
    pose proof (replaceMatches_numbered html matches (r2, fetches) Hmermaid) as Hnum.
    by rewrite Hrun in Hnum. }
  split_and!; [apply Hw| |done].
  eapply Forall_impl; [apply Hw|]. by intros t [? _].
Qed.

Lemma replaceMatches_tasks html matches : ∀ w w' out,
  replaceMatches matches html w = (w', Js.Ok out) →
  ∃ tasks,
    asyncTaskQueue w'.1 = asyncTaskQueue w.1 ++ tasks ∧
    asyncTaskIdCounter w'.1 = asyncTaskIdCounter w.1 + length tasks ∧
    Forall2 svgTask (rev matches) tasks ∧
    task_id <$> tasks = placeholderId <$> seq (S (asyncTaskIdCounter w.1)) (length tasks).
Proof.
  induction matches as [|m later IH]; intros w w' out Hrun.
  - injection Hrun as <- <-. exists []. simpl.
    rewrite app_nil_r. split_and!; first [done | lia | constructor].
  - simpl in Hrun.
    destruct (replaceMatches later html w) as [w1 [html1|e]] eqn:Hlater; [|done].
    destruct (IH w w1 html1 Hlater) as (tasks & Hq & Hc & Hall & Hids).
    apply processMatch_ok in Hrun
      as (task & fetches & content & _ & _ & Hid & Htask & -> & _).
    exists (tasks ++ [task]). simpl. rewrite Hq, Hc, length_app. simpl.
    split_and!.
    + by rewrite app_assoc.
    + lia.
    + apply Forall2_app; [done|]. constructor; [|constructor].
      rewrite Htask. done.
    + rewrite fmap_app, Hids, seq_app, fmap_app. simpl. f_equal.
      by rewrite Hid, Hc.
Qed.

Lemma fmap_rev {A B} (f : A → B) (l : list A) : f <$> rev l = rev (f <$> l).
Proof.
  induction l as [|x l IH]; [done|]. simpl. by rewrite fmap_app, IH.
Qed.

(** X7. The image pass registers its tasks last image first. The image
    tags are those the scan of the markup with the image-tag pattern finds,
    each the first match from where the previous one ended, in document
    order. When the pass returns, the tasks it pushed stand in the queue in
    the reverse of that order, with consecutive ids, so that the last image
    of the document has the lowest id; each is an 'svg' task that carries
    the tag's source (group 1 of the match) and the tag itself, 'ready' for
    a [data:] source and 'fetching' otherwise. *)
Theorem X7_image_pass_registers_last_first (html : string) (w w' : World)
    (out : string) :
  processSvgImages html w = Some (w', Js.Ok out) →
  ∃ found tasks,
    Scan
      (seqs
         [litI "<img"; Plus space; Star (notChar ">");
          litI "src="; char "034";
          Group 1 (seqs [Plus (notChar "034"); litI ".svg"]);
          char "034"; Star (notChar ">"); char ">"])
      html 0 found ∧
    inOrder 0 (String.length html) (span <$> found) ∧
    asyncTaskQueue w'.1 = asyncTaskQueue w.1 ++ tasks ∧
    Forall2 (λ m t,
               task_type t = "svg" ∧ task_callback t = svgCallback ∧
               task_status t =
                 (if Js.startsWith (default EmptyString (group 1 html m)) "data:"
                  then ready else fetching) ∧
               data_src (task_data t) = Some (default EmptyString (group 1 html m)) ∧
               data_originalTag (task_data t) = Some (matched html m))
      (rev found) tasks ∧
    task_id <$> tasks =
      (λ n, "async-placeholder-" +:+ pretty n) <$>
        seq (S (asyncTaskIdCounter w.1)) (length found).
Proof.
  unfold processSvgImages. intros Hrun.
  destruct (collectMatches_scan html (S (String.length html)) 0)
    as (found & Hcollect & Hscan & Horder & _); [lia..|].
  rewrite Hcollect in Hrun. simpl in Hrun. injection Hrun as Hrun.
  destruct (replaceMatches_tasks html _ w w' out Hrun)
    as (tasks & Hq & Hc & Hall & Hids).
  exists found, tasks. split_and!; try done.
  - rewrite <- fmap_rev, Forall2_fmap_l in Hall.
    eapply Forall2_impl; [exact Hall|]. by intros m t (? & ? & ? & ? & ?).
  - rewrite Hids. unfold placeholderId. do 2 f_equal.
    apply Forall2_length in Hall. by rewrite length_rev, length_fmap in Hall.
Qed.

End SvgOrderFacts.

Section CallbackFacts.
Context `{Platform}.
Import Tasks Wire Extraction.

Local Abbreviation QUOTE := (String "034"%char EmptyString) (only parsing).

(** X6. The callback of an HTML block changes at most the first element
    that carries its placeholder id, and nothing when there is none. It
    rejects in one case only: the renderer rejected with [null] or
    [undefined], whose [message] the [catch] clause cannot read; the document
    is then left as it was. Otherwise it resolves. It puts the image written
    out below there only when the renderer resolved to a result without
    [error] whose trimmed [base64] begins with the PNG prefix "iVBOR"; in
    every other case the placeholder becomes the error report: a red-bordered
    [<pre>] with the localized reason, a blank line, and the escaped block,
    cut to 500 code units. *)
Theorem X6_html_callback_shows_only_png (data : TaskData) (d : Document) :
  let code := default EmptyString (data_code data) in
  let snippet :=
    if (500 <? Js.length code)%nat then Js.slice0 500 code +:+ "..." else code in
  let report (reason : string) : string :=
    "<pre style=" +:+ QUOTE
    +:+ "background: #fee; border-left: 4px solid #f00; padding: 10px; font-size: 12px;"
    +:+ QUOTE +:+ ">"
    +:+ Js.or_else (translate "async_html_convert_error" [Escape.escaped reason])
          ("HTML conversion error: " +:+ Escape.escaped reason)
    +:+ "

" +:+ Escape.escaped snippet +:+ "</pre>" in
  let image (png : PngResult) : string :=
    "<div class=" +:+ QUOTE +:+ "html-diagram" +:+ QUOTE +:+ " style="
    +:+ QUOTE +:+ "text-align: center; margin: 20px 0;" +:+ QUOTE +:+ ">
                <img src=" +:+ QUOTE +:+ "data:image/png;base64,"
    +:+ Js.trim (png_base64 png)
    +:+ QUOTE +:+ " alt=" +:+ QUOTE +:+ "HTML diagram" +:+ QUOTE
    +:+ " width=" +:+ QUOTE
    +:+ Js.numberToString (Js.Math_round (Js.quarter (png_width png)))
    +:+ "px" +:+ QUOTE +:+ " />
              </div>" in
  match getElementById (data_id data) d with
  | None => htmlCallback data d = (d, Js.Ok ())
  | Some i =>
      match renderHtmlToPng code with
      | Js.RejectedWith Js.ThrownNull =>
          htmlCallback data d =
          (d, Js.Throw (Js.mkError "Cannot read properties of null (reading 'message')"))
      | Js.RejectedWith Js.ThrownUndefined =>
          htmlCallback data d =
          (d, Js.Throw
                (Js.mkError "Cannot read properties of undefined (reading 'message')"))
      | Js.RejectedWith (Js.ThrownError e) =>
          htmlCallback data d = (<[i := Html (report (Js.message e))]> d, Js.Ok ())
      | Js.RejectedWith Js.ThrownOther =>
          htmlCallback data d = (<[i := Html (report EmptyString)]> d, Js.Ok ())
      | Js.Fulfilled None =>
          htmlCallback data d =
          (<[i := Html (report "Renderer returned empty image data")]> d, Js.Ok ())
      | Js.Fulfilled (Some png) =>
          if truthyOpt (png_error png)
          then htmlCallback data d =
               (<[i := Html (report (default EmptyString (png_error png)))]> d, Js.Ok ())
          else if negb (Js.truthy (Js.trim (png_base64 png)))
          then htmlCallback data d =
               (<[i := Html (report "Renderer returned empty image data")]> d, Js.Ok ())
          else if negb (Js.startsWith (Js.trim (png_base64 png)) "iVBOR")
          then htmlCallback data d =
               (<[i := Html (report "Renderer returned invalid image data")]> d, Js.Ok ())
          else htmlCallback data d = (<[i := Html (image png)]> d, Js.Ok ())
      end
  end.
Proof.
  intros code snippet report image.
  assert (∀ reason, htmlErrorReport reason code = report reason) as Hreport.
  { intros reason. unfold htmlErrorReport, report, errorBlock, truncated. cbv zeta.
    fold snippet. rewrite !escapeHtml_escaped.
    unfold Js.quoted, Js.dq, Js.nl. by rewrite !app_assoc_s. }
  unfold htmlCallback. cbv zeta. fold code.
  destruct (getElementById (data_id data) d) as [i|] eqn:Hget.
  2:{ by destruct (renderHtmlToPng code). }
  destruct (renderHtmlToPng code) as [[png|]|[e| | |]] eqn:Hrender;
    cbn [Js.messageOf default mbind option_bind]; unfold setOuterHTML;
    rewrite ?Hreport; try done.
  destruct (truthyOpt (png_error png)) eqn:Herr; cbn [orb negb]; [done|].
  destruct (Js.truthy (png_base64 png)) eqn:Hb64.
  - destruct (Js.truthy (Js.trim (png_base64 png))) eqn:Htrim; cbn [orb negb]; [|done].
    destruct (Js.startsWith (Js.trim (png_base64 png)) "iVBOR") eqn:Hpng;
      cbn [orb negb]; [|done].
    do 3 f_equal. unfold htmlImage, image, displayWidth, Js.quoted, Js.dq.
    by rewrite !app_assoc_s.
  - assert (Js.trim (png_base64 png) = EmptyString) as ->.
    { by destruct (png_base64 png). }
    done.
Qed.

End CallbackFacts.

Section RegistrationExamples.
Import Tasks Regex Extraction Svg Registration Samples MoreSamples.
Existing Instance samplePlatform.

(** The sample document: its HTML block and its two Mermaid blocks are
    queued, in that order; then the two images, the remote one first. *)
Example register_sample_document :
  (λ '(tree, r), (mermaidCodes tree, (λ t, (task_id t, task_type t)) <$> asyncTaskQueue r))
    <$> (remarkHtmlToPng sampleDocument emptyRegistry ≫= λ '(t1, r1),
         remarkMermaidToPng t1 r1)
  = Some ([], [("async-placeholder-1", "html"); ("async-placeholder-2", "mermaid");
               ("async-placeholder-3", "mermaid")]).
Proof. vm_compute. reflexivity. Qed.

Lemma X4_witness :
  ∃ t1 r1 t2 r2 w res,
    remarkHtmlToPng sampleDocument emptyRegistry = Some (t1, r1) ∧
    remarkMermaidToPng t1 r1 = Some (t2, r2) ∧
    processSvgImages twoImages (r2, []) = Some (w, res) ∧
    length (asyncTaskQueue w.1) = 5 ∧
    NoDup (task_id <$> asyncTaskQueue w.1).
Proof.
  destruct (remarkHtmlToPng sampleDocument emptyRegistry) as [[t1 r1]|] eqn:Hhtml;
    [|by vm_compute in Hhtml].
  destruct (remarkMermaidToPng t1 r1) as [[t2 r2]|] eqn:Hmermaid.
  2:{ vm_compute in Hhtml. injection Hhtml as <- <-. by vm_compute in Hmermaid. }
  destruct (processSvgImages twoImages (r2, [])) as [[w res]|] eqn:Hsvg.
  2:{ vm_compute in Hhtml. injection Hhtml as <- <-.
      vm_compute in Hmermaid. injection Hmermaid as <- <-. by vm_compute in Hsvg. }
  exists t1, r1, t2, r2, w, res. split_and!; [done..| |].
  - vm_compute in Hhtml. injection Hhtml as <- <-.
    vm_compute in Hmermaid. injection Hmermaid as <- <-.
    vm_compute in Hsvg. by injection Hsvg as <- <-.
  - assert (numbered emptyRegistry) as Hempty by (split; constructor).
    apply (X4_placeholder_ids_stay_unique _ _ t1 t2 twoImages
             emptyRegistry r1 r2 [] w res Hempty Hhtml Hmermaid Hsvg).
Defined.

Lemma X7_witness :
  ∃ w' out tasks,
    processSvgImages twoImages (emptyRegistry, []) = Some (w', Js.Ok out) ∧
    asyncTaskQueue w'.1 = tasks ∧
    (λ t, (task_id t, data_src (task_data t))) <$> tasks =
      [("async-placeholder-1", Some "https://h/b.SVG");
       ("async-placeholder-2", Some "a/logo.svg")].
Proof.
  destruct (processSvgImages twoImages (emptyRegistry, [])) as [[w' [out|e]]|] eqn:Hrun;
    [|by vm_compute in Hrun..].
  destruct (X7_image_pass_registers_last_first _ _ _ _ Hrun)
    as (found & tasks & Hscan & Horder & Hq & Hall & Hids).
  exists w', out, tasks. split_and!; [done|by rewrite Hq|].
  vm_compute in Hrun. injection Hrun as <- <-. simpl in Hq. by rewrite <- Hq.
Defined.

End RegistrationExamples.

(** ** The drain loop, without assumptions on the fetches *)

Section SchedulerMoreFacts.
Context `{Platform}.
Import Tasks Scheduler.

Lemma iteration_progress E s :
  queue s ≠ [] →
  (∃ t s', iteration E s = Drained t s' ∧
           length (queue s') + 1 = length (queue s) ∧
           completedTasks s' = S (completedTasks s)) ∨
  (∃ s', iteration E s = Waited s' ∧
         length (queue s') = length (queue s) ∧
         completedTasks s' = completedTasks s).
Proof.
  intros Hne.
  destruct (list_find drainable (queue s)) as [[i t]|] eqn:Hfind.
  - left. destruct (iteration_found_state E s i t Hfind)
      as (s1 & Hit & Hqc & Hc & _).
    apply list_find_Some in Hfind as (Hi & _ & _).
    pose proof (length_delete _ _ (mk_is_Some _ _ Hi)) as Hdel.
    pose proof (lookup_lt_Some _ _ _ Hi) as Hlt.
    exists t, s1. split_and!; [done| |done].
    destruct Hqc as [[-> _]|[-> _]]; rewrite ?length_fmap, Hdel; lia.
  - right. unfold iteration. rewrite Hfind.
    apply list_find_None in Hfind.
    destruct (queue s) as [|t0 q0] eqn:Hq; [done|].
    apply Forall_cons in Hfind as [Ht0 _].
    apply not_drainable_fetching in Ht0.
    rewrite filter_cons_True by done.
    eexists. split; [reflexivity|]. rewrite <- Hq.
    rewrite suspend_queue, length_fmap. done.
Qed.

Lemma drainLoop_empties fuel E : ∀ s s',
  drainLoop fuel E s = Some s' →
  queue s' = [] ∧ completedTasks s' = completedTasks s + length (queue s).
Proof.
  induction fuel as [|fuel IH]; intros s s' Hrun; [done|].
  simpl in Hrun. destruct (queue s) as [|t0 q0] eqn:Hq.
  { injection Hrun as <-. rewrite Hq. simpl. split; [done|lia]. }
  destruct (iteration_progress E s) as [(t & s1 & Hit & Hlen & Hc)|(s1 & Hit & Hlen & Hc)];
    [by rewrite Hq|..]; rewrite Hit in Hrun;
    destruct (IH s1 s' Hrun) as (Hq' & Hc');
    (split; [done|]); rewrite Hq in Hlen; simpl in *; lia.
Qed.

(** X8. The guard of the drain loop against a queue that can neither be
    drained nor waited for never fires: a turn on a non-empty queue either
    drains a task or waits, it never breaks out. So whenever the loop
    returns, with or without fetches completing, the queue is empty and every
    task it held has been counted exactly once. *)
Theorem X8_drain_guard_never_fires (fuel : nat) (E : Environment) (s : State) :
  (queue s ≠ [] → iteration E s ≠ Broke) ∧
  (∀ s', drainLoop fuel E s = Some s' →
         queue s' = [] ∧
         completedTasks s' = completedTasks s + length (queue s)).
Proof.
  split; [|apply drainLoop_empties].
  intros Hne.
  destruct (iteration_progress E s Hne) as [(t & s1 & -> & _)|(s1 & -> & _)]; done.
Qed.

End SchedulerMoreFacts.

Section SchedulerMoreExamples.
Import Tasks Scheduler Samples.
Existing Instance samplePlatform.

Lemma X8_witness :
  let s := initialState fetchingThenReady
             [Placeholder "async-placeholder-1"; Placeholder "async-placeholder-2"] in
  iteration lateFailure s ≠ Broke ∧
  ∃ s', drainLoop 6 lateFailure s = Some s' ∧ queue s' = [] ∧ completedTasks s' = 2.
Proof.
  intros s. destruct (X8_drain_guard_never_fires 6 lateFailure s) as [Hguard Hloop].
  split; [by apply Hguard|].
  destruct (drainLoop 6 lateFailure s) as [s'|] eqn:Hrun; [|by vm_compute in Hrun].
  exists s'. split; [done|]. by apply Hloop.
Defined.

End SchedulerMoreExamples.

(** ** The reading history *)

Section HistoryFacts.
Context `{History.Surroundings}.
Import History.

Lemma updatedHistory_spec (history : list Item) :
  ∃ rest,
    updatedHistory history =
      mkItem currentDocumentUrl
        (Js.or_else documentTitle (extractFileName currentDocumentUrl)) nowISOString
      :: rest ∧
    length (updatedHistory history) ≤ 100 ∧
    rest `sublist_of` history ∧
    Forall (λ item, item_url item ≠ currentDocumentUrl) rest ∧
    (NoDup (item_url <$> history) → NoDup (item_url <$> updatedHistory history)) ∧
    (length history < 100 →
     rest = filter (λ item, item_url item ≠ currentDocumentUrl) history).
Proof.
  unfold updatedHistory. cbv zeta.
  set (others := filter (λ item, item_url item ≠ currentDocumentUrl) history).
  exists (take 99 others). change 100 with (S 99). rewrite firstn_cons.
  split_and!.
  - done.
  - simpl. rewrite length_take. lia.
  - etrans; [apply sublist_take|]. apply sublist_filter.
  - apply Forall_take. unfold others. apply Forall_forall.
    intros item Hitem. by apply list_elem_of_filter in Hitem as [? _].
  - intros Hnd. rewrite fmap_cons. apply NoDup_cons. split.
    + simpl. intros Hin. apply list_elem_of_fmap in Hin as (item & Hurl & Hitem).
      apply elem_of_take in Hitem as (i & Hitem & _).
      apply list_elem_of_lookup_2, list_elem_of_filter in Hitem as [Hne _].
      by rewrite Hurl in Hne.
    + eapply sublist_NoDup; [exact Hnd|].
      apply fmap_sublist. etrans; [apply sublist_take|]. apply sublist_filter.
  - intros Hlen. apply take_ge.
    pose proof (length_filter (λ item, item_url item ≠ currentDocumentUrl) history).
    unfold others. lia.
Qed.

(** X9. When [saveToHistory] writes a history, it holds at most a hundred
    entries; the current document comes first, under its title or, without
    one, its file name, and appears only there; the entries after it are
    entries of the stored history in their stored order; documents that were
    listed once are still listed once; and nothing is dropped while fewer
    than a hundred documents are stored. A missing key counts as an empty
    history. *)
Theorem X9_history_keeps_latest_hundred (stored : option (list Item))
    (written : list Item) :
  storedHistory = Js.Ok stored →
  saveToHistory = Some written →
  ∃ rest,
    written =
      mkItem currentDocumentUrl
        (Js.or_else documentTitle (extractFileName currentDocumentUrl)) nowISOString
      :: rest ∧
    length written ≤ 100 ∧
    rest `sublist_of` default [] stored ∧
    Forall (λ item, item_url item ≠ currentDocumentUrl) rest ∧
    (NoDup (item_url <$> default [] stored) → NoDup (item_url <$> written)) ∧
    (length (default [] stored) < 100 →
     rest = filter (λ item, item_url item ≠ currentDocumentUrl) (default [] stored)).
Proof.
  intros Hstored Hsave. unfold saveToHistory in Hsave.
  rewrite Hstored in Hsave. cbv zeta in Hsave.
  destruct (storeHistory _); [|done]. injection Hsave as <-.
  apply updatedHistory_spec.
Qed.

(** A failed read or a failed write is swallowed: nothing is written. *)
Lemma saveToHistory_read_fails e :
  storedHistory = Js.Throw e → saveToHistory = None.
Proof. intros Hstored. unfold saveToHistory. by rewrite Hstored. Qed.

End HistoryFacts.

Section HistoryExamples.
Import History MoreSamples.
Existing Instance sampleSurroundings.

Lemma X9_witness :
  saveToHistory =
    Some [mkItem "file:///docs/b.md" "b.md" "2024-02-01T09:30:00.000Z";
          mkItem "file:///docs/a.md" "A" "2024-01-01T10:00:00.000Z";
          mkItem "file:///docs/c.md" "C" "2024-01-03T10:00:00.000Z"] ∧
  ∃ rest,
    rest `sublist_of` sampleHistory ∧
    Forall (λ item, item_url item ≠ "file:///docs/b.md") rest.
Proof.
  split; [by vm_compute|].
  destruct (X9_history_keeps_latest_hundred (Some sampleHistory)
              [mkItem "file:///docs/b.md" "b.md" "2024-02-01T09:30:00.000Z";
               mkItem "file:///docs/a.md" "A" "2024-01-01T10:00:00.000Z";
               mkItem "file:///docs/c.md" "C" "2024-01-03T10:00:00.000Z"])
    as (rest & _ & _ & Hsub & Hother & _); [reflexivity|by vm_compute|].
  by exists rest.
Defined.

End HistoryExamples.

(** ** The toolbar's zoom and layout controls *)

Section ToolbarFacts.
Import Toolbar.

Lemma savedZooms_snoc l x : savedZooms (l ++ [x]) = savedZooms l ++ savedZooms [x].
Proof. unfold savedZooms. by rewrite bind_app. Qed.

Lemma updateZoom_inRange z b s :
  Forall (λ z, 50 ≤ z ≤ 400)%Z (savedZooms (saved s)) → zoomInRange (updateZoom z b s).
Proof.
  intros Hs. unfold zoomInRange, updateZoom. simpl. split; [lia|].
  destruct b; [|done]. rewrite savedZooms_snoc. apply Forall_app. split; [done|].
  repeat constructor; lia.
Qed.

Lemma applyLayout_inRange l b a s : zoomInRange s → zoomInRange (applyLayout l b a s).
Proof.
  intros [Hz Hs]. unfold applyLayout. cbv zeta.
  set (newZoom := if a then _ else _).
  assert (newZoom = None ∨ newZoom = Some 200%Z ∨ newZoom = Some 100%Z) as Hnew.
  { unfold newZoom. destruct a; [|by left]. repeat case_match; auto. }
  destruct Hnew as [-> | [-> | ->]]; destruct b; unfold zoomInRange; simpl;
    rewrite ?savedZooms_snoc, ?Forall_app; split_and?; try done; try lia;
    repeat constructor; lia.
Qed.

Lemma handle_inRange e s : zoomInRange s → zoomInRange (handle e s).
Proof.
  intros Hs. destruct e; cbn [handle]; cbv zeta.
  - apply updateZoom_inRange, Hs.
  - apply updateZoom_inRange, Hs.
  - apply updateZoom_inRange, Hs.
  - destruct (indexOf _ _); by apply applyLayout_inRange.
  - destruct (_ && _); [by apply applyLayout_inRange|done].
Qed.

(** X10. The zoom level stays between 50 and 400 percent: whatever layout
    and zoom were saved, whatever the user then clicks and however the
    window is resized, the zoom level in effect and every zoom level handed
    to [saveFileState] lie in that range. *)
Theorem X10_zoom_stays_in_range (width : Z) (savedLayout : option Layout)
    (savedZoom : option Z) (events : list Event) :
  let s := handleAll events (setUp width savedLayout savedZoom) in
  (50 ≤ zoomLevel s ≤ 400)%Z ∧
  Forall (λ z, 50 ≤ z ≤ 400)%Z (savedZooms (saved s)).
Proof.
  cbv zeta. change (zoomInRange (handleAll events (setUp width savedLayout savedZoom))).
  assert (zoomInRange (setUp width savedLayout savedZoom)) as Hinit.
  { unfold setUp. cbv zeta.
    assert (zoomInRange (applyLayout normal false false (mkState 100 normal width [])))
      as H0 by (split; simpl; [lia|constructor]).
    assert (zoomInRange
              match savedLayout with
              | Some l => applyLayout l false false
                            (applyLayout normal false false (mkState 100 normal width []))
              | None => applyLayout normal false false (mkState 100 normal width [])
              end) as H1.
    { destruct savedLayout; [by apply applyLayout_inRange|done]. }
    destruct savedZoom as [z|]; [|done].
    destruct (z =? 0)%Z; [done|]. apply updateZoom_inRange, H1. }
  revert Hinit. generalize (setUp width savedLayout savedZoom).
  induction events as [|e events IH]; intros s Hs; [done|].
  apply IH. by apply handle_inRange.
Qed.

Lemma handle_wide e s : wideOnlyWhenAvailable s → wideOnlyWhenAvailable (handle e s).
Proof.
  unfold wideOnlyWhenAvailable. intros Hs. destruct e; simpl; try done.
  - unfold getLayoutSequence, isWideLayoutAvailable in *. simpl.
    destruct (WIDE_LAYOUT_THRESHOLD <? innerWidth s)%Z eqn:Hw;
      destruct (currentLayout s); vm_compute indexOf; simpl;
      unfold applyLayout; simpl; rewrite ?Hw; simpl; try done.
  - unfold isWideLayoutAvailable in *. simpl.
    destruct (bool_decide (currentLayout s = wide)) eqn:Hl; simpl.
    + destruct (WIDE_LAYOUT_THRESHOLD <? width)%Z eqn:Hw; simpl; [done|].
      unfold applyLayout. simpl. rewrite Hw. simpl. done.
    + apply bool_decide_eq_false in Hl. done.
Qed.

Lemma handleAll_wide events : ∀ s,
  wideOnlyWhenAvailable s → wideOnlyWhenAvailable (handleAll events s).
Proof.
  induction events as [|e events IH]; intros s Hs; [done|].
  apply IH. by apply handle_wide.
Qed.

Lemma setUp_layout width savedLayout savedZoom :
  currentLayout (setUp width savedLayout savedZoom) = default normal savedLayout ∧
  innerWidth (setUp width savedLayout savedZoom) = width.
Proof.
  unfold setUp. cbv zeta.
  destruct savedLayout as [l|], savedZoom as [z|]; try destruct (z =? 0)%Z; done.
Qed.

(** X11. The layout button never selects the wide layout on a window that
    is too narrow for it, and a window that becomes too narrow leaves the
    wide layout at once: unless a saved wide layout was put back on a narrow
    window, the wide layout is in effect only while the window is wider than
    2420 pixels. *)
Theorem X11_wide_layout_only_on_wide_windows (width : Z)
    (savedLayout : option Layout) (savedZoom : option Z) (events : list Event) :
  (savedLayout = Some wide → 2420 < width)%Z →
  let s := handleAll events (setUp width savedLayout savedZoom) in
  currentLayout s = wide → (2420 < innerWidth s)%Z.
Proof.
  intros Hsaved. cbv zeta. intros Hwide.
  apply handleAll_wide in Hwide.
  - unfold isWideLayoutAvailable, WIDE_LAYOUT_THRESHOLD in Hwide. by apply Z.ltb_lt.
  - unfold wideOnlyWhenAvailable, isWideLayoutAvailable, WIDE_LAYOUT_THRESHOLD.
    destruct (setUp_layout width savedLayout savedZoom) as [-> ->].
    intros Hl. apply Z.ltb_lt, Hsaved. by destruct savedLayout as [l|]; simplify_eq/=.
Qed.

End ToolbarFacts.

Section ToolbarExamples.
Import Toolbar.

(** On a wide window one click leads to the wide layout at zoom 200;
    narrowing the window then leaves it for the full-screen layout. *)
Example layout_click_then_resize :
  let s1 := handleAll [LayoutClick] (setUp 2560 None (Some 150%Z)) in
  let s2 := handleAll [LayoutClick; Resize 1280] (setUp 2560 None (Some 150%Z)) in
  (currentLayout s1, zoomLevel s1) = (wide, 200%Z) ∧
  (currentLayout s2, zoomLevel s2) = (fullscreen, 200%Z) ∧
  saved s2 = [SavedLayout wide (Some 200%Z); SavedLayout fullscreen None].
Proof. by vm_compute. Qed.

(** A saved wide layout is put back whatever the width of the window. *)
Example saved_wide_layout_restored_on_narrow_window :
  currentLayout (setUp 1280 (Some wide) None) = wide.
Proof. reflexivity. Qed.

Lemma X11_witness :
  (2420 < innerWidth (handleAll [LayoutClick] (setUp 2560 (Some normal) None)))%Z.
Proof.
  apply (X11_wide_layout_only_on_wide_windows 2560 (Some normal) None [LayoutClick]).
  - done.
  - reflexivity.
Defined.

End ToolbarExamples.

(** ** Replacement with a callback, and the localization manager *)

Section ReplaceFacts.
Import Regex Replace.

(** The replacement loop ends: each match moves [lastIndex] forward. *)
Lemma replaceLoop_total r replacer input fuel : ∀ lastIndex copied,
  S (String.length input) - lastIndex < fuel →
  is_Some (replaceLoop fuel r replacer input lastIndex copied).
Proof.
  induction fuel as [|fuel IH]; intros lastIndex copied Hfuel; [lia|].
  simpl. destruct (exec r input lastIndex) as [m|] eqn:Hexec; [|done].
  pose proof (exec_bounds _ _ _ _ Hexec) as (Hfrom & Hspan & Hend).
  destruct (IH (if (m_end m =? m_index m)%nat then S (m_end m) else m_end m) (m_end m))
    as [rest ->]; [|done].
  destruct (m_end m =? m_index m)%nat eqn:Hempty.
  - apply Nat.eqb_eq in Hempty. lia.
  - apply Nat.eqb_neq in Hempty. lia.
Qed.

Lemma replace_total r replacer input : is_Some (replace r replacer input).
Proof. apply replaceLoop_total. lia. Qed.

End ReplaceFacts.

Section LocalizationFacts.
Context `{Localization.Browser}.
Import Regex Replace Localization.

Lemma placeholder_not_here index c s k :
  c ≠ "{"%char →
  matchRe (R := Match) placeholder index (String c s) [] k = None.
Proof.
  intros Hc. cbn [placeholder seqs matchRe char].
  destruct (Ascii.eqb_spec "{"%char c) as [Heq|_]; [congruence|done].
Qed.

Lemma placeholder_skip a : ∀ index rest,
  noBrace a →
  searchFrom placeholder index (a +:+ rest) = searchFrom placeholder (index + String.length a) rest.
Proof.
  induction a as [|c a IH]; intros index rest Ha.
  { rewrite app_empty. simpl. by rewrite Nat.add_0_r. }
  destruct Ha as [Hc Ha]. rewrite app_cons. cbn [searchFrom].
  rewrite placeholder_not_here by done. rewrite IH by done.
  f_equal. simpl. lia.
Qed.

Lemma placeholder_none s index :
  noBrace s → searchFrom placeholder index s = None.
Proof.
  revert index. induction s as [|c s IH]; intros index Hs; [done|].
  destruct Hs as [Hc Hs]. cbn [searchFrom].
  rewrite placeholder_not_here by done. by apply IH.
Qed.

(** The greedy run of digits stops at the closing brace. *)
Lemma star_digits ds : ∀ fuel pos rest caps (k : Cont Match) x,
  allDigits ds →
  String.length ds ≤ fuel →
  k (pos + String.length ds) (String "}" rest) caps = Some x →
  starLoop (matchRe digit) k fuel pos (ds +:+ String "}" rest) caps = Some x.
Proof.
  induction ds as [|d ds IH]; intros fuel pos rest caps k x Hds Hfuel Hk.
  - rewrite app_empty. simpl in Hk. rewrite Nat.add_0_r in Hk.
    destruct fuel; [done|]. by cbn.
  - destruct Hds as [Hd Hds]. destruct fuel as [|fuel]; [simpl in Hfuel; lia|].
    rewrite app_cons. cbn [starLoop matchRe digit]. rewrite Hd.
    replace (pos <? S pos) with true by (symmetry; apply Nat.ltb_lt; lia).
    match goal with
    | |- context [starLoop ?f k fuel (S pos) ?s caps] =>
        change (starLoop f k fuel (S pos) s caps)
          with (starLoop (matchRe digit) k fuel (S pos) s caps)
    end.
    rewrite (IH fuel (S pos) rest caps k x); try done.
    + simpl in Hfuel. lia.
    + rewrite <- Hk. f_equal. simpl. lia.
Qed.

Lemma placeholder_here index ds rest :
  allDigits ds → ds ≠ EmptyString →
  searchFrom placeholder index (String "{" (ds +:+ String "}" rest)) =
  Some (mkMatch index (index + String.length ds + 2)
          [(1, (S index, S index + String.length ds))]).
Proof.
  intros Hds Hne. destruct ds as [|d ds]; [done|]. destruct Hds as [Hd Hds].
  destruct rest as [|c rest]; cbn [searchFrom placeholder seqs matchRe char Plus digit];
    rewrite app_cons, Hd.
  all: rewrite (star_digits ds _ (S (S index)) _ [] _
                  (mkMatch index (index + String.length (String d ds) + 2)
                     [(1, (S index, S index + String.length (String d ds)))]));
    try done.
  all: try (rewrite string_length_app; simpl; lia).
  all: cbn; do 2 f_equal; [lia|]; do 3 f_equal; lia.
Qed.

Lemma dropS_app_app x y : dropS (String.length x) (x +:+ y) = y.
Proof. apply dropS_app_length. Qed.

(** The template with one placeholder between brace-free texts. *)
Lemma onePlaceholder_exec a ds b :
  noBrace a → allDigits ds → ds ≠ EmptyString →
  exec placeholder (onePlaceholder a ds b) 0 =
  Some (mkMatch (String.length a) (String.length a + String.length ds + 2)
          [(1, (S (String.length a), S (String.length a) + String.length ds))]).
Proof.
  intros Ha Hds Hne. unfold exec. simpl (0 <=? _). cbn [dropS].
  unfold onePlaceholder. rewrite placeholder_skip by done. simpl (0 + _).
  by apply placeholder_here.
Qed.

Lemma onePlaceholder_split a ds b :
  onePlaceholder a ds b = (a +:+ "{") +:+ ds +:+ String "}" b.
Proof. unfold onePlaceholder. by rewrite app_assoc_s, app_cons, app_empty. Qed.

Lemma onePlaceholder_split' a ds b :
  onePlaceholder a ds b = a +:+ (String "{" (ds +:+ "}")) +:+ b.
Proof.
  unfold onePlaceholder. f_equal. rewrite app_cons. f_equal.
  by rewrite app_assoc_s, app_cons, app_empty.
Qed.

Lemma length_brace a : String.length (a +:+ "{") = S (String.length a).
Proof. rewrite string_length_app. simpl. lia. Qed.

Lemma onePlaceholder_replace a ds b values :
  noBrace a → noBrace b → allDigits ds → ds ≠ EmptyString →
  replace placeholder (substitute values) (onePlaceholder a ds b) =
  Some (a +:+ default (String "{" (ds +:+ "}")) (values !! parseInt ds) +:+ b).
Proof.
  intros Ha Hb Hds Hne. unfold replace. cbn [replaceLoop].
  rewrite onePlaceholder_exec by done. cbn [m_end m_index].
  replace (String.length a + String.length ds + 2 =? String.length a) with false
    by (symmetry; apply Nat.eqb_neq; lia).
  set (m := mkMatch _ _ _).
  assert (String.length (onePlaceholder a ds b)
          = String.length a + String.length ds + 2 + String.length b) as Hlen.
  { unfold onePlaceholder. rewrite string_length_app. simpl.
    rewrite string_length_app. simpl. lia. }
  assert (dropS (String.length a + String.length ds + 2) (onePlaceholder a ds b) = b)
    as Hrest.
  { rewrite onePlaceholder_split'.
    replace (String.length a + String.length ds + 2)
      with (String.length (a +:+ String "{" (ds +:+ "}"))).
    - rewrite <- app_assoc_s. apply dropS_app_length.
    - rewrite string_length_app. simpl. rewrite string_length_app. simpl. lia. }
  assert (exec placeholder (onePlaceholder a ds b)
            (String.length a + String.length ds + 2) = None) as ->.
  { unfold exec. rewrite Hlen.
    replace (_ <=? _) with true by (symmetry; apply Nat.leb_le; lia).
    rewrite Hrest. by apply placeholder_none. }
  rewrite Hrest. cbn [mbind option_bind].
  do 2 f_equal.
  - unfold substring. cbn [dropS]. rewrite Nat.sub_0_r. apply takeS_length_app.
  - f_equal. unfold substitute.
    change (group 1 (onePlaceholder a ds b) m)
      with (Some (substring (S (String.length a)) (S (String.length a) + String.length ds)
                    (onePlaceholder a ds b))).
    unfold matched, m. cbn [m_groups m_index m_end].
    assert (substring (S (String.length a)) (S (String.length a) + String.length ds)
              (onePlaceholder a ds b) = ds) as ->.
    { rewrite onePlaceholder_split, <- length_brace. apply substring_app. }
    cbn [default].
    assert (substring (String.length a) (String.length a + String.length ds + 2)
              (onePlaceholder a ds b) = String "{" (ds +:+ "}")) as ->.
    { rewrite onePlaceholder_split'.
      replace (String.length a + String.length ds + 2)
        with (String.length a + String.length (String "{" (ds +:+ "}"))).
      - apply substring_app.
      - simpl. rewrite string_length_app. simpl. lia. }
    unfold id. by destruct (values !! parseInt ds).
Qed.

Lemma noBrace_replace template values :
  noBrace template → replace placeholder (substitute values) template = Some template.
Proof.
  intros Hno. unfold replace. cbn [replaceLoop]. unfold exec. simpl (0 <=? _).
  cbn [dropS]. by rewrite placeholder_none.
Qed.

(** X12. [lookupMessage] returns a message without an opening brace as it
    is, whatever substitutions are passed. *)
Theorem X12_lookupMessage_plain_template (mgr : Manager) (msgs : Messages)
    (key template : string) (substitutions : Substitutions) :
  messages mgr = Some msgs →
  msgs key = Some (mkEntry (Some template)) →
  noBrace template →
  lookupMessage mgr key substitutions = Some (Some template).
Proof.
  intros Hmsgs Hkey Hno. unfold lookupMessage. rewrite Hmsgs, Hkey. cbn [entry_message from_option id].
  destruct template as [|c template]; [done|]. cbn [Js.truthy negb].
  destruct (omitted substitutions); [done|].
  by rewrite noBrace_replace.
Qed.

(** X13. In [lookupMessage], a placeholder [{i}] between brace-free texts
    is replaced by the i-th substitution, counted from zero, and is left as
    it is written when there are not that many substitutions; the
    substituted text is put in unchanged, braces and all. *)
Theorem X13_lookupMessage_fills_placeholder (mgr : Manager) (msgs : Messages)
    (key a ds b : string) (substitutions : Substitutions) :
  messages mgr = Some msgs →
  msgs key = Some (mkEntry (Some (a +:+ String "{" (ds +:+ String "}" b)))) →
  noBrace a → noBrace b → allDigits ds → ds ≠ EmptyString →
  omitted substitutions = false →
  lookupMessage mgr key substitutions =
  Some (Some (a +:+
              match asList substitutions !! parseInt ds with
              | Some value => value
              | None => String "{" (ds +:+ "}")
              end +:+ b)).
Proof.
  intros Hmsgs Hkey Ha Hb Hds Hne Hsubs.
  fold (onePlaceholder a ds b) in Hkey.
  assert (Js.truthy (onePlaceholder a ds b) = true) as Ht.
  { unfold onePlaceholder. destruct a; [by rewrite app_empty|by rewrite app_cons]. }
  unfold lookupMessage. rewrite Hmsgs, Hkey. cbn [entry_message from_option id].
  rewrite Ht. cbn [negb]. rewrite Hsubs.
  rewrite onePlaceholder_replace by done.
  by destruct (asList substitutions !! parseInt ds).
Qed.

(** *** The manager's state *)

Lemma loadLocale_loadingPromise loc mgr :
  loadingPromise (loadLocale loc mgr) = loadingPromise mgr.
Proof. unfold loadLocale. by destruct (Js.bind _ _). Qed.

Lemma perform_ready c mgr :
  ready mgr = hasMessages mgr →
  ready (perform c mgr) = hasMessages (perform c mgr).
Proof.
  intros Hmgr. destruct c as [|loc]; simpl.
  - unfold init. destruct (loadingPromise mgr); [done|].
    by destruct getStorageSettings.
  - unfold setPreferredLocale. by case_decide.
Qed.

(** X14. After any sequence of [init] and [setPreferredLocale] calls on a
    new manager, each run to its end before the next, [ready] tells exactly
    whether messages are loaded. *)
Theorem X14_ready_iff_messages_loaded (calls : list Call) :
  let mgr := foldl (λ mgr c, perform c mgr) newManager calls in
  ready mgr = hasMessages mgr.
Proof.
  simpl. induction calls as [|c calls IH] using rev_ind; [done|].
  rewrite foldl_app. simpl. by apply perform_ready.
Qed.

(** X15. Selecting a locale whose file cannot be had leaves the manager
    without messages and not ready, while [getLocale] reports the locale
    that was asked for; every [translate] then answers what the browser's
    [getMessage] answers, or the empty string where there is none. *)
Theorem X15_failed_load_falls_back_to_browser (loc : string) (mgr : Manager)
    (key : string) (substitutions : Substitutions) :
  loc ≠ EmptyString → loc ≠ DEFAULT_SETTING_LOCALE →
  unavailable loc →
  let mgr' := setPreferredLocale loc mgr in
  messages mgr' = None ∧ ready mgr' = false ∧ getLocale mgr' = loc ∧
  translate mgr' key substitutions =
    Some (if Js.truthy key
          then match getMessage with
               | Some get => Js.or_else (get key substitutions) EmptyString
               | None => EmptyString
               end
          else EmptyString).
Proof.
  intros Hne Hauto Hfail. cbv zeta.
  assert (Js.or_else loc DEFAULT_SETTING_LOCALE = loc) as Hnorm.
  { by destruct loc. }
  assert (loadLocale loc mgr = mkManager None (locale mgr) false (loadingPromise mgr))
    as Hload.
  { unfold loadLocale, unavailable in *.
    destruct (fetch _) as [response|e]; [|done]. simpl.
    destruct Hfail as [-> | [e He]]; [done|].
    destruct (response_ok response); simpl; [|done]. by rewrite He. }
  unfold setPreferredLocale. rewrite Hnorm, decide_False by done. rewrite Hload.
  split_and!; try done.
  unfold translate, lookupMessage. simpl.
  destruct (Js.truthy key); simpl; [|done]. by destruct getMessage.
Qed.

End LocalizationFacts.

Section LocalizationExamples.
Import Regex Replace Localization MoreSamples.
Existing Instance sampleBrowser.

(** With French stored as the preferred locale, [init] loads its messages;
    a key they lack is answered by the browser. *)
Example init_loads_preferred_locale :
  let mgr := init newManager in
  ready mgr = true ∧ getLocale mgr = "fr" ∧
  translate mgr "greeting" (Many ["Ada"; "Bob"]) = Some "Bonjour Ada !" ∧
  translate mgr "greeting" (Many []) = Some "Bonjour {0} !" ∧
  translate mgr "other" Omitted = Some "Viewer".
Proof. by vm_compute. Qed.

Lemma X12_witness :
  lookupMessage (init newManager) "title" (One "x") = Some (Some "Visionneuse").
Proof.
  apply (X12_lookupMessage_plain_template (init newManager) frMessages).
  - reflexivity.
  - reflexivity.
  - simpl. repeat split; done.
Defined.

Lemma X13_witness :
  lookupMessage (init newManager) "greeting" (One "Ada") = Some (Some "Bonjour Ada !").
Proof.
  apply (X13_lookupMessage_fills_placeholder (init newManager) frMessages
           "greeting" "Bonjour " "0" " !" (One "Ada")).
  - reflexivity.
  - reflexivity.
  - simpl. repeat split; done.
  - simpl. repeat split; done.
  - simpl. repeat split; done.
  - done.
  - reflexivity.
Defined.

Lemma X15_witness :
  let mgr := setPreferredLocale "de" (init newManager) in
  messages mgr = None ∧ ready mgr = false ∧ getLocale mgr = "de" ∧
  translate mgr "other" Omitted = Some "Viewer".
Proof.
  intros mgr.
  assert (unavailable "de") as Hfail by (vm_compute; by left).
  exact (X15_failed_load_falls_back_to_browser "de" (init newManager) "other" Omitted
           ltac:(done) ltac:(done) Hfail).
Defined.

End LocalizationExamples.

(** ** The print page *)

Section PrintFacts.
Context `{Print.Background}.
Import Print.

(** *** Cleanup happens once *)

Lemma handle_cleaned e p :
  cleanedUp p = true → handle e p = p.
Proof.
  intros Hc. destruct e; simpl; unfold finishPrint; rewrite ?Hc; try done.
  - by case_decide.
  - by destruct (fallbackTimer p).
Qed.

Lemma handleAll_cleaned events p :
  cleanedUp p = true → handleAll events p = p.
Proof.
  intros Hc. induction events as [|e events IH] using rev_ind; [done|].
  unfold handleAll in *. rewrite foldl_app. simpl. rewrite IH.
  by apply handle_cleaned.
Qed.

Lemma showError_completedOnce message p :
  completedOnce p → completedOnce (showError message p).
Proof. unfold showError. by destruct hasErrorElement. Qed.

Lemma cleanUp_completedOnce reason p :
  cleanedUp p = false → completedOnce p → completedOnce (cleanUp reason p).
Proof.
  intros Hc (Hlen & Hsent & Htoken).
  assert (completions p = []) as Hnone.
  { destruct (completions p) as [|r l]; [done|]. by rewrite Hsent in Hc. }
  unfold completedOnce, cleanUp. simpl. rewrite Hnone.
  destruct tokenGiven; simpl; split_and!; try done; lia.
Qed.

Lemma finishPrint_completedOnce reason p :
  completedOnce p → completedOnce (finishPrint reason p).
Proof.
  intros Hp. unfold finishPrint. destruct (cleanedUp p) eqn:Hc; [done|].
  by apply (cleanUp_completedOnce reason) in Hp.
Qed.

Lemma handle_completedOnce e p : completedOnce p → completedOnce (handle e p).
Proof.
  intros Hp. destruct e; simpl.
  - by apply finishPrint_completedOnce.
  - case_decide; [by apply finishPrint_completedOnce|done].
  - destruct (fallbackTimer p); [by apply finishPrint_completedOnce|done].
  - destruct (cleanedUp p) eqn:Hc; [done|by apply cleanUp_completedOnce].
Qed.

Lemma handleAll_completedOnce events : ∀ p,
  completedOnce p → completedOnce (handleAll events p).
Proof.
  induction events as [|e events IH]; intros p Hp; [done|].
  apply IH. by apply handle_completedOnce.
Qed.

Lemma renderAndPrint_completedOnce html jobTitle p :
  completedOnce p → completedOnce (renderAndPrint html jobTitle p).
Proof.
  intros Hp. unfold renderAndPrint. destruct hasRoot; simpl; [done|].
  by apply finishPrint_completedOnce, showError_completedOnce.
Qed.

Lemma requestAndRender_completedOnce fuel p p' :
  requestAndRender fuel p = Some p' → completedOnce p → completedOnce p'.
Proof.
  intros Hrun Hp. unfold requestAndRender in Hrun.
  destruct tokenGiven as [t|] eqn:Htoken.
  2:{ injection Hrun as <-. by apply showError_completedOnce. }
  destruct (requestJob t) as [response|e].
  2:{ injection Hrun as <-. by apply finishPrint_completedOnce, showError_completedOnce. }
  destruct response as [[[] err payload]|].
  2,3: injection Hrun as <-; by apply finishPrint_completedOnce, showError_completedOnce.
  cbv zeta in Hrun.
  destruct (fetchChunks _ _ _ _ _ _) as [fetched|]; [|done].
  simpl in Hrun. injection Hrun as <-.
  destruct fetched.
  - by apply renderAndPrint_completedOnce.
  - by apply finishPrint_completedOnce, showError_completedOnce.
  - by apply finishPrint_completedOnce, showError_completedOnce.
Qed.

(** X16. The background page is told at most once that the print job is
    complete, and never without a token: whatever events reach the page
    before and after the job has been requested and rendered, at most one
    PRINT_JOB_COMPLETE message is sent; and once the page has cleaned up,
    every later event leaves it as it is. *)
Theorem X16_print_job_completed_at_most_once (fuel : nat) (before after : list Event)
    (loaded : Page) :
  requestAndRender fuel (handleAll before freshPage) = Some loaded →
  let final := handleAll after loaded in
  length (completions final) ≤ 1 ∧
  (tokenGiven = None → completions final = []) ∧
  (cleanedUp loaded = true → final = loaded).
Proof.
  intros Hrun. cbv zeta.
  assert (completedOnce (handleAll after loaded)) as (Hlen & _ & Htoken).
  { apply handleAll_completedOnce.
    apply (requestAndRender_completedOnce _ _ _ Hrun).
    apply handleAll_completedOnce.
    unfold completedOnce, freshPage. simpl. split_and!; [lia|done..]. }
  split_and!; [done..|]. apply handleAll_cleaned.
Qed.

(** *** The chunk loop *)

Lemma fetchChunks_terminates fuel t totalLength chunkSize : ∀ offset chunks,
  (totalLength - offset ≤ Z.of_nat fuel)%Z →
  is_Some (fetchChunks fuel t totalLength chunkSize offset chunks).
Proof.
  induction fuel as [|fuel IH]; intros offset chunks Hfuel; simpl.
  { destruct (offset <? totalLength)%Z eqn:Hlt; [|done]. lia. }
  destruct (offset <? totalLength)%Z eqn:Hlt; [|done].
  destruct (fetchChunk t offset chunkSize) as [[r|]|e]; [|done..].
  destruct (negb (chunk_success r)); [done|]. cbv zeta.
  destruct (_ || _) eqn:Hstop.
  - apply IH. lia.
  - apply IH. apply orb_false_iff in Hstop as [_ Hnext]. lia.
Qed.

(** Each request that does not end the loop moves the offset forward by
    one at least, so that the chunks received are no more than the distance
    to the end. *)
Lemma fetchChunks_count fuel t totalLength chunkSize : ∀ offset chunks chunks',
  fetchChunks fuel t totalLength chunkSize offset chunks = Some (Chunks chunks') →
  (Z.of_nat (length chunks') ≤
   Z.of_nat (length chunks) + Z.max 0 (totalLength - offset))%Z.
Proof.
  induction fuel as [|fuel IH]; intros offset chunks chunks'; simpl.
  { destruct (offset <? totalLength)%Z eqn:Hlt; [done|]. intros [= <-]. lia. }
  destruct (offset <? totalLength)%Z eqn:Hlt; [|intros [= <-]; lia].
  apply Z.ltb_lt in Hlt.
  destruct (fetchChunk t offset chunkSize) as [[r|]|e]; [|done..].
  destruct (negb (chunk_success r)); [done|]. cbv zeta.
  destruct (_ || _) eqn:Hstop; intros Hrun; apply IH in Hrun;
    rewrite length_app in Hrun; simpl in Hrun.
  - lia.
  - apply orb_false_iff in Hstop as [_ Hnext]. apply Z.leb_gt in Hnext. lia.
Qed.

(** X17. The chunk loop of [requestAndRender] ends when the length
    announced and the offsets answered are whole numbers, as they are held
    here: it then sends at most [totalLength] chunk requests, whatever else
    the background page answers, since every request either moves the
    offset forward, by one at least, or ends the loop; and when it ends
    with the chunks, they are no more than [totalLength]. *)
Theorem X17_chunk_loop_ends (fuel : nat) (t : string) (totalLength chunkSize : Z) :
  (totalLength ≤ Z.of_nat fuel)%Z →
  ∃ fetched,
    fetchChunks fuel t totalLength chunkSize 0 [] = Some fetched ∧
    ∀ chunks, fetched = Chunks chunks →
              (Z.of_nat (length chunks) ≤ Z.max 0 totalLength)%Z.
Proof.
  intros Hfuel.
  destruct (fetchChunks_terminates fuel t totalLength chunkSize 0 []) as [fetched Hrun];
    [lia|].
  exists fetched. split; [done|]. intros chunks ->.
  apply fetchChunks_count in Hrun. simpl in Hrun. by rewrite Z.sub_0_r in Hrun.
Qed.

Lemma join_snoc chunks chunk : Cache.join (chunks ++ [chunk]) = Cache.join chunks +:+ chunk.
Proof.
  unfold Cache.join. induction chunks as [|c chunks IH]; simpl.
  - change (chunk +:+ EmptyString = EmptyString +:+ chunk).
    rewrite app_empty. induction chunk as [|x chunk IHc]; [done|].
    by rewrite app_cons, IHc.
  - change (c +:+ foldr String.append EmptyString (chunks ++ [chunk]) =
            (c +:+ foldr String.append EmptyString chunks) +:+ chunk).
    by rewrite IH, app_assoc_s.
Qed.

Lemma takeS_all n s : String.length s ≤ n → Regex.takeS n s = s.
Proof.
  revert n. induction s as [|c s IH]; intros [|n] Hn; simpl in *; try done; [lia|].
  f_equal. apply IH. lia.
Qed.

Lemma takeS_add n m s :
  Regex.takeS (n + m) s = Regex.takeS n s +:+ Regex.takeS m (Regex.dropS n s).
Proof.
  revert s. induction n as [|n IH]; intros s; simpl.
  { by rewrite app_empty. }
  destruct s as [|c s]; simpl.
  - rewrite app_empty. by destruct m.
  - by rewrite app_cons, IH.
Qed.

Lemma length_takeS_min n s : String.length (Regex.takeS n s) = n `min` String.length s.
Proof.
  revert s. induction n as [|n IH]; intros [|c s]; simpl; try done. by rewrite IH.
Qed.

Lemma takeS_length_takeS n s :
  Regex.takeS (String.length (Regex.takeS n s)) s = Regex.takeS n s.
Proof.
  revert s. induction n as [|n IH]; intros [|c s]; simpl; try done. by rewrite IH.
Qed.

Lemma fetchChunks_slices fuel t html chunkSize : ∀ offset chunks,
  servesSlices t html →
  (0 < chunkSize)%Z →
  offset ≤ String.length html →
  String.length html - offset ≤ fuel →
  Cache.join chunks = Regex.takeS offset html →
  ∃ chunks',
    fetchChunks fuel t (Z.of_nat (String.length html)) chunkSize (Z.of_nat offset) chunks
      = Some (Chunks chunks') ∧
    Cache.join chunks' = html.
Proof.
  induction fuel as [|fuel IH]; intros offset chunks Hserve Hsize Hoff Hfuel Hjoin.
  { simpl. destruct (_ <? _)%Z eqn:Hlt; [lia|].
    exists chunks. split; [done|]. rewrite Hjoin. apply takeS_all. lia. }
  simpl. destruct (_ <? _)%Z eqn:Hlt.
  2:{ exists chunks. split; [done|]. rewrite Hjoin. apply takeS_all. lia. }
  apply Z.ltb_lt in Hlt.
  destruct (Hserve (Z.of_nat offset) chunkSize) as (r & -> & Hok & Hchunk & Hnext);
    [lia|done|].
  rewrite Hok, Hchunk. simpl. rewrite Nat2Z.id in *.
  set (chunk := Regex.takeS (Z.to_nat chunkSize) (Regex.dropS offset html)) in *.
  assert (0 < String.length chunk ≤ String.length html - offset) as Hlen.
  { unfold chunk. rewrite length_takeS_min, length_dropS. lia. }
  assert (default (Z.of_nat offset + Z.of_nat (String.length chunk))%Z (chunk_nextOffset r)
          = Z.of_nat (offset + String.length chunk)) as ->.
  { destruct Hnext as [-> | ->]; simpl; lia. }
  replace (String.length chunk =? 0) with false by (symmetry; apply Nat.eqb_neq; lia).
  replace (Z.of_nat (offset + String.length chunk) <=? Z.of_nat offset)%Z with false
    by (symmetry; apply Z.leb_gt; lia).
  simpl. apply IH; try done; try lia.
  rewrite join_snoc, Hjoin, takeS_add. f_equal. unfold chunk.
  symmetry. apply takeS_length_takeS.
Qed.

(** X18. Chunked transfer gives the document back. When the background page
    announces the length of the text and serves it in slices (whatever the
    chunk size, and whether or not it names the next offset), the page
    assembles exactly that text, shows it, schedules printing and arms the
    fallback timer, without reporting an error or a completion. *)
Theorem X18_chunked_transfer_round_trip (t html : string) (error : option string)
    (payload : Payload) (p : Page) :
  tokenGiven = Some t →
  hasRoot = true →
  requestJob t = Js.Ok (Some (mkJobResponse true error (Some payload))) →
  payload_length payload = Some (Z.of_nat (String.length html)) →
  servesSlices t html →
  ∃ p',
    requestAndRender (String.length html) p = Some p' ∧
    content p' = Some html ∧
    printRequested p' = true ∧
    fallbackTimer p' = true ∧
    errorText p' = errorText p ∧
    completions p' = completions p ∧
    cleanedUp p' = cleanedUp p.
Proof.
  intros Htoken Hroot Hjob Hlen Hserve.
  unfold requestAndRender. rewrite Htoken, Hjob.
  cbn -[fetchChunks Z.mul]. rewrite Hlen. cbn -[fetchChunks Z.mul].
  set (chunkSize := match payload_chunkSize payload with
                    | Some n => if (0 <? n)%Z then n else (256 * 1024)%Z
                    | None => (256 * 1024)%Z
                    end).
  assert (0 < chunkSize)%Z as Hsize.
  { unfold chunkSize. destruct (payload_chunkSize payload) as [n|]; [|lia].
    destruct (0 <? n)%Z eqn:Hn; [|lia]. by apply Z.ltb_lt. }
  destruct (fetchChunks_slices (String.length html) t html chunkSize 0 [] Hserve Hsize)
    as (chunks & Hrun & Hjoin); [lia..|done|].
  change (Z.of_nat 0) with 0%Z in Hrun. rewrite Hrun. cbn -[Z.mul].
  eexists. split; [reflexivity|].
  unfold renderAndPrint. rewrite Hroot, Hjoin. done.
Qed.

End PrintFacts.

Section PrintExamples.
Import Print MoreSamples.
Existing Instance sampleBackground.

Lemma sampleBackground_servesSlices : servesSlices "job-1" sampleHtml.
Proof.
  intros offset length _ _. eexists. split; [reflexivity|].
  split_and!; [done..|by left].
Qed.

(** The user presses Escape while the job is being fetched; the document
    is still rendered and the timer armed, and neither the timer nor the
    print dialog closing sends a second completion. *)
Lemma X16_witness :
  ∃ loaded,
    requestAndRender 12 (handleAll [KeyDown "Escape"] freshPage) = Some loaded ∧
    completions (handleAll [TimerFired; AfterPrint] loaded) = ["escape"] ∧
    length (completions (handleAll [TimerFired; AfterPrint] loaded)) ≤ 1.
Proof.
  destruct (requestAndRender 12 (handleAll [KeyDown "Escape"] freshPage))
    as [loaded|] eqn:Hrun; [|by vm_compute in Hrun].
  exists loaded. split; [done|].
  destruct (X16_print_job_completed_at_most_once 12 [KeyDown "Escape"]
              [TimerFired; AfterPrint] loaded Hrun) as (Hlen & _ & _).
  split; [|exact Hlen].
  vm_compute in Hrun. by injection Hrun as <-.
Defined.

Lemma X17_witness :
  ∃ fetched,
    fetchChunks 12 "job-1" 12 4 0 [] = Some fetched ∧
    ∀ chunks, fetched = Chunks chunks → (Z.of_nat (length chunks) ≤ Z.max 0 12)%Z.
Proof. apply (X17_chunk_loop_ends 12 "job-1" 12 4). lia. Defined.

Lemma X18_witness :
  ∃ p',
    requestAndRender (String.length sampleHtml) freshPage = Some p' ∧
    content p' = Some sampleHtml ∧
    printRequested p' = true ∧
    fallbackTimer p' = true ∧
    errorText p' = None ∧
    completions p' = [] ∧
    cleanedUp p' = false.
Proof.
  apply (X18_chunked_transfer_round_trip "job-1" sampleHtml None samplePayload freshPage).
  - reflexivity.
  - reflexivity.
  - reflexivity.
  - reflexivity.
  - exact sampleBackground_servesSlices.
Defined.

(** The three chunks of the sample job. *)
Example fetchChunks_sample :
  fetchChunks 12 "job-1" 12 4 0 [] = Some (Chunks ["<p>h"; "ello"; "</p>"]).
Proof. reflexivity. Qed.

End PrintExamples.

(** ** The locale cleanup script *)

Section LocaleCleanupFacts.
Import LocaleCleanup.

Lemma removeUnused_lookup keys : ∀ (m : gmap string Value) n k,
  (foldl removeUnused (m, n) keys).1 !! k =
  if bool_decide (k ∈ keys) && truthy (m !! k) then None else m !! k.
Proof.
  induction keys as [|key keys IH]; intros m n k; cbn [foldl].
  { done. }
  unfold removeUnused at 2. cbn [fst snd].
  destruct (truthy (m !! key)) eqn:Hkey; rewrite IH.
  - destruct (decide (k = key)) as [->|Hne].
    + rewrite lookup_delete_eq, Hkey.
      rewrite (bool_decide_eq_true_2 (key ∈ key :: keys)) by left.
      by rewrite andb_false_r.
    + rewrite lookup_delete_ne by done.
      replace (bool_decide (k ∈ key :: keys)) with (bool_decide (k ∈ keys)); [done|].
      apply bool_decide_ext. rewrite elem_of_cons. intuition.
  - destruct (decide (k = key)) as [->|Hne].
    + rewrite Hkey, !andb_false_r. done.
    + replace (bool_decide (k ∈ key :: keys)) with (bool_decide (k ∈ keys)); [done|].
      apply bool_decide_ext. rewrite elem_of_cons. intuition.
Qed.

Lemma removeUnused_noop keys (m : gmap string Value) n :
  Forall (λ key, truthy (m !! key) = false) keys →
  foldl removeUnused (m, n) keys = (m, n).
Proof.
  induction 1 as [|key keys Hkey _ IH]; cbn [foldl]; [done|].
  unfold removeUnused at 2. cbn [fst snd]. by rewrite Hkey.
Qed.

Lemma addNew_noop entries (m : gmap string Value) n :
  Forall (λ entry : string * Value, truthy (m !! entry.1) = true) entries →
  foldl addNew (m, n) entries = (m, n).
Proof.
  induction 1 as [|entry entries Hentry _ IH]; cbn [foldl]; [done|].
  unfold addNew at 2. cbn [fst snd]. by rewrite Hentry.
Qed.

Lemma valueFor_cons key v entries k :
  valueFor ((key, v) :: entries) k =
  if decide (key = k) then Some v else valueFor entries k.
Proof.
  unfold valueFor. cbn [list_find]. simpl (_.1).
  case_decide; [done|]. by destruct (list_find _ entries) as [[i e]|].
Qed.

Lemma valueFor_None entries k : k ∉ entries.*1 → valueFor entries k = None.
Proof.
  intros Hnot. unfold valueFor.
  destruct (list_find _ entries) as [[i e]|] eqn:Hfind; [|done].
  apply list_find_Some in Hfind as (Hi & He & _). exfalso. apply Hnot.
  apply list_elem_of_fmap. exists e. split; [done|].
  by eapply list_elem_of_lookup_2.
Qed.

Lemma addNew_lookup entries : ∀ (m : gmap string Value) n k,
  NoDup entries.*1 →
  (foldl addNew (m, n) entries).1 !! k =
  match valueFor entries k with
  | Some v => if truthy (m !! k) then m !! k else Some v
  | None => m !! k
  end.
Proof.
  induction entries as [|[key v] entries IH]; intros m n k Hnd; cbn [foldl]; [done|].
  rewrite fmap_cons in Hnd. apply NoDup_cons in Hnd as [Hnot Hnd]. simpl in Hnot.
  unfold addNew at 2. cbn [fst snd]. rewrite valueFor_cons.
  destruct (decide (key = k)) as [->|Hne].
  - destruct (truthy (m !! k)) eqn:Hk; cbn [negb];
      rewrite IH, valueFor_None by done; [done|].
    by rewrite lookup_insert_eq.
  - destruct (truthy (m !! key)) eqn:Hkey; cbn [negb]; rewrite IH by done; [done|].
    by rewrite lookup_insert_ne.
Qed.

Lemma valueFor_Some entries k v :
  NoDup entries.*1 → (k, v) ∈ entries → valueFor entries k = Some v.
Proof.
  induction entries as [|[key v'] entries IH]; intros Hnd Hin; [by apply elem_of_nil in Hin|].
  rewrite fmap_cons in Hnd. apply NoDup_cons in Hnd as [Hnot Hnd]. simpl in Hnot.
  rewrite valueFor_cons. apply elem_of_cons in Hin as [[= <- <-]|Hin].
  - by rewrite decide_True.
  - rewrite decide_False; [by apply IH|]. intros ->. apply Hnot.
    apply list_elem_of_fmap. by exists (k, v).
Qed.

Lemma unused_new_disjoint key : key ∈ UNUSED_KEYS → key ∉ NEW_KEYS.*1.
Proof.
  intros Hin Hin'. unfold UNUSED_KEYS, NEW_KEYS in *. simpl in Hin'.
  repeat (apply elem_of_cons in Hin' as [->|Hin'];
          [by repeat (apply elem_of_cons in Hin as [Hin|Hin]; [done|]);
              apply elem_of_nil in Hin|]).
  by apply elem_of_nil in Hin'.
Qed.

Lemma NEW_KEYS_truthy entry : entry ∈ NEW_KEYS → truthy (Some entry.2) = true.
Proof.
  unfold NEW_KEYS. intros Hin.
  repeat (apply elem_of_cons in Hin as [->|Hin]; [done|]).
  by apply elem_of_nil in Hin.
Qed.

Lemma NEW_KEYS_NoDup : NoDup NEW_KEYS.*1.
Proof. apply (bool_decide_unpack _). by vm_compute. Qed.

(** What is written back, key by key. *)
Lemma cleanup_lookup locale (m : gmap string Value) k :
  (cleanup locale m).1.1 !! k =
  if bool_decide (k ∈ UNUSED_KEYS) then (if truthy (m !! k) then None else m !! k)
  else if bool_decide (locale ≠ "en" ∧ locale ≠ "zh_CN") then
    match valueFor NEW_KEYS k with
    | Some v => if truthy (m !! k) then m !! k else Some v
    | None => m !! k
    end
  else m !! k.
Proof.
  unfold cleanup.
  pose proof (removeUnused_lookup UNUSED_KEYS m 0 k) as Hremoved.
  destruct (foldl removeUnused (m, 0) UNUSED_KEYS) as [m1 removed] eqn:Hrun1.
  cbn [fst] in Hremoved.
  destruct (bool_decide (locale ≠ "en" ∧ locale ≠ "zh_CN")) eqn:Hlocale.
  - pose proof (addNew_lookup NEW_KEYS m1 0 k NEW_KEYS_NoDup) as Hadded.
    destruct (foldl addNew (m1, 0) NEW_KEYS) as [m2 added] eqn:Hrun2.
    cbn [fst] in *. rewrite Hadded, Hremoved.
    destruct (bool_decide (k ∈ UNUSED_KEYS)) eqn:Hunused; cbn [andb]; [|done].
    apply bool_decide_eq_true in Hunused.
    rewrite valueFor_None by (by apply unused_new_disjoint).
    by destruct (truthy (m !! k)).
  - cbn [fst]. rewrite Hremoved. by destruct (bool_decide (k ∈ UNUSED_KEYS)).
Qed.

Lemma cleanup_unused_gone locale (m : gmap string Value) key :
  key ∈ UNUSED_KEYS → truthy ((cleanup locale m).1.1 !! key) = false.
Proof.
  intros Hkey. rewrite cleanup_lookup, bool_decide_eq_true_2 by done.
  by destruct (truthy (m !! key)) eqn:Ht.
Qed.

Lemma cleanup_new_present locale (m : gmap string Value) key value :
  locale ≠ "en" → locale ≠ "zh_CN" → (key, value) ∈ NEW_KEYS →
  truthy ((cleanup locale m).1.1 !! key) = true ∧
  (cleanup locale m).1.1 !! key = if truthy (m !! key) then m !! key else Some value.
Proof.
  intros Hen Hzh Hin.
  assert (key ∉ UNUSED_KEYS) as Hnot.
  { intros Hunused. apply (unused_new_disjoint key Hunused).
    apply list_elem_of_fmap. by exists (key, value). }
  rewrite cleanup_lookup, bool_decide_eq_false_2, bool_decide_eq_true_2 by done.
  rewrite (valueFor_Some NEW_KEYS key value NEW_KEYS_NoDup Hin).
  split; [|done]. destruct (truthy (m !! key)) eqn:Ht; [done|].
  apply (NEW_KEYS_truthy (key, value) Hin).
Qed.

(** X19. What [cleanupLocale] writes back: no unused key is left with a
    value that counts as present; for a locale other than en and zh_CN each
    of the four new keys is present afterwards, with the English text when
    the locale had none and with the locale's own entry otherwise; every
    other key keeps the value it had, and for en and zh_CN so do the new
    keys. *)
Theorem X19_cleanup_removes_unused_adds_new (locale : string) (m : gmap string Value) :
  let m' := (cleanup locale m).1.1 in
  (∀ key, key ∈ UNUSED_KEYS → truthy (m' !! key) = false) ∧
  (locale ≠ "en" → locale ≠ "zh_CN" →
   ∀ key value, (key, value) ∈ NEW_KEYS →
     truthy (m' !! key) = true ∧
     m' !! key = if truthy (m !! key) then m !! key else Some value) ∧
  (∀ key, key ∉ UNUSED_KEYS → key ∉ NEW_KEYS.*1 → m' !! key = m !! key) ∧
  ((locale = "en" ∨ locale = "zh_CN") →
   ∀ key, key ∉ UNUSED_KEYS → m' !! key = m !! key).
Proof.
  cbv zeta. split_and!.
  - intros key. apply cleanup_unused_gone.
  - intros Hen Hzh key value. by apply cleanup_new_present.
  - intros key Hunused Hnew. rewrite cleanup_lookup, bool_decide_eq_false_2 by done.
    rewrite valueFor_None by done. by case_bool_decide.
  - intros Hlocale key Hunused.
    rewrite cleanup_lookup, bool_decide_eq_false_2 by done.
    rewrite bool_decide_eq_false_2; [done|]. intros [? ?]. by destruct Hlocale.
Qed.

(** X20. Running [cleanupLocale] on its own output changes nothing and
    counts nothing: no key is removed and none is added the second time. *)
Theorem X20_cleanup_idempotent (locale : string) (m : gmap string Value) :
  cleanup locale (cleanup locale m).1.1 = ((cleanup locale m).1.1, 0, 0).
Proof.
  pose proof (cleanup_unused_gone locale m) as Hunused.
  pose proof (cleanup_new_present locale m) as Hnew.
  set (m' := (cleanup locale m).1.1) in *. unfold cleanup at 1.
  rewrite removeUnused_noop by (by apply Forall_forall).
  case_bool_decide as Hlocale; [|done].
  rewrite addNew_noop; [done|]. apply Forall_forall. intros [key value] Hin.
  destruct Hlocale as [Hen Hzh]. by apply (Hnew key value).
Qed.

End LocaleCleanupFacts.

Section LocaleCleanupExamples.
Import LocaleCleanup MoreSamples.

(** A German file with two unused keys, one of them set to [null], and
    its own text for one of the new keys. *)
Example cleanup_sample :
  let '(m', removedCount, addedCount) := cleanup "de" deMessages in
  (removedCount, addedCount) = (1, 3) ∧
  m' !! "tab_guide" = None ∧
  m' !! "tab_overview" = Some (Other false "null") ∧
  m' !! "file_access_disabled" = Some (Entry "Deaktiviert" "Status") ∧
  m' !! "extension_name" = Some (Entry "Markdown-Betrachter" "Name") ∧
  truthy (m' !! "file_access_settings_link") = true.
Proof. by vm_compute. Qed.

End LocaleCleanupExamples.

(** ** The translation key check *)

Section KeyCheckFacts.
Context `{KeyCheck.LocaleFiles}.
Import KeyCheck.

Lemma collect_fold locales : ∀ (data : gmap string (gset string)) (keys : gset string),
  (∀ locale, (foldl collect (data, keys) locales).1 !! locale =
             if bool_decide (locale ∈ locales ∧ is_Some (loadMessages locale))
             then loadMessages locale else data !! locale) ∧
  (∀ key, key ∈ (foldl collect (data, keys) locales).2 ↔
          key ∈ keys ∨ ∃ locale ks, locale ∈ locales ∧ loadMessages locale = Some ks ∧ key ∈ ks).
Proof.
  induction locales as [|l locales IH]; intros data keys; cbn [foldl].
  { split.
    - intros locale. rewrite bool_decide_eq_false_2; [done|].
      intros [Hin _]. by apply elem_of_nil in Hin.
    - intros key. split; [by left|]. intros [?|(locale & ks & Hin & _)]; [done|].
      by apply elem_of_nil in Hin. }
  unfold collect at 2 4. cbn [fst snd].
  destruct (loadMessages l) as [ks|] eqn:Hl.
  - destruct (IH (<[l := ks]> data) (keys ∪ ks)) as [IH1 IH2]. split.
    + intros locale. rewrite IH1.
      destruct (decide (locale = l)) as [->|Hne].
      * rewrite lookup_insert_eq, Hl.
        rewrite (bool_decide_eq_true_2 (l ∈ l :: locales ∧ _)); [by case_bool_decide|].
        split; [left|done].
      * rewrite lookup_insert_ne by done.
        apply (f_equal (λ b : bool, if b then _ else _)).
        apply bool_decide_ext. rewrite elem_of_cons. intuition.
    + intros key. rewrite IH2, elem_of_union. split.
      * intros [[?|?]|(locale & ks' & Hin & Hload & Hkey)]; [by left| |].
        -- right. exists l, ks. split_and!; [left|done..].
        -- right. exists locale, ks'. split_and!; [by right|done..].
      * intros [?|(locale & ks' & Hin & Hload & Hkey)]; [by left; left|].
        apply elem_of_cons in Hin as [->|Hin].
        -- left. right. congruence.
        -- right. eauto.
  - destruct (IH data keys) as [IH1 IH2]. split.
    + intros locale. rewrite IH1.
      apply (f_equal (λ b : bool, if b then _ else _)).
      apply bool_decide_ext. rewrite elem_of_cons. split; [intuition|].
      intros [[->|Hin] Hsome]; [|done]. rewrite Hl in Hsome. by destruct Hsome.
    + intros key. rewrite IH2. split.
      * intros [?|(locale & ks' & Hin & Hload & Hkey)]; [by left|].
        right. exists locale, ks'. split_and!; [by right|done..].
      * intros [?|(locale & ks' & Hin & Hload & Hkey)]; [by left|].
        apply elem_of_cons in Hin as [->|Hin]; [congruence|]. right. eauto.
Qed.

Lemma localeData_lookup locale :
  localeData !! locale =
  if bool_decide (locale ∈ getLocaleDirs) then loadMessages locale else None.
Proof.
  unfold localeData. rewrite (proj1 (collect_fold getLocaleDirs ∅ ∅)).
  rewrite lookup_empty.
  destruct (loadMessages locale) as [ks|] eqn:Hload.
  - apply (f_equal (λ b : bool, if b then _ else _)).
    apply bool_decide_ext. split; [by intros [? _]|]. intros ?. split; [done|eauto].
  - rewrite bool_decide_eq_false_2; [by case_bool_decide|].
    intros [_ Hsome]. by destruct Hsome.
Qed.

Lemma allKeys_spec key :
  key ∈ allKeys ↔
  ∃ locale ks, locale ∈ getLocaleDirs ∧ loadMessages locale = Some ks ∧ key ∈ ks.
Proof.
  unfold allKeys. rewrite (proj2 (collect_fold getLocaleDirs ∅ ∅)).
  split; [|by right]. intros [Hin|?]; [|done]. by apply elem_of_empty in Hin.
Qed.

Lemma lacks_spec key locale :
  lacks key locale = true ↔
  locale ∈ getLocaleDirs ∧ ∃ ks, loadMessages locale = Some ks ∧ key ∉ ks.
Proof.
  unfold lacks. rewrite localeData_lookup. case_bool_decide as Hin.
  - destruct (loadMessages locale) as [ks|].
    + rewrite bool_decide_eq_true. split; [eauto|].
      by intros [_ (ks' & [= <-] & ?)].
    + split; [done|]. by intros [_ (ks' & ? & ?)].
  - split; [done|]. by intros [? _].
Qed.

Lemma missingLocales_spec key locale :
  locale ∈ missingLocales key ↔ lacks key locale = true.
Proof.
  unfold missingLocales.
  assert (∀ locales (acc : gset string),
            locale ∈ foldl (λ missing l, if lacks key l then missing ∪ {[l]} else missing)
                       acc locales ↔
            locale ∈ acc ∨ (locale ∈ locales ∧ lacks key locale = true)) as Hfold.
  { induction locales as [|l locales IH]; intros acc; cbn [foldl].
    - split; [by left|]. intros [?|[Hin _]]; [done|]. by apply elem_of_nil in Hin.
    - rewrite IH, elem_of_cons. destruct (lacks key l) eqn:Hl.
      + rewrite elem_of_union, elem_of_singleton. split.
        * intros [[?| ->]|[? ?]]; auto.
        * intros [?|[[->|?] ?]]; auto.
      + split.
        * intros [?|[? ?]]; auto.
        * intros [?|[[->|?] ?]]; auto. congruence. }
  rewrite Hfold. split.
  - intros [Hin|[_ ?]]; [by apply elem_of_empty in Hin|done].
  - intros Hl. right. split; [|done]. by apply lacks_spec in Hl as [? _].
Qed.

Lemma record_fold keys : ∀ (acc : gmap string (gset string)) key,
  foldl record acc keys !! key =
  if bool_decide (key ∈ keys ∧ 0 < size (missingLocales key))
  then Some (missingLocales key) else acc !! key.
Proof.
  induction keys as [|k keys IH]; intros acc key; cbn [foldl].
  { rewrite bool_decide_eq_false_2; [done|]. intros [Hin _]. by apply elem_of_nil in Hin. }
  rewrite IH. unfold record. cbv zeta.
  destruct (decide (key = k)) as [->|Hne].
  - destruct (decide (0 < size (missingLocales k))) as [Hpos|Hzero].
    + rewrite (bool_decide_eq_true_2 (0 < _)) by done.
      rewrite (bool_decide_eq_true_2 (k ∈ k :: keys ∧ _)) by (split; [left|done]).
      rewrite lookup_insert_eq. by case_bool_decide.
    + rewrite (bool_decide_eq_false_2 (0 < _)) by done.
      rewrite (bool_decide_eq_false_2 (k ∈ keys ∧ _)) by (by intros [_ ?]).
      by rewrite (bool_decide_eq_false_2 (k ∈ k :: keys ∧ _)) by (by intros [_ ?]).
  - assert (bool_decide (key ∈ keys ∧ 0 < size (missingLocales key)) =
            bool_decide (key ∈ k :: keys ∧ 0 < size (missingLocales key))) as <-.
    { apply bool_decide_ext. rewrite elem_of_cons. intuition. }
    destruct (bool_decide (key ∈ keys ∧ _)); [done|].
    destruct (bool_decide (0 < size (missingLocales k))); [|done].
    by rewrite lookup_insert_ne.
Qed.

(** X21. The report of missing translations that [main] builds is empty,
    and all locales are declared complete, exactly when all the locales
    whose messages could be read define the same keys; a key is listed
    exactly when some readable locale defines it and some other readable
    locale does not, and it is listed with exactly the readable locales that
    do not define it. A locale whose file cannot be read is never reported. *)
Theorem X21_missing_keys_report (key : string) :
  (complete = true ↔
   ∀ l1 l2 ks1 ks2,
     l1 ∈ getLocaleDirs → l2 ∈ getLocaleDirs →
     loadMessages l1 = Some ks1 → loadMessages l2 = Some ks2 → ks1 = ks2) ∧
  (is_Some (missingKeysMap !! key) ↔
   (∃ l ks, l ∈ getLocaleDirs ∧ loadMessages l = Some ks ∧ key ∈ ks) ∧
   (∃ l ks, l ∈ getLocaleDirs ∧ loadMessages l = Some ks ∧ key ∉ ks)) ∧
  (∀ missing, missingKeysMap !! key = Some missing →
     ∀ l, l ∈ missing ↔
          l ∈ getLocaleDirs ∧ ∃ ks, loadMessages l = Some ks ∧ key ∉ ks).
Proof.
  assert (∀ k, 0 < size (missingLocales k) ↔
               ∃ l ks, l ∈ getLocaleDirs ∧ loadMessages l = Some ks ∧ k ∉ ks) as Hsize.
  { intros k. rewrite <- Nat.neq_0_lt_0, size_non_empty_iff. split.
    - intros Hne. apply set_choose in Hne as [l Hl].
      apply missingLocales_spec, lacks_spec in Hl as (? & ks & ? & ?). eauto.
    - intros (l & ks & Hin & Hload & Hk) Hempty.
      assert (l ∈ missingLocales k) as Hl.
      { apply missingLocales_spec, lacks_spec. eauto. }
      apply Hempty in Hl. by apply elem_of_empty in Hl. }
  assert (∀ k, is_Some (missingKeysMap !! k) ↔
               k ∈ allKeys ∧ 0 < size (missingLocales k)) as Hlisted.
  { intros k. unfold missingKeysMap. rewrite record_fold, lookup_empty.
    case_bool_decide as Hk.
    - split; [intros _|eauto]. by rewrite <- elem_of_elements.
    - split; [by intros []|]. intros [Hin ?]. exfalso. apply Hk.
      by rewrite elem_of_elements. }
  split_and!.
  - unfold complete. rewrite bool_decide_eq_true, map_size_empty_iff. split.
    + intros Hempty l1 l2 ks1 ks2 Hl1 Hl2 Hload1 Hload2.
      apply set_eq. intros k.
      assert (∀ la lb ka kb, la ∈ getLocaleDirs → lb ∈ getLocaleDirs →
                loadMessages la = Some ka → loadMessages lb = Some kb →
                k ∈ ka → k ∈ kb) as Hone.
      { intros la lb ka kb Hla Hlb Hloada Hloadb Hka.
        destruct (decide (k ∈ kb)) as [|Hnot]; [done|]. exfalso.
        assert (is_Some (missingKeysMap !! k)) as Hsome.
        { apply Hlisted. split; [apply allKeys_spec; eauto|]. apply Hsize. eauto. }
        rewrite Hempty, lookup_empty in Hsome. by destruct Hsome. }
      split; eauto.
    + intros Hsame. apply map_empty. intros k.
      apply eq_None_not_Some. rewrite Hlisted, Hsize, allKeys_spec.
      intros [(l1 & ks1 & Hl1 & Hload1 & Hk1) (l2 & ks2 & Hl2 & Hload2 & Hk2)].
      by rewrite (Hsame l1 l2 ks1 ks2) in Hk1.
  - by rewrite Hlisted, Hsize, allKeys_spec.
  - intros missing Hmissing l. unfold missingKeysMap in Hmissing.
    rewrite record_fold, lookup_empty in Hmissing.
    case_bool_decide; [|done]. injection Hmissing as <-.
    by rewrite missingLocales_spec, lacks_spec.
Qed.

End KeyCheckFacts.

Section KeyCheckExamples.
Import KeyCheck MoreSamples.
Existing Instance sampleLocaleFiles.

(** French lacks one key, the Japanese file cannot be read: one key is
    reported, for French only. *)
Example missingKeysMap_sample :
  missingKeysMap = {[ "toolbar_print" := {[ "fr" ]} ]} ∧ complete = false.
Proof. by vm_compute. Qed.

End KeyCheckExamples.

